(** * Sliding-tile puzzle search: Board.py, Solver.py and the path printer of
    Tester.py, embedded and verified.

    Python integers are [Z]; a Python [str] is a [list ascii]; a raised
    exception is the [Raise] branch of [result]; [None] is [option]'s [None].
    The expanded set of the driver is a [gset] of tile strings, because
    [SlideBoard.__eq__] and [SlideBoard.__hash__] look at the tiles only. *)

From Stdlib Require Import ZArith Ascii String.
From stdpp Require Import gmap strings list sorting.
From Stdlib Require Import Lia.

Local Open Scope Z_scope.

(** ** Exceptions and the error monad *)

Inductive exn : Set :=
| BadBoard
| ValueError
| IndexError
| TypeError
| AttributeError
| ZeroDivisionError.

Inductive result (A : Type) : Type :=
| Ok (a : A)
| Raise (e : exn).
Arguments Ok {A} a.
Arguments Raise {A} e.

#[global] Instance result_ret : MRet result := λ A a, Ok a.

#[global] Instance result_bind : MBind result := λ A B k m,
  match m with
  | Ok a => k a
  | Raise e => Raise e
  end.

Definition is_Ok {A} (m : result A) : Prop := ∃ a, m = Ok a.

(** ** The pieces of Python's [str] and [int] the program uses *)

Abbreviation str := (list ascii).

Definition blank : ascii := " "%char.

Definition len (s : str) : Z := Z.of_nat (length s).

(** [s[i]] with Python's negative indices. *)
Definition getitem (s : str) (i : Z) : result ascii :=
  let j := if i <? 0 then i + len s else i in
  if (j <? 0) || (len s <=? j) then Raise IndexError
  else match s !! Z.to_nat j with
       | Some c => Ok c
       | None => Raise IndexError
       end.

(** A slice bound: negative bounds count from the end, then clamp. *)
Definition slice_bound (s : str) (i : Z) : nat :=
  let j := if i <? 0 then i + len s else i in
  Z.to_nat (Z.max 0 (Z.min (len s) j)).

(** [s[lo:hi]], [s[:hi]] and [s[lo:]]. *)
Definition slice (s : str) (lo hi : Z) : str :=
  take (slice_bound s hi - slice_bound s lo) (drop (slice_bound s lo) s).
Definition slice_to (s : str) (hi : Z) : str := take (slice_bound s hi) s.
Definition slice_from (s : str) (lo : Z) : str := drop (slice_bound s lo) s.

(** [s.index(c)] for a one-character [c]. *)
Fixpoint find_index (c : ascii) (s : str) : option nat :=
  match s with
  | [] => None
  | d :: s' => if decide (d = c) then Some 0%nat
               else S <$> find_index c s'
  end.

Definition index (s : str) (c : ascii) : result Z :=
  match find_index c s with
  | Some i => Ok (Z.of_nat i)
  | None => Raise ValueError
  end.

(** [c in s]. *)
Definition contains (s : str) (c : ascii) : bool := bool_decide (c ∈ s).

(** [len(set(s))]. *)
Definition len_set (s : str) : Z := Z.of_nat (length (remove_dups s)).

(** [divmod(a, b)] and [a % b]; both floor, as [Z.div] and [Z.modulo] do. *)
Definition divmod (a b : Z) : result (Z * Z) :=
  if b =? 0 then Raise ZeroDivisionError else Ok (a / b, a mod b).

Definition pymod (a b : Z) : result Z :=
  if b =? 0 then Raise ZeroDivisionError else Ok (a mod b).

(** ** Board.py *)

#[local] Set Warnings "-register-all".

Inductive SlideBoard : Type := mkSlideBoard {
  tiles : str;
  n : Z;
  _space_ind : Z;
  heuristic : option Z;
  depth : Z;
  parent : option SlideBoard
}.

(** [SlideBoard.__init__]: the heuristic starts as [None]. *)
Definition SlideBoard_init (tiles : str) (n space_ind depth : Z)
    (parent : option SlideBoard) : SlideBoard :=
  mkSlideBoard tiles n space_ind None depth parent.

(** [SlideBoard.create]. *)
Definition create (str_rep : str) (n : Z) : result SlideBoard :=
  if n <=? 0 then Raise BadBoard
  else if negb (len str_rep =? n * n) then Raise BadBoard
  else if negb (contains str_rep blank) then Raise BadBoard
  else if negb (len_set str_rep =? len str_rep) then Raise BadBoard
  else
    i ← index str_rep blank;
    Ok (SlideBoard_init str_rep n i 0 None).

(** [_manhattan_distance]: the loop over [enumerate(first.tiles)], with the
    running index and the running total. *)
Fixpoint manhattan_loop (first_n : Z) (second_tiles : str)
    (ind : Z) (rest : str) (total_manhattan : Z) : result Z :=
  match rest with
  | [] => Ok total_manhattan
  | tile :: rest' =>
      if decide (tile = blank) then
        manhattan_loop first_n second_tiles (ind + 1) rest' total_manhattan
      else
        '(y1, x1) ← divmod ind first_n;
        j ← index second_tiles tile;
        '(y2, x2) ← divmod j first_n;
        manhattan_loop first_n second_tiles (ind + 1) rest'
          (total_manhattan + (Z.abs (y2 - y1) + Z.abs (x2 - x1)))
  end.

Definition _manhattan_distance (first second : SlideBoard) : result Z :=
  manhattan_loop (n first) (tiles second) 0 (tiles first) 0.

(** [generate_heuristic] writes the cache field; the updated object is
    returned. *)
Definition set_heuristic (self : SlideBoard) (h : option Z) : SlideBoard :=
  mkSlideBoard (tiles self) (n self) (_space_ind self) h (depth self)
    (parent self).

Definition generate_heuristic (self goal : SlideBoard) : result SlideBoard :=
  h ← _manhattan_distance self goal;
  Ok (set_heuristic self (Some h)).

(** [__eq__]: both operands are [SlideBoard]s here, so the type test is the
    comparison of two equal class tags. *)
Inductive pytype : Set := TySlideBoard | TyNoneType.

Definition type_of (o : option SlideBoard) : pytype :=
  match o with Some _ => TySlideBoard | None => TyNoneType end.

Definition pytype_eqb (a b : pytype) : bool :=
  match a, b with
  | TySlideBoard, TySlideBoard | TyNoneType, TyNoneType => true
  | _, _ => false
  end.

Definition SlideBoard_eq (self : SlideBoard) (other : option SlideBoard)
    : bool :=
  pytype_eqb (type_of (Some self)) (type_of other)
  && match other with
     | Some o => bool_decide (tiles self = tiles o)
     | None => false
     end.

(** [_space_move]. *)
Definition _space_move (self : SlideBoard) (check : bool) (new_pos : Z)
    : result (option SlideBoard) :=
  if negb check then Ok None
  else
    let min_pos := Z.min (_space_ind self) new_pos in
    let max_pos := Z.max (_space_ind self) new_pos in
    let t := tiles self in
    cmax ← getitem t max_pos;
    cmin ← getitem t min_pos;
    Ok (Some (SlideBoard_init
                (slice_to t min_pos ++ [cmax]
                 ++ slice t (min_pos + 1) max_pos ++ [cmin]
                 ++ slice_from t (max_pos + 1))
                (n self) new_pos (depth self + 1) (Some self))).

Definition space_up (self : SlideBoard) : result (option SlideBoard) :=
  _space_move self (n self <=? _space_ind self) (_space_ind self - n self).

Definition space_down (self : SlideBoard) : result (option SlideBoard) :=
  _space_move self (_space_ind self <? n self ^ 2 - n self)
    (_space_ind self + n self).

Definition space_left (self : SlideBoard) : result (option SlideBoard) :=
  r ← pymod (_space_ind self) (n self);
  _space_move self (negb (r =? 0)) (_space_ind self - 1).

Definition space_right (self : SlideBoard) : result (option SlideBoard) :=
  r ← pymod (_space_ind self) (n self);
  _space_move self (negb (r =? n self - 1)) (_space_ind self + 1).

(** [__hash__] is [hash(self.tiles)]; Python's string hash is a function of
    the string that is fixed for the life of the process. *)
Definition SlideBoard_hash (hash : str → Z) (self : SlideBoard) : Z :=
  hash (tiles self).

(** ** Python's [bisect.insort_left] with a [key]

    The binary search of the [bisect] module.  [fuel] bounds the number of
    iterations; [bisect_left] starts it at [len(a)], which the loop never
    uses up (lemma [bisect_loop_fuel]). *)

Section Bisect.
Context {A : Type}.
Variable key : A → result Z.

Fixpoint bisect_loop (a : list A) (x : Z) (fuel lo hi : nat)
    : result nat :=
  match fuel with
  | O => Ok lo
  | S fuel' =>
      if (lo <? hi)%nat then
        let mid := ((lo + hi) `div` 2)%nat in
        match a !! mid with
        | None => Raise IndexError
        | Some e =>
            k ← key e;
            if k <? x then bisect_loop a x fuel' (mid + 1)%nat hi
            else bisect_loop a x fuel' lo mid
        end
      else Ok lo
  end.

Definition bisect_left (a : list A) (x : Z) : result nat :=
  bisect_loop a x (length a) 0%nat (length a).

(** [a.insert(i, x)]. *)
Definition list_insert_at (a : list A) (i : nat) (x : A) : list A :=
  take i a ++ x :: drop i a.

Definition insort_left (a : list A) (x : A) : result (list A) :=
  kx ← key x;
  lo ← bisect_left a kx;
  Ok (list_insert_at a lo x).
End Bisect.

(** ** Solver.py: the fringes

    A fringe is its three fields and its container.  Here the container
    holds the States as values: [add] stores the State as
    [generate_heuristic] leaves it.  That is the fringe of State objects
    given further down, read through the store, as long as no [add]
    rewrites an object that is stored; the driver adds every State object
    once.  Traces that add a stored object again are stated on the fringe
    of objects. *)

(** What a scoring function returns: an integer or [None]. *)
Abbreviation pyint := (option Z).

(** Unary minus. *)
Definition neg (v : pyint) : result Z :=
  match v with
  | Some z => Ok (- z)
  | None => Raise TypeError
  end.

Inductive container : Type :=
| Queue (_deque : list SlideBoard)
| Stack (_stack : list SlideBoard)
| PriorityQueue (_sorted_list : list SlideBoard)
    (f : SlideBoard → result pyint).

Record Fringe : Type := mkFringe {
  _uses_heuristic : bool;
  _num_created : Z;
  _max_fringe : Z;
  store : container
}.

(** The constructors of the three subclasses. *)
Definition Queue_new : Fringe := mkFringe false (-1) 0 (Queue []).
Definition Stack_new : Fringe := mkFringe false (-1) 0 (Stack []).
Definition PriorityQueue_new (f : SlideBoard → result pyint) : Fringe :=
  mkFringe true (-1) 0 (PriorityQueue [] f).

(** [self._f = lambda state: -f(state)]. *)
Definition PriorityQueue_f (f : SlideBoard → result pyint)
    (state : SlideBoard) : result Z :=
  v ← f state; neg v.

Definition entries (c : container) : list SlideBoard :=
  match c with
  | Queue d => d
  | Stack s => s
  | PriorityQueue l _ => l
  end.

(** [__len__]. *)
Definition container_len (c : container) : Z := Z.of_nat (length (entries c)).
Definition Fringe_len (self : Fringe) : Z := container_len (store self).

Definition _add (c : container) (state : SlideBoard) : result container :=
  match c with
  | Queue d => Ok (Queue (d ++ [state]))
  | Stack s => Ok (Stack (s ++ [state]))
  | PriorityQueue l f =>
      l' ← insort_left (PriorityQueue_f f) l state;
      Ok (PriorityQueue l' f)
  end.

(** [list.pop()]. *)
Definition list_pop (l : list SlideBoard)
    : result (SlideBoard * list SlideBoard) :=
  match last l with
  | Some x => Ok (x, take (length l - 1) l)
  | None => Raise IndexError
  end.

Definition _remove (c : container) : result (SlideBoard * container) :=
  match c with
  | Queue d =>
      match d with
      | x :: d' => Ok (x, Queue d')
      | [] => Raise IndexError
      end
  | Stack s => '(x, s') ← list_pop s; Ok (x, Stack s')
  | PriorityQueue l f => '(x, l') ← list_pop l; Ok (x, PriorityQueue l' f)
  end.

Definition Fringe_add (self : Fringe) (state goal : SlideBoard)
    : result Fringe :=
  state ← (if _uses_heuristic self then generate_heuristic state goal
           else Ok state);
  c ← _add (store self) state;
  let created := _num_created self + 1 in
  if _max_fringe self <? container_len c
  then Ok (mkFringe (_uses_heuristic self) created (container_len c) c)
  else Ok (mkFringe (_uses_heuristic self) created (_max_fringe self) c).

Definition Fringe_remove (self : Fringe)
    : result (option SlideBoard * Fringe) :=
  if negb (Fringe_len self =? 0) then
    '(x, c) ← _remove (store self);
    Ok (Some x, mkFringe (_uses_heuristic self) (_num_created self)
                  (_max_fringe self) c)
  else Ok (None, self).

(** ** Solver.py: the driver *)

Definition _try_add (fringe : Fringe) (expanded : gset str)
    (goal : SlideBoard) (node : option SlideBoard) : result Fringe :=
  match node with
  | Some nd =>
      if bool_decide (tiles nd ∈ expanded) then Ok fringe
      else Fringe_add fringe nd goal
  | None => Ok fringe
  end.

(** (node, depth, num_created, num_expanded, max_fringe) *)
Definition answer : Type := option SlideBoard * Z * Z * Z * Z.

Inductive step : Type :=
| Continue (expanded : gset str) (fringe : Fringe)
| Return (a : answer).

(** One pass through the body of the [while] loop.  A [None] from [remove]
    is in no set and equals no board, so it would reach [node.space_up()],
    which raises [AttributeError]; the loop only runs on a non-empty fringe,
    so that branch is dead. *)
Definition loop_body (goal_state : SlideBoard) (expanded : gset str)
    (fringe : Fringe) : result step :=
  '(node, fringe) ← Fringe_remove fringe;
  match node with
  | None => Raise AttributeError
  | Some node =>
      if bool_decide (tiles node ∈ expanded) then Ok (Continue expanded fringe)
      else if SlideBoard_eq node (Some goal_state) then
        Ok (Return (Some node, depth node, _num_created fringe,
                    Z.of_nat (size expanded), _max_fringe fringe))
      else
        let expanded := {[tiles node]} ∪ expanded in
        up ← space_up node;
        fringe ← _try_add fringe expanded goal_state up;
        down ← space_down node;
        fringe ← _try_add fringe expanded goal_state down;
        left ← space_left node;
        fringe ← _try_add fringe expanded goal_state left;
        right ← space_right node;
        fringe ← _try_add fringe expanded goal_state right;
        Ok (Continue expanded fringe)
  end.

(** The [while fringe:] loop; [None] means the fuel ran out. *)
Fixpoint search_loop (fuel : nat) (goal_state : SlideBoard)
    (expanded : gset str) (fringe : Fringe) : option (result answer) :=
  match fuel with
  | O => None
  | S fuel' =>
      if Fringe_len fringe =? 0 then Some (Ok (None, -1, 0, 0, 0))
      else
        match loop_body goal_state expanded fringe with
        | Raise e => Some (Raise e)
        | Ok (Return a) => Some (Ok a)
        | Ok (Continue expanded' fringe') =>
            search_loop fuel' goal_state expanded' fringe'
        end
  end.

Definition _graph_search (fuel : nat) (start_state goal_state : SlideBoard)
    (fringe : Fringe) : option (result answer) :=
  match Fringe_add fringe start_state goal_state with
  | Raise e => Some (Raise e)
  | Ok fringe => search_loop fuel goal_state ∅ fringe
  end.

Definition BFS (fuel : nat) (start_state goal_state : SlideBoard) :=
  _graph_search fuel start_state goal_state Queue_new.

Definition DFS (fuel : nat) (start_state goal_state : SlideBoard) :=
  _graph_search fuel start_state goal_state Stack_new.

Definition GBFS_f (state : SlideBoard) : result pyint :=
  Ok (heuristic state).

(** [state.depth + state.heuristic]: adding [None] to an integer raises. *)
Definition AStar_f (state : SlideBoard) : result pyint :=
  match heuristic state with
  | Some h => Ok (Some (depth state + h))
  | None => Raise TypeError
  end.

Definition GBFS (fuel : nat) (start_state goal_state : SlideBoard) :=
  _graph_search fuel start_state goal_state (PriorityQueue_new GBFS_f).

Definition AStar (fuel : nat) (start_state goal_state : SlideBoard) :=
  _graph_search fuel start_state goal_state (PriorityQueue_new AStar_f).

(** ** Tester.py: the table of algorithms and the solution path *)

Definition search_fn : Type :=
  nat → SlideBoard → SlideBoard → option (result answer).

Definition _ALGORITHMS : list (string * search_fn) :=
  [("BFS"%string, BFS); ("DFS"%string, DFS);
   ("GBFS"%string, GBFS); ("AStar"%string, AStar)].

(** The [while node is not None] loop of [_print_solution]. *)
Fixpoint parent_chain (node : SlideBoard) : list SlideBoard :=
  node :: match parent node with
          | Some p => parent_chain p
          | None => []
          end.

(** The configurations printed, root first. *)
Definition solution_path (node : SlideBoard) : list str :=
  tiles <$> reverse (parent_chain node).

(** ** Solver.py: the fringe over State objects

    Python hands States around by reference: [add] keeps the State object
    itself in the container, and [generate_heuristic] writes the cache
    field of that object, so a State that is added again is the object
    already stored.  Here the State objects live in a store, a list
    indexed by reference, and a fringe holds references.  The cache field
    is the only field of a State that is ever written; the goal is only
    read. *)

Definition ref : Type := nat.
Definition objects : Type := list SlideBoard.

(** Reading an object.  In Python a reference always names an object; one
    that names none raises here. *)
Definition deref (h : objects) (r : ref) : result SlideBoard :=
  match h !! r with
  | Some st => Ok st
  | None => Raise AttributeError
  end.

(** [state.generate_heuristic(goal)] on the object [r]. *)
Definition generate_heuristic_at (h : objects) (r : ref)
    (goal : SlideBoard) : result objects :=
  st ← deref h r;
  st ← generate_heuristic st goal;
  Ok (<[r := st]> h).

Inductive ref_container : Type :=
| RefQueue (_deque : list ref)
| RefStack (_stack : list ref)
| RefPriorityQueue (_sorted_list : list ref)
    (f : SlideBoard → result pyint).

Record RefFringe : Type := mkRefFringe {
  ref_uses_heuristic : bool;
  ref_num_created : Z;
  ref_max_fringe : Z;
  ref_store : ref_container
}.

Definition Queue_ref_new : RefFringe := mkRefFringe false (-1) 0 (RefQueue []).
Definition Stack_ref_new : RefFringe := mkRefFringe false (-1) 0 (RefStack []).

Definition refs (c : ref_container) : list ref :=
  match c with
  | RefQueue d => d
  | RefStack s => s
  | RefPriorityQueue l _ => l
  end.

Definition RefFringe_len (self : RefFringe) : Z :=
  Z.of_nat (length (refs (ref_store self))).

(** [self._f] on a stored reference: it reads the object as it is when
    the key is taken. *)
Definition PriorityQueue_f_at (f : SlideBoard → result pyint)
    (h : objects) (r : ref) : result Z :=
  st ← deref h r; PriorityQueue_f f st.

Definition _add_ref (h : objects) (c : ref_container) (r : ref)
    : result ref_container :=
  match c with
  | RefQueue d => Ok (RefQueue (d ++ [r]))
  | RefStack s => Ok (RefStack (s ++ [r]))
  | RefPriorityQueue l f =>
      l' ← insort_left (PriorityQueue_f_at f h) l r;
      Ok (RefPriorityQueue l' f)
  end.

Definition list_pop_ref (l : list ref) : result (ref * list ref) :=
  match last l with
  | Some x => Ok (x, take (length l - 1) l)
  | None => Raise IndexError
  end.

Definition _remove_ref (c : ref_container) : result (ref * ref_container) :=
  match c with
  | RefQueue d =>
      match d with
      | x :: d' => Ok (x, RefQueue d')
      | [] => Raise IndexError
      end
  | RefStack s => '(x, s') ← list_pop_ref s; Ok (x, RefStack s')
  | RefPriorityQueue l f =>
      '(x, l') ← list_pop_ref l; Ok (x, RefPriorityQueue l' f)
  end.

(** [Fringe.add] and [Fringe.remove]: the store of objects goes in and
    comes out. *)
Definition Fringe_add_ref (h : objects) (self : RefFringe) (r : ref)
    (goal : SlideBoard) : result (objects * RefFringe) :=
  h ← (if ref_uses_heuristic self then generate_heuristic_at h r goal
       else Ok h);
  c ← _add_ref h (ref_store self) r;
  let created := ref_num_created self + 1 in
  let size := Z.of_nat (length (refs c)) in
  if ref_max_fringe self <? size
  then Ok (h, mkRefFringe (ref_uses_heuristic self) created size c)
  else Ok (h, mkRefFringe (ref_uses_heuristic self) created
                (ref_max_fringe self) c).

Definition Fringe_remove_ref (self : RefFringe)
    : result (option ref * RefFringe) :=
  if negb (RefFringe_len self =? 0) then
    '(x, c) ← _remove_ref (ref_store self);
    Ok (Some x, mkRefFringe (ref_uses_heuristic self) (ref_num_created self)
                  (ref_max_fringe self) c)
  else Ok (None, self).

(** ** Vocabulary of the specification *)

(** The invariants of a State (data model): side length positive, [n*n]
    tiles, no symbol twice, and the blank where [_space_ind] says. *)
Record valid_board (b : SlideBoard) : Prop := {
  valid_n : 0 < n b;
  valid_len : len (tiles b) = n b * n b;
  valid_nodup : NoDup (tiles b);
  valid_space_nonneg : 0 ≤ _space_ind b;
  valid_blank : tiles b !! Z.to_nat (_space_ind b) = Some blank
}.

(** What makes [create] refuse its input. *)
Definition malformed (str_rep : str) (n : Z) : Prop :=
  n ≤ 0 ∨ len str_rep ≠ n * n ∨ blank ∉ str_rep ∨ ¬ NoDup str_rep.

Inductive direction : Set := Up | Down | Left | Right.

Definition move (d : direction) (self : SlideBoard)
    : result (option SlideBoard) :=
  match d with
  | Up => space_up self
  | Down => space_down self
  | Left => space_left self
  | Right => space_right self
  end.

Definition opposite (d : direction) : direction :=
  match d with
  | Up => Down
  | Down => Up
  | Left => Right
  | Right => Left
  end.

(** Row and column of the blank: the index is [n*row + col]. *)
Definition blank_row (b : SlideBoard) : Z := _space_ind b / n b.
Definition blank_col (b : SlideBoard) : Z := _space_ind b mod n b.

(** The blank lies on the edge that a move in direction [d] would cross. *)
Definition on_edge (d : direction) (b : SlideBoard) : Prop :=
  match d with
  | Up => blank_row b = 0
  | Down => blank_row b = n b - 1
  | Left => blank_col b = 0
  | Right => blank_col b = n b - 1
  end.

(** The change of the blank's linear index. *)
Definition index_shift (d : direction) (b : SlideBoard) : Z :=
  match d with
  | Up => - n b
  | Down => n b
  | Left => -1
  | Right => 1
  end.

(** The list with the entries at [i] and [j] exchanged. *)
Definition swap (l : str) (i j : nat) : str :=
  match l !! i, l !! j with
  | Some a, Some b => <[i := b]> (<[j := a]> l)
  | _, _ => l
  end.

#[global] Instance on_edge_dec d b : Decision (on_edge d b).
Proof. destruct d; simpl; apply _. Defined.

(** The State [_space_move] builds when the blank goes to index [j]. *)
Definition moved (b : SlideBoard) (j : Z) : SlideBoard :=
  mkSlideBoard (swap (tiles b) (Z.to_nat (_space_ind b)) (Z.to_nat j))
    (n b) j None (depth b + 1) (Some b).

(** A Python string literal. *)
Definition chars (x : string) : str := list_ascii_of_string x.

(** The start and the goal of the 2×2 example of the specification. *)
Definition start_21_3 : SlideBoard :=
  mkSlideBoard (chars "21 3") 2 2 None 0 None.
Definition goal_213_ : SlideBoard :=
  mkSlideBoard (chars "213 ") 2 3 None 0 None.

(** Manhattan distance as the specification words it: every non-blank
    symbol is located, by linear scan, in the receiver and in the goal, and
    the row and column differences are summed. *)
Definition locate (b : SlideBoard) (c : ascii) : Z * Z :=
  let i := Z.of_nat (default 0%nat (find_index c (tiles b))) in
  (i / n b, i mod n b).

Definition tile_distance (self goal : SlideBoard) (c : ascii) : Z :=
  Z.abs ((locate goal c).1 - (locate self c).1)
  + Z.abs ((locate goal c).2 - (locate self c).2).

Definition sum_Z (l : list Z) : Z := foldr Z.add 0 l.

Definition non_blank (t : str) : str := filter (λ c, c ≠ blank) t.

Definition manhattan_sum (self goal : SlideBoard) : Z :=
  sum_Z (tile_distance self goal <$> non_blank (tiles self)).

(** The moves that succeed from a State, in the order the driver tries
    them. *)
Definition is_legal (b : SlideBoard) (d : direction) : bool :=
  match move d b with
  | Ok (Some _) => true
  | _ => false
  end.

Definition legal_moves (b : SlideBoard) : list direction :=
  List.filter (is_legal b) [Up; Down; Left; Right].

(** ** Traces of fringe operations *)

Inductive op : Type :=
| CallAdd (state goal : SlideBoard)
| CallRemove.

Definition apply_op (fr : Fringe) (o : op) : result Fringe :=
  match o with
  | CallAdd state goal => Fringe_add fr state goal
  | CallRemove => '(_, fr') ← Fringe_remove fr; Ok fr'
  end.

Fixpoint run_ops (fr : Fringe) (ops : list op) : result Fringe :=
  match ops with
  | [] => Ok fr
  | o :: ops' => fr' ← apply_op fr o; run_ops fr' ops'
  end.

Definition is_add (o : op) : bool :=
  match o with CallAdd _ _ => true | CallRemove => false end.

(** The number of [add] calls in a trace. *)
Definition count_adds (ops : list op) : Z :=
  Z.of_nat (length (List.filter is_add ops)).

(** The sizes the fringe goes through: before the trace and after each of
    its operations. *)
Fixpoint sizes (fr : Fringe) (ops : list op) : list Z :=
  Fringe_len fr ::
  match ops with
  | [] => []
  | o :: ops' =>
      match apply_op fr o with
      | Ok fr' => sizes fr' ops'
      | Raise _ => []
      end
  end.

Definition largest (l : list Z) : Z := foldr Z.max 0 l.

(** A fringe as its constructor leaves it. *)
Definition brand_new (fr : Fringe) : Prop :=
  _num_created fr = -1 ∧ _max_fringe fr = 0 ∧ entries (store fr) = [].

(** The fringes the constructors [Queue()], [Stack()] and
    [PriorityQueue(f)] build. *)
Inductive new_fringe : Fringe → Prop :=
| new_Queue : new_fringe Queue_new
| new_Stack : new_fringe Stack_new
| new_PriorityQueue f : new_fringe (PriorityQueue_new f).

(** The state of the driver at the head of its loop after [k] passes that
    went on ([None] when the loop ended earlier, or raised). *)
Fixpoint loop_state (k : nat) (goal_state : SlideBoard)
    (expanded : gset str) (fringe : Fringe) : option (gset str * Fringe) :=
  match k with
  | O => Some (expanded, fringe)
  | S k' =>
      if Fringe_len fringe =? 0 then None
      else
        match loop_body goal_state expanded fringe with
        | Ok (Continue expanded' fringe') =>
            loop_state k' goal_state expanded' fringe'
        | _ => None
        end
  end.

(** The calls the driver makes on its fringe.  [_try_add] calls [add] for
    a successor that exists and is not expanded; a pass of the loop calls
    [remove] and, when it expands the node, [_try_add] on the four
    successors; [loop_calls] is the log of the passes made, up to the pass
    that returns. *)
Definition try_add_calls (expanded : gset str) (goal : SlideBoard)
    (node : option SlideBoard) : list op :=
  match node with
  | Some nd =>
      if bool_decide (tiles nd ∈ expanded) then [] else [CallAdd nd goal]
  | None => []
  end.

Definition body_calls (goal_state : SlideBoard) (expanded : gset str)
    (fringe : Fringe) : list op :=
  match Fringe_remove fringe with
  | Ok (Some node, _) =>
      if bool_decide (tiles node ∈ expanded) then [CallRemove]
      else if SlideBoard_eq node (Some goal_state) then [CallRemove]
      else
        let expanded := {[tiles node]} ∪ expanded in
        CallRemove ::
        flat_map (λ successor,
                    match successor with
                    | Ok c => try_add_calls expanded goal_state c
                    | Raise _ => []
                    end)
          [space_up node; space_down node; space_left node;
           space_right node]
  | _ => [CallRemove]
  end.

Fixpoint loop_calls (passes : nat) (goal_state : SlideBoard)
    (expanded : gset str) (fringe : Fringe) : list op :=
  match passes with
  | O => []
  | S passes' =>
      if Fringe_len fringe =? 0 then []
      else
        body_calls goal_state expanded fringe ++
        match loop_body goal_state expanded fringe with
        | Ok (Continue expanded' fringe') =>
            loop_calls passes' goal_state expanded' fringe'
        | _ => []
        end
  end.

(** ** The priority queue the specification describes

    The stored entries in the order they were inserted; [remove] takes the
    first entry among those of least score. *)

Section PriorityOrder.
Context {A : Type}.
Variable score : A → Z.

Fixpoint extract_min (p : list A) : option (A * list A) :=
  match p with
  | [] => None
  | x :: q =>
      match extract_min q with
      | None => Some (x, [])
      | Some (m, q') =>
          if score m <? score x then Some (m, x :: q') else Some (x, q)
      end
  end.

(** The list [insort_left] keeps: scores descend, and among equal scores
    the newest entry stands leftmost. *)
Fixpoint descending_insert (x : A) (l : list A) : list A :=
  match l with
  | [] => [x]
  | e :: l' =>
      if score x <? score e then e :: descending_insert x l'
      else x :: e :: l'
  end.

Definition descending (p : list A) : list A :=
  foldl (λ acc x, descending_insert x acc) [] p.
End PriorityOrder.

Definition pending_step (score : SlideBoard → Z) (p : list SlideBoard)
    (o : op) : result (list SlideBoard) :=
  match o with
  | CallAdd state goal =>
      state ← generate_heuristic state goal; Ok (p ++ [state])
  | CallRemove =>
      match extract_min score p with
      | Some (_, p') => Ok p'
      | None => Ok p
      end
  end.

(** The entries pending after a trace, oldest first. *)
Fixpoint pending (score : SlideBoard → Z) (p : list SlideBoard)
    (ops : list op) : result (list SlideBoard) :=
  match ops with
  | [] => Ok p
  | o :: ops' => p' ← pending_step score p o; pending score p' ops'
  end.

(** The scores of the two informed searches, as integers. *)
Definition GBFS_score (state : SlideBoard) : Z :=
  default 0 (heuristic state).
Definition AStar_score (state : SlideBoard) : Z :=
  depth state + default 0 (heuristic state).

(** The result of a search that found nothing. *)
Definition search_failed : answer := (None, -1, 0, 0, 0).

(** Two valid States over different symbols. *)
Definition start_ab_c : SlideBoard :=
  mkSlideBoard (chars "ab c") 2 2 None 0 None.

(** The fringes the four algorithms hand to the driver. *)
Definition driver_fringes : list Fringe :=
  [Queue_new; Stack_new; PriorityQueue_new GBFS_f; PriorityQueue_new AStar_f].

(** Every non-blank symbol of [start] occurs in [goal_state]. *)
Definition symbols_known (start goal_state : SlideBoard) : Prop :=
  ∀ c, c ∈ tiles start → c ≠ blank → c ∈ tiles goal_state.

(** What a search returns: nothing, or a State with the goal's tiles and
    its depth. *)
Definition outcome (goal_state : SlideBoard) (r : answer) : Prop :=
  r = search_failed ∨
  ∃ node created expanded_count max_fringe,
    r = (Some node, depth node, created, expanded_count, max_fringe) ∧
    tiles node = tiles goal_state.

(** ** Invariants used in the proofs *)

(** A State whose heuristic has been generated. *)
Definition scored (st : SlideBoard) : Prop := is_Some (heuristic st).

(** [a] does not score below [b]. *)
Definition not_below {A} (score : A → Z) (a b : A) : Prop :=
  score b ≤ score a.

(** What ties a priority-queue fringe to the list [p] of pending entries. *)
Definition keeps (f : SlideBoard → result pyint) (score : SlideBoard → Z)
    (fr : Fringe) (p : list SlideBoard) : Prop :=
  store fr = PriorityQueue (descending score p) f ∧
  _uses_heuristic fr = true ∧
  Forall scored p.

(** A State the search can meet from [start]: valid, and a rearrangement
    of the start's tiles. *)
Definition good (start st : SlideBoard) : Prop :=
  valid_board st ∧ tiles st ≡ₚ tiles start.

(** A priority queue holds scored entries only and its scoring function
    is an integer on scored States. *)
Definition is_pq (c : container) : bool :=
  match c with PriorityQueue _ _ => true | _ => false end.

Definition container_ok (c : container) : Prop :=
  match c with
  | PriorityQueue l f =>
      Forall scored l ∧ ∀ st, scored st → is_Ok (PriorityQueue_f f st)
  | _ => True
  end.

(** A fringe the driver can be in: its entries are good, and a priority
    queue generates heuristics. *)
Definition fringe_ok (start : SlideBoard) (fr : Fringe) : Prop :=
  Forall (good start) (entries (store fr)) ∧
  container_ok (store fr) ∧
  (is_pq (store fr) = true → _uses_heuristic fr = true).

(** The informed fringes need the goal to know the start's symbols. *)
Definition informed_ok (start goal_state : SlideBoard) (fr : Fringe)
    : Prop :=
  _uses_heuristic fr = true → symbols_known start goal_state.

(** Every arrangement of the start's tiles. *)
Definition arrangements (start : SlideBoard) : gset str :=
  list_to_set (permutations (tiles start)).

(** The passes the loop can still make: four insertions for each
    arrangement not yet expanded, and one removal for each entry. *)
Definition work_left (start : SlideBoard) (expanded : gset str)
    (fr : Fringe) : nat :=
  (4 * (size (arrangements start) - size expanded)
   + length (entries (store fr)))%nat.

(** The three ways one pass of the loop can go: the entry removed was
    expanded before, it is the goal, or it is expanded. *)
Inductive body_case (goal_state : SlideBoard) (expanded : gset str)
    (fringe : Fringe) : step → Prop :=
| body_skip node fringe1 :
    Fringe_remove fringe = Ok (Some node, fringe1) →
    tiles node ∈ expanded →
    body_case goal_state expanded fringe (Continue expanded fringe1)
| body_found node fringe1 :
    Fringe_remove fringe = Ok (Some node, fringe1) →
    tiles node ∉ expanded →
    tiles node = tiles goal_state →
    body_case goal_state expanded fringe
      (Return (Some node, depth node, _num_created fringe1,
               Z.of_nat (size expanded), _max_fringe fringe1))
| body_expand node fringe1 up fringe2 down fringe3 left fringe4 right
    fringe5 :
    let expanded' := {[tiles node]} ∪ expanded in
    Fringe_remove fringe = Ok (Some node, fringe1) →
    tiles node ∉ expanded →
    tiles node ≠ tiles goal_state →
    space_up node = Ok up →
    _try_add fringe1 expanded' goal_state up = Ok fringe2 →
    space_down node = Ok down →
    _try_add fringe2 expanded' goal_state down = Ok fringe3 →
    space_left node = Ok left →
    _try_add fringe3 expanded' goal_state left = Ok fringe4 →
    space_right node = Ok right →
    _try_add fringe4 expanded' goal_state right = Ok fringe5 →
    body_case goal_state expanded fringe (Continue expanded' fringe5).

(** A State as the search can come to it from [start]: the start itself,
    or the State a legal move builds from one come to before; in both
    cases the cached heuristic aside. *)
Inductive reached (start : SlideBoard) : SlideBoard → Prop :=
| reached_start node :
    set_heuristic node None = set_heuristic start None →
    reached start node
| reached_move p d child node :
    reached start p →
    move d p = Ok (Some child) →
    set_heuristic node None = child →
    reached start node.

Definition all_reached (start : SlideBoard) (fr : Fringe) : Prop :=
  Forall (reached start) (entries (store fr)).

(** ** The state space the driver searches *)

(** Two configurations one legal move apart, on a board of side [k]. *)
Definition adjacent (k : Z) (t t' : str) : Prop :=
  ∃ b d b', valid_board b ∧ n b = k ∧ tiles b = t ∧
            move d b = Ok (Some b') ∧ tiles b' = t'.

(** [walk k t0 j t]: [j] legal moves lead from configuration [t0] to [t]. *)
Inductive walk (k : Z) (t0 : str) : nat → str → Prop :=
| walk_O : walk k t0 0 t0
| walk_S j t t' : walk k t0 j t → adjacent k t t' → walk k t0 (S j) t'.

(** An entry of the fringe during a search from [start]: a valid State of
    the start's size whose depth counts the moves of a walk from the start
    to it. *)
Definition entry_ok (start e : SlideBoard) : Prop :=
  valid_board e ∧ n e = n start ∧
  ∃ j, walk (n start) (tiles start) j (tiles e) ∧
       depth e = depth start + Z.of_nat j.

(** [within tight start e i]: with [tight], the entry is no deeper than
    [i] moves below the start. *)
Definition within (tight : bool) (start e : SlideBoard) (i : nat) : Prop :=
  if tight then depth e ≤ depth start + Z.of_nat i else True.

(** What the driver keeps at the head of its loop, for the expanded set
    [E] and the entries [l] of the fringe: the entries are sound; the start
    is expanded or waits in the fringe; every neighbour of an expanded
    configuration is expanded or waits in the fringe (with [tight], no
    deeper than one move past any walk to that configuration); the goal is
    not expanded. *)
Record search_inv (tight : bool) (start goal_state : SlideBoard)
    (E : gset str) (l : list SlideBoard) : Prop := {
  inv_entries : Forall (entry_ok start) l;
  inv_start :
    tiles start ∈ E ∨
    ∃ e, e ∈ l ∧ tiles e = tiles start ∧ within tight start e 0;
  inv_closed :
    ∀ u j t, u ∈ E → walk (n start) (tiles start) j u →
             adjacent (n start) u t →
             t ∈ E ∨ ∃ e, e ∈ l ∧ tiles e = t ∧ within tight start e (S j);
  inv_goal : tiles goal_state ∉ E
}.

(** The entry a removal returns is least in depth plus estimate. *)
Definition pops_least (eta : str → Z) (fr : Fringe) : Prop :=
  ∀ x fr1, Fringe_remove fr = Ok (Some x, fr1) →
           ∀ e, e ∈ entries (store fr) →
                depth x + eta (tiles x) ≤ depth e + eta (tiles e).

(** An entry stored for the State [c]: [c] itself, or [c] with its
    heuristic cached. *)
Definition same_place (e c : SlideBoard) : Prop :=
  tiles e = tiles c ∧ n e = n c ∧ _space_ind e = _space_ind c ∧
  depth e = depth c.

(** A breadth-first queue: depths do not decrease from the head to the
    tail and span at most two levels, [h] and [h + 1]. *)
Definition no_deeper (a b : SlideBoard) : Prop := depth a ≤ depth b.

Definition queue_levels (fr : Fringe) : Prop :=
  ∃ q h, store fr = Queue q ∧ _uses_heuristic fr = false ∧
         StronglySorted no_deeper q ∧
         Forall (λ e, h ≤ depth e ≤ h + 1) q.

(** The levels of a queue whose head was at depth [dx] and which received
    successors of that head. *)
Definition levels_at (dx : Z) (fr : Fringe) : Prop :=
  ∃ q, store fr = Queue q ∧ _uses_heuristic fr = false ∧
       StronglySorted no_deeper q ∧
       Forall (λ e, dx ≤ depth e ≤ dx + 1) q.

(** The Manhattan estimate of a configuration [t] on a board of side [k]:
    [manhattan_sum] looks at the receiver's tiles and size only. *)
Definition estimate (goal_state : SlideBoard) (k : Z) (t : str) : Z :=
  manhattan_sum (mkSlideBoard t k 0 None 0 None) goal_state.

(** The fringe of A*: a priority queue kept in order of depth plus
    heuristic, every entry carrying the Manhattan estimate of its
    configuration. *)
Definition astar_fringe (goal_state : SlideBoard) (fr : Fringe) : Prop :=
  (∃ p, keeps AStar_f AStar_score fr p) ∧
  Forall (λ e, heuristic e = Some (estimate goal_state (n e) (tiles e)))
    (entries (store fr)).

(** What the loop keeps true of the statistics: at most four States are
    created per expanded configuration; every expanded configuration and
    every entry of the fringe was created; the largest size seen is at
    least 1 and at most the number of States added; and no entry is deeper
    than the number of expanded configurations. *)
Definition counts_ok (start : SlideBoard) (E : gset str) (fr : Fringe)
    : Prop :=
  _num_created fr ≤ 4 * Z.of_nat (size E) ∧
  Z.of_nat (size E) + Fringe_len fr ≤ _num_created fr + 1 ∧
  1 ≤ _max_fringe fr ≤ _num_created fr + 1 ∧
  Forall (λ e, depth start ≤ depth e ≤ depth start + Z.of_nat (size E))
    (entries (store fr)).

(** ** Tester.py: the command line *)

(** What [_parse_args] and [main] can raise: [RuntimeError], the
    [KeyError] of a dict lookup, and the exceptions of the Board and Solver
    modules. *)
Inductive raised : Set := RuntimeError | KeyError | Builtin (e : exn).

Definition _MIN_SIZE : Z := 2.
Definition _MAX_SIZE : Z := 9.

(** [d[k]] on a dict with distinct keys, held in insertion order; [None]
    stands for [KeyError]. *)
Fixpoint dict_get {K V} `{EqDecision K} (d : list (K * V)) (k : K)
    : option V :=
  match d with
  | [] => None
  | (k', v) :: d' => if decide (k' = k) then Some v else dict_get d' k
  end.

Definition _GOALS : list (Z * str) :=
  [(2, chars "213 ");
   (3, chars " 12345678");
   (4, chars "123456789ABCDEF ");
   (5, chars " 123456789ABCDEFGHIJKLMNO");
   (6, chars " 123456789ABCDEFGHIJKLMNOPQRSTUVWXYZ");
   (7, chars " 123456789ABCDEFGHIJKLMNOPQRSTUVWXYZabcdefghijklm");
   (8, chars
      " 123456789ABCDEFGHIJKLMNOPQRSTUVWXYZabcdefghijklmnopqrstuvwxyz!@");
   (9, chars
      " 123456789ABCDEFGHIJKLMNOPQRSTUVWXYZabcdefghijklmnopqrstuvwxyz!@#$%^&*()-_=+[{]}|")].

(** What [_parse_args] returns. *)
Definition parsed : Type := Z * SlideBoard * str * search_fn.

(** The double quote printed around a configuration. *)
Definition quote : ascii := ascii_of_nat 34.

(** [_print_solution]: the lines printed. *)
Definition _print_solution (node : option SlideBoard) : list str :=
  match node with
  | None => [chars "No solution found."]
  | Some node => (λ t, quote :: t ++ [quote]) <$> solution_path node
  end.

(** [except (RuntimeError, ValueError, BadBoard)]. *)
Definition caught (e : raised) : bool :=
  match e with
  | RuntimeError | Builtin ValueError | Builtin BadBoard => true
  | _ => false
  end.

(** What a run of [main] that raises nothing does: it prints
    [Invalid input:] with the exception and returns -1; or it prints the
    program-error line and returns -1; or it prints the solution and hands
    the size, the two configurations, the algorithm's name and the four
    statistics to [_print_result]. *)
Inductive report : Type :=
| InvalidInput (e : raised)
| ProgramError
| Searched (printed : list str) (size : Z) (start goal : str)
    (algorithm_name : str) (depth num_created num_expanded max_fringe : Z).

Section CommandLine.
(** [int(s)] of the built-ins on a string; [None] where it raises. *)
Variable int : str → option Z.

(** [_parse_args], on the list [sys.argv].  The messages of the exceptions
    are left out. *)
Definition _parse_args (argv : list str) : raised + parsed :=
  match argv with
  | [_; arg1; arg2; arg3] =>
      match int arg1 with
      | None => inl (Builtin ValueError)
      | Some size =>
          if (size <? _MIN_SIZE) || (_MAX_SIZE <? size)
          then inl (Builtin ValueError)
          else
            match dict_get _GOALS size with
            | None => inl KeyError
            | Some goal =>
                if negb (len_set arg2 =? len goal)
                   || existsb (λ char, negb (contains goal char)) arg2
                then inl (Builtin ValueError)
                else
                  match create arg2 size with
                  | Raise e => inl (Builtin e)
                  | Ok initial_state =>
                      match dict_get _ALGORITHMS (string_of_list_ascii arg3)
                      with
                      | None => inl (Builtin ValueError)
                      | Some algorithm =>
                          inr (size, initial_state, arg3, algorithm)
                      end
                  end
            end
      end
  | _ => inl RuntimeError
  end.

(** [main]: [None] when the fuel of the search runs out, [inl e] when the
    exception [e] leaves [main]. *)
Definition main (fuel : nat) (argv : list str) : option (raised + report) :=
  match _parse_args argv with
  | inl e => if caught e then Some (inr (InvalidInput e)) else Some (inl e)
  | inr (size, start, algorithm_name, algorithm) =>
      match dict_get _GOALS size with
      | None => Some (inr ProgramError)
      | Some goal_tiles =>
          match create goal_tiles size with
          | Raise _ => Some (inr ProgramError)
          | Ok goal =>
              match algorithm fuel start goal with
              | None => None
              | Some (Raise e) => Some (inl (Builtin e))
              | Some (Ok (node, depth, num_created, num_expanded,
                          max_fringe)) =>
                  Some (inr (Searched (_print_solution node) size
                               (tiles start) (tiles goal) algorithm_name
                               depth num_created num_expanded max_fringe))
              end
          end
      end
  end.
End CommandLine.

(** An [int] for the examples: it reads one decimal digit. *)
Definition one_digit (s : str) : option Z :=
  match s with
  | [c] =>
      let k := Z.of_nat (nat_of_ascii c) - 48 in
      if (0 <=? k) && (k <=? 9) then Some k else None
  | _ => None
  end.

(** ** Traces of fringe operations on State objects *)

Inductive ref_op : Type :=
| AddRef (r : ref) (goal : SlideBoard)
| RemoveRef.

Definition apply_ref_op (s : objects * RefFringe) (o : ref_op)
    : result (objects * RefFringe) :=
  match o with
  | AddRef r goal => Fringe_add_ref s.1 s.2 r goal
  | RemoveRef => '(_, fr) ← Fringe_remove_ref s.2; Ok (s.1, fr)
  end.

Fixpoint run_ref_ops (s : objects * RefFringe) (ops : list ref_op)
    : result (objects * RefFringe) :=
  match ops with
  | [] => Ok s
  | o :: ops' => s' ← apply_ref_op s o; run_ref_ops s' ops'
  end.


(** Every operation of the trace leaves the objects that are in the fringe
    when it starts as they are: no [add] rewrites the heuristic of a State
    that is stored. *)
Fixpoint stored_untouched (s : objects * RefFringe) (ops : list ref_op)
    : Prop :=
  match ops with
  | [] => True
  | o :: ops' =>
      match apply_ref_op s o with
      | Ok s' =>
          Forall (λ r, s'.1 !! r = s.1 !! r) (refs (ref_store s.2)) ∧
          stored_untouched s' ops'
      | Raise _ => True
      end
  end.



(** The references an [add] of the trace names. *)
Definition added (ops : list ref_op) : list ref :=
  flat_map (λ o, match o with AddRef r _ => [r] | RemoveRef => [] end) ops.





(** * Proofs *)

(** ** Strings *)

Lemma len_nonneg (t : str) : 0 ≤ len t.
Proof. unfold len. lia. Qed.

Lemma find_index_Some c (t : str) i :
  find_index c t = Some i →
  t !! i = Some c ∧ ∀ j, (j < i)%nat → t !! j ≠ Some c.
Proof.
  revert i. induction t as [|d t IH]; intros i; simpl; [done|].
  case_decide as Hd.
  - intros [= <-]. subst. split; [done|]. intros j Hj. lia.
  - destruct (find_index c t) as [k|] eqn:Hk; simpl; [|done].
    intros [= <-]. destruct (IH k eq_refl) as [H1 H2]. split; [done|].
    intros [|j] Hj; simpl; [congruence|]. apply H2. lia.
Qed.

Lemma find_index_None c (t : str) : find_index c t = None ↔ c ∉ t.
Proof.
  induction t as [|d t IH]; simpl.
  - split; [intros _; apply not_elem_of_nil | done].
  - rewrite not_elem_of_cons. case_decide as Hd.
    + split; [done|]. intros [Hne _]. by subst.
    + destruct (find_index c t) eqn:Hk; simpl.
      * split; [done|]. intros [_ Hn]. by apply IH in Hn.
      * split; [|done]. intros _. split; [congruence|]. by apply IH.
Qed.

Lemma find_index_elem_of c (t : str) :
  c ∈ t → ∃ i, find_index c t = Some i.
Proof.
  intros Hin. destruct (find_index c t) as [i|] eqn:Hi; [by exists i|].
  by apply find_index_None in Hi.
Qed.

Lemma find_index_NoDup c (t : str) i :
  NoDup t → t !! i = Some c → find_index c t = Some i.
Proof.
  intros Hnd Hi.
  destruct (find_index_elem_of c t) as [k Hk].
  { by eapply list_elem_of_lookup_2. }
  apply find_index_Some in Hk as Hk'. destruct Hk' as [Hk' _].
  rewrite Hk. f_equal. by eapply NoDup_lookup.
Qed.

Lemma find_index_lt c (t : str) i :
  find_index c t = Some i → (i < length t)%nat.
Proof.
  intros H. apply find_index_Some in H as [H _]. by eapply lookup_lt_Some.
Qed.

Lemma contains_true (t : str) c : contains t c = true ↔ c ∈ t.
Proof. unfold contains. apply bool_decide_eq_true. Qed.

Lemma remove_dups_length_le (t : str) :
  (length (remove_dups t) ≤ length t)%nat.
Proof.
  induction t as [|c t IH]; simpl; [done|].
  destruct (decide_rel elem_of c t); simpl; lia.
Qed.

Lemma len_set_NoDup (t : str) : len_set t = len t ↔ NoDup t.
Proof.
  unfold len_set, len. rewrite Nat2Z.inj_iff.
  induction t as [|c t IH]; simpl.
  - split; [intros _; constructor | done].
  - rewrite NoDup_cons. pose proof (remove_dups_length_le t).
    destruct (decide_rel elem_of c t) as [Hin|Hin]; simpl.
    + split; [lia | tauto].
    + split.
      * intros [= Hl]. split; [done|]. by apply IH.
      * intros [_ Hnd]. f_equal. by apply IH.
Qed.

Lemma getitem_Ok (t : str) (i : Z) c :
  0 ≤ i → t !! Z.to_nat i = Some c → getitem t i = Ok c.
Proof.
  intros Hi Hc. unfold getitem.
  apply lookup_lt_Some in Hc as Hlt.
  assert (i < len t) by (unfold len; lia).
  destruct (Z.ltb_spec i 0); [lia|].
  destruct (Z.ltb_spec i 0); [lia|].
  destruct (Z.leb_spec (len t) i); [lia|]. simpl. by rewrite Hc.
Qed.

Lemma slice_bound_in (t : str) (i : Z) :
  0 ≤ i ≤ len t → slice_bound t i = Z.to_nat i.
Proof.
  intros Hi. unfold slice_bound.
  destruct (Z.ltb_spec i 0); [lia|]. f_equal. lia.
Qed.

(** ** [create] *)

Lemma create_Raise_BadBoard str_rep k e :
  create str_rep k = Raise e → e = BadBoard ∧ malformed str_rep k.
Proof.
  unfold create, malformed.
  destruct (Z.leb_spec k 0); [intros [= <-]; auto|].
  destruct (Z.eqb_spec (len str_rep) (k * k)); simpl;
    [|intros [= <-]; auto].
  destruct (contains str_rep blank) eqn:Hb; simpl; [|intros [= <-]].
  2:{ split; [done|]. right; right; left. rewrite <- contains_true.
      by rewrite Hb. }
  destruct (Z.eqb_spec (len_set str_rep) (len str_rep)); simpl;
    [|intros [= <-]].
  2:{ split; [done|]. do 3 right. by rewrite <- len_set_NoDup. }
  apply contains_true, find_index_elem_of in Hb as [i Hi].
  unfold index. rewrite Hi. simpl. done.
Qed.

Lemma create_Ok str_rep k b :
  create str_rep k = Ok b →
  ¬ malformed str_rep k ∧
  ∃ i, find_index blank str_rep = Some i ∧
       b = mkSlideBoard str_rep k (Z.of_nat i) None 0 None.
Proof.
  unfold create, malformed.
  destruct (Z.leb_spec k 0); [done|].
  destruct (Z.eqb_spec (len str_rep) (k * k)); simpl; [|done].
  destruct (contains str_rep blank) eqn:Hb; simpl; [|done].
  destruct (Z.eqb_spec (len_set str_rep) (len str_rep)); simpl; [|done].
  apply contains_true in Hb as Hin.
  apply find_index_elem_of in Hin as Hi. destruct Hi as [i Hi].
  unfold index. rewrite Hi. simpl. intros [= <-]. split.
  - rewrite <- len_set_NoDup. intros [?|[?|[?|?]]]; [lia|done..].
  - by exists i.
Qed.

Lemma create_valid str_rep k b : create str_rep k = Ok b → valid_board b.
Proof.
  intros H. apply create_Ok in H as [Hm (i & Hi & ->)].
  unfold malformed in Hm.
  apply find_index_Some in Hi as [Hi _].
  assert (0 < k) by (destruct (decide (k ≤ 0)); [tauto | lia]).
  assert (len str_rep = k * k)
    by (destruct (decide (len str_rep = k * k)); [done | tauto]).
  assert (NoDup str_rep) by (destruct (decide (NoDup str_rep)); tauto).
  split; simpl; [done | done | done | lia |].
  by rewrite Nat2Z.id.
Qed.

(** C3. [create] raises exactly when the size is not positive, the length
    is not [n*n], the blank is missing or a symbol occurs twice, and the
    error is then [BadBoard]; on every other input it returns a State whose
    tiles are the input string, with depth 0 and no parent. *)
Theorem create_spec (str_rep : str) (k : Z) :
  (create str_rep k = Raise BadBoard ↔ malformed str_rep k) ∧
  ((∃ b, create str_rep k = Ok b ∧ tiles b = str_rep ∧ n b = k ∧
         depth b = 0 ∧ parent b = None ∧ heuristic b = None ∧
         valid_board b)
   ↔ ¬ malformed str_rep k).
Proof.
  destruct (create str_rep k) as [b|e] eqn:Hc.
  - pose proof (create_valid _ _ _ Hc) as Hv.
    apply create_Ok in Hc as [Hm (i & Hi & ->)]. split.
    + split; [done | tauto].
    + split; [done|]. intros _. eexists. split; [done|]. by simpl.
  - apply create_Raise_BadBoard in Hc as [-> Hm]. split.
    + tauto.
    + split; [by intros (b & ? & _) | tauto].
Qed.

(** ** Exchanging two entries of a list *)

Lemma swap_comm (t : str) i j : swap t i j = swap t j i.
Proof.
  unfold swap.
  destruct (t !! i) as [a|] eqn:Ha, (t !! j) as [b|] eqn:Hb; try done.
  destruct (decide (i = j)) as [->|Hne]; [congruence|].
  by apply list_insert_insert_ne.
Qed.

Lemma length_swap (t : str) i j : length (swap t i j) = length t.
Proof.
  unfold swap. destruct (t !! i), (t !! j); try done.
  by rewrite !length_insert.
Qed.

Lemma lookup_swap_l (t : str) i j a b :
  t !! i = Some a → t !! j = Some b → swap t i j !! i = Some b.
Proof.
  intros Ha Hb. unfold swap. rewrite Ha, Hb.
  apply list_lookup_insert_eq. rewrite length_insert.
  by eapply lookup_lt_Some.
Qed.

Lemma lookup_swap_r (t : str) i j a b :
  t !! i = Some a → t !! j = Some b → swap t i j !! j = Some a.
Proof. intros Ha Hb. rewrite swap_comm. by eapply lookup_swap_l. Qed.

Lemma swap_swap (t : str) i j : swap (swap t i j) i j = t.
Proof.
  destruct (t !! i) as [a|] eqn:Ha, (t !! j) as [b|] eqn:Hb;
    try (unfold swap at 2; rewrite Ha, ?Hb; unfold swap; by rewrite Ha, ?Hb).
  unfold swap at 1.
  rewrite (lookup_swap_l _ _ _ _ _ Ha Hb), (lookup_swap_r _ _ _ _ _ Ha Hb).
  unfold swap. rewrite Ha, Hb.
  apply list_eq. intros k.
  pose proof (lookup_lt_Some _ _ _ Ha). pose proof (lookup_lt_Some _ _ _ Hb).
  destruct (decide (k = i)) as [->|Hki].
  { rewrite list_lookup_insert_eq; [done|]. by rewrite !length_insert. }
  rewrite list_lookup_insert_ne by done.
  destruct (decide (k = j)) as [->|Hkj].
  { rewrite list_lookup_insert_eq; [done|]. by rewrite !length_insert. }
  by rewrite !list_lookup_insert_ne by done.
Qed.

Lemma insert_cons_Permutation (t : str) i x y :
  t !! i = Some y → y :: <[i:=x]> t ≡ₚ x :: t.
Proof.
  revert i. induction t as [|c t IH]; intros [|i] Hy; simplify_eq/=.
  - apply perm_swap.
  - etrans; [apply perm_swap|]. rewrite (IH i Hy). apply perm_swap.
Qed.

Lemma swap_lt_Permutation (t : str) i j x y :
  (i < j)%nat → t !! i = Some x → t !! j = Some y →
  <[i:=y]> (<[j:=x]> t) ≡ₚ t.
Proof.
  revert i j. induction t as [|c t IH]; intros [|i] [|j] Hlt Hx Hy;
    simplify_eq/=; try lia.
  - by apply insert_cons_Permutation.
  - f_equiv. apply IH; [lia|done..].
Qed.

Lemma swap_Permutation (t : str) i j : swap t i j ≡ₚ t.
Proof.
  assert (∀ i j, (i < j)%nat → swap t i j ≡ₚ t) as Hlt.
  { clear. intros i j Hlt. unfold swap.
    destruct (t !! i) as [a|] eqn:Ha, (t !! j) as [b|] eqn:Hb; try done.
    by apply swap_lt_Permutation. }
  destruct (Nat.lt_trichotomy i j) as [?|[->|?]]; [by apply Hlt| |].
  - unfold swap. destruct (t !! j) as [a|] eqn:Ha; [|done].
    rewrite list_insert_insert_eq. by rewrite list_insert_id.
  - rewrite swap_comm. by apply Hlt.
Qed.

(** The concatenation [_space_move] builds is the exchange of the two
    positions. *)
Lemma take_drop_swap (t : str) i j x y :
  (i < j)%nat → t !! i = Some x → t !! j = Some y →
  take i t ++ [y] ++ take (j - (i + 1)) (drop (i + 1) t) ++ [x]
    ++ drop (j + 1) t = <[i:=y]> (<[j:=x]> t).
Proof.
  revert i j. induction t as [|c t IH]; intros [|i] [|j] Hlt Hx Hy;
    simplify_eq/=; try lia.
  - rewrite Nat.sub_0_r, Nat.add_1_r. f_equal.
    symmetry. apply insert_take_drop. by eapply lookup_lt_Some.
  - f_equal. apply IH; [lia|done..].
Qed.

(** ** Moves *)

Lemma valid_space_lt b : valid_board b → _space_ind b < len (tiles b).
Proof.
  intros [_ _ _ Hnn Hb]. apply lookup_lt_Some in Hb. unfold len. lia.
Qed.

Lemma slices_swap (t : str) (i j : Z) x y :
  0 ≤ i < j → t !! Z.to_nat i = Some x → t !! Z.to_nat j = Some y →
  slice_to t i ++ y :: slice t (i + 1) j ++ x :: slice_from t (j + 1)
  = <[Z.to_nat i:=y]> (<[Z.to_nat j:=x]> t).
Proof.
  intros Hij Hx Hy.
  apply lookup_lt_Some in Hy as Hlt.
  assert (j < len t) by (unfold len; lia).
  unfold slice_to, slice, slice_from.
  rewrite !slice_bound_in by lia.
  replace (Z.to_nat (i + 1)) with (Z.to_nat i + 1)%nat by lia.
  replace (Z.to_nat (j + 1)) with (Z.to_nat j + 1)%nat by lia.
  apply (take_drop_swap t (Z.to_nat i) (Z.to_nat j)); [lia|done..].
Qed.

Lemma space_move_moved b j :
  valid_board b → 0 ≤ j < len (tiles b) → j ≠ _space_ind b →
  _space_move b true j = Ok (Some (moved b j)).
Proof.
  intros Hv Hj Hne. pose proof (valid_space_lt b Hv) as Hi.
  destruct Hv as [_ _ _ Hnn Hb].
  destruct (lookup_lt_is_Some_2 (tiles b) (Z.to_nat j)) as [y Hy].
  { unfold len in Hj. lia. }
  unfold _space_move, moved, SlideBoard_init. simpl negb. cbv iota zeta.
  destruct (Z.lt_total (_space_ind b) j) as [Hlt|[Heq|Hgt]]; [|done|].
  - rewrite Z.min_l, Z.max_r by lia.
    rewrite (getitem_Ok _ j y), (getitem_Ok _ (_space_ind b) blank)
      by (done || lia).
    simpl. do 3 f_equal.
    rewrite (slices_swap _ _ _ blank y) by (done || lia).
    unfold swap. by rewrite Hb, Hy.
  - rewrite Z.min_r, Z.max_l by lia.
    rewrite (getitem_Ok _ j y), (getitem_Ok _ (_space_ind b) blank)
      by (done || lia).
    simpl. do 3 f_equal.
    rewrite (slices_swap _ _ _ y blank) by (done || lia).
    rewrite swap_comm. unfold swap. by rewrite Hb, Hy.
Qed.

Lemma moved_valid b j :
  valid_board b → 0 ≤ j < len (tiles b) → valid_board (moved b j).
Proof.
  intros Hv Hj. pose proof (valid_space_lt b Hv) as Hi.
  destruct Hv as [Hn Hl Hnd Hnn Hb].
  destruct (lookup_lt_is_Some_2 (tiles b) (Z.to_nat j)) as [y Hy].
  { unfold len in Hj. lia. }
  split; simpl.
  - done.
  - unfold len in *. by rewrite length_swap.
  - by rewrite swap_Permutation.
  - lia.
  - by eapply lookup_swap_r.
Qed.

Lemma moved_tiles_Permutation b j : tiles (moved b j) ≡ₚ tiles b.
Proof. apply swap_Permutation. Qed.

Section BoardArithmetic.
Variables i N : Z.
Hypothesis HN : 0 < N.
Hypothesis Hi : 0 ≤ i < N * N.

Lemma row_first : i / N = 0 ↔ i < N.
Proof. rewrite Z.div_small_iff by lia. lia. Qed.

Lemma row_last : i / N = N - 1 ↔ N ^ 2 - N ≤ i.
Proof.
  replace (N ^ 2) with (N * N) by lia.
  split; intros H.
  - pose proof (Z.mod_pos_bound i N HN). pose proof (Z.div_mod i N). nia.
  - apply Z.le_antisymm.
    + enough (i / N < N) by lia. apply Z.div_lt_upper_bound; lia.
    + apply Z.div_le_lower_bound; lia.
Qed.

Lemma col_last_bound : i mod N ≠ N - 1 → i + 1 < N * N.
Proof.
  intros H. destruct (decide (i = N * N - 1)) as [->|]; [|lia].
  exfalso. apply H.
  replace (N * N - 1) with (N - 1 + (N - 1) * N) by lia.
  rewrite Z.mod_add by lia. apply Z.mod_small. lia.
Qed.

Lemma col_first_bound : i mod N ≠ 0 → 0 ≤ i - 1.
Proof.
  intros H. destruct (decide (i = 0)) as [->|]; [|lia].
  by rewrite Z.mod_0_l in H by lia.
Qed.

Lemma col_pred : i mod N ≠ 0 → (i + -1) mod N ≠ N - 1.
Proof.
  intros H Hc. apply H.
  replace i with (i + -1 + 1) at 1 by lia.
  rewrite <- Zplus_mod_idemp_l, Hc.
  replace (N - 1 + 1) with N by lia. apply Z_mod_same_full.
Qed.

Lemma col_succ : i mod N ≠ N - 1 → (i + 1) mod N ≠ 0.
Proof.
  intros H Hc. apply H.
  replace i with (i + 1 + (N - 1) + -1 * N) at 1 by lia.
  rewrite Z.mod_add, <- Zplus_mod_idemp_l, Hc by lia.
  apply Z.mod_small. lia.
Qed.
End BoardArithmetic.

Lemma move_spec b d :
  valid_board b →
  move d b = if decide (on_edge d b) then Ok None
             else Ok (Some (moved b (_space_ind b + index_shift d b))).
Proof.
  intros Hv. pose proof (valid_space_lt b Hv) as Hlt.
  pose proof Hv as [Hn Hl _ Hnn _]. rewrite Hl in Hlt.
  assert (Hi : 0 ≤ _space_ind b < n b * n b) by lia.
  destruct d; simpl; unfold blank_row, blank_col.
  - unfold space_up. case_decide as He.
    + apply row_first in He; [|done..].
      destruct (Z.leb_spec (n b) (_space_ind b)); [lia|done].
    + rewrite row_first in He by done.
      destruct (Z.leb_spec (n b) (_space_ind b)); [|lia].
      rewrite Z.add_opp_r. apply space_move_moved; [done|lia..].
  - unfold space_down. case_decide as He.
    + apply row_last in He; [|done..].
      destruct (Z.ltb_spec (_space_ind b) (n b ^ 2 - n b)); [lia|done].
    + rewrite row_last in He by done.
      destruct (Z.ltb_spec (_space_ind b) (n b ^ 2 - n b)); [|lia].
      apply space_move_moved; [done| |lia].
      replace (n b ^ 2) with (n b * n b) in * by lia. lia.
  - unfold space_left, pymod.
    destruct (Z.eqb_spec (n b) 0); [lia|]. simpl.
    case_decide as He.
    + by rewrite He.
    + destruct (Z.eqb_spec (_space_ind b `mod` n b) 0); [done|]. simpl.
      pose proof (col_first_bound _ _ Hn Hi He).
      replace (_space_ind b + -1) with (_space_ind b - 1) by lia.
      apply space_move_moved; [done|lia..].
  - unfold space_right, pymod.
    destruct (Z.eqb_spec (n b) 0); [lia|]. simpl.
    case_decide as He.
    + by rewrite He, Z.eqb_refl.
    + destruct (Z.eqb_spec (_space_ind b `mod` n b) (n b - 1)); [done|].
      simpl. pose proof (col_last_bound _ _ Hn Hi He).
      apply space_move_moved; [done|lia..].
Qed.

Lemma move_target_range b d :
  valid_board b → ¬ on_edge d b →
  0 ≤ _space_ind b + index_shift d b < len (tiles b).
Proof.
  intros Hv He. pose proof (valid_space_lt b Hv) as Hlt.
  pose proof Hv as [Hn Hl _ Hnn _]. rewrite Hl in *.
  assert (Hi : 0 ≤ _space_ind b < n b * n b) by lia.
  destruct d; simpl in *; unfold blank_row, blank_col in *.
  - rewrite row_first in He by done. lia.
  - rewrite row_last in He by done.
    replace (n b ^ 2) with (n b * n b) in * by lia. lia.
  - pose proof (col_first_bound _ _ Hn Hi He). lia.
  - pose proof (col_last_bound _ _ Hn Hi He). lia.
Qed.

Lemma move_valid b d b' :
  valid_board b → move d b = Ok (Some b') → valid_board b'.
Proof.
  intros Hv. rewrite move_spec by done. case_decide as He; [done|].
  intros [= <-]. apply moved_valid; [done|]. by apply move_target_range.
Qed.

(** C2. On a valid State a move returns a State exactly when the blank is
    not on the edge the move would cross, and [None] otherwise; the State
    returned has the receiver's tiles with the blank and the target symbol
    exchanged (a permutation of them), the blank index shifted by one
    (horizontal) or by [n] (vertical), the depth one larger, and the
    receiver as parent. *)
Theorem move_legality (b : SlideBoard) (d : direction) :
  valid_board b →
  ((∃ b', move d b = Ok (Some b')) ↔ ¬ on_edge d b) ∧
  (on_edge d b → move d b = Ok None) ∧
  (∀ b', move d b = Ok (Some b') →
     _space_ind b' = _space_ind b + index_shift d b ∧
     tiles b' = swap (tiles b) (Z.to_nat (_space_ind b))
                  (Z.to_nat (_space_ind b')) ∧
     tiles b !! Z.to_nat (_space_ind b') = tiles b' !! Z.to_nat (_space_ind b) ∧
     tiles b' !! Z.to_nat (_space_ind b') = Some blank ∧
     tiles b' ≡ₚ tiles b ∧
     n b' = n b ∧
     depth b' = depth b + 1 ∧
     parent b' = Some b).
Proof.
  intros Hv. rewrite move_spec by done.
  case_decide as He; (split; [|split]).
  - split; [by intros [? ?] | done].
  - done.
  - done.
  - split; [done | eauto].
  - done.
  - intros b' [= <-]. simpl.
    pose proof (move_target_range b d Hv He) as Hr.
    pose proof (moved_valid b _ Hv Hr) as [_ _ _ _ Hb'].
    destruct Hv as [_ _ _ _ Hb].
    destruct (lookup_lt_is_Some_2 (tiles b)
                (Z.to_nat (_space_ind b + index_shift d b))) as [y Hy].
    { unfold len in Hr. lia. }
    repeat split; try done.
    + rewrite Hy. symmetry. by eapply lookup_swap_l.
    + apply swap_Permutation.
Qed.

Lemma start_21_3_created : create (chars "21 3") 2 = Ok start_21_3.
Proof. reflexivity. Qed.

Lemma goal_213_created : create (chars "213 ") 2 = Ok goal_213_.
Proof. reflexivity. Qed.

Lemma start_21_3_valid : valid_board start_21_3.
Proof. exact (create_valid _ _ _ start_21_3_created). Qed.

Lemma goal_213_valid : valid_board goal_213_.
Proof. exact (create_valid _ _ _ goal_213_created). Qed.

Lemma move_legality_witness :
  valid_board start_21_3 ∧
  ((∃ b', move Up start_21_3 = Ok (Some b')) ↔ ¬ on_edge Up start_21_3) ∧
  (on_edge Up start_21_3 → move Up start_21_3 = Ok None) ∧
  (∀ b', move Up start_21_3 = Ok (Some b') →
     _space_ind b' = _space_ind start_21_3 + index_shift Up start_21_3 ∧
     tiles b' = swap (tiles start_21_3) (Z.to_nat (_space_ind start_21_3))
                  (Z.to_nat (_space_ind b')) ∧
     tiles start_21_3 !! Z.to_nat (_space_ind b')
       = tiles b' !! Z.to_nat (_space_ind start_21_3) ∧
     tiles b' !! Z.to_nat (_space_ind b') = Some blank ∧
     tiles b' ≡ₚ tiles start_21_3 ∧
     n b' = n start_21_3 ∧
     depth b' = depth start_21_3 + 1 ∧
     parent b' = Some start_21_3).
Proof.
  split; [exact start_21_3_valid|].
  exact (move_legality start_21_3 Up start_21_3_valid).
Defined.

Lemma opposite_not_on_edge b d :
  valid_board b → ¬ on_edge d b →
  ¬ on_edge (opposite d) (moved b (_space_ind b + index_shift d b)).
Proof.
  intros Hv He. pose proof (valid_space_lt b Hv) as Hlt.
  pose proof Hv as [Hn Hl _ Hnn _]. rewrite Hl in *.
  assert (Hi : 0 ≤ _space_ind b < n b * n b) by lia.
  pose proof (move_target_range b d Hv He) as Hr. rewrite Hl in Hr.
  destruct d; simpl in *; unfold blank_row, blank_col in *; simpl.
  - rewrite row_last by (done || lia).
    replace (n b ^ 2) with (n b * n b) by lia. lia.
  - rewrite row_first by (done || lia). lia.
  - by apply col_pred.
  - by apply col_succ.
Qed.

Lemma opposite_shift b d j :
  index_shift (opposite d) (moved b j) = - index_shift d b.
Proof. by destruct d; simpl; rewrite ?Z.opp_involutive. Qed.

(** C10. On a valid State, after a move that succeeds the opposite move
    succeeds too, and it restores the tiles (and the blank index) two levels
    deeper. *)
Theorem move_round_trip (b b1 : SlideBoard) (d : direction) :
  valid_board b →
  move d b = Ok (Some b1) →
  ∃ b2, move (opposite d) b1 = Ok (Some b2) ∧
        tiles b2 = tiles b ∧
        _space_ind b2 = _space_ind b ∧
        depth b2 = depth b + 2 ∧
        parent b2 = Some b1.
Proof.
  intros Hv. rewrite move_spec by done. case_decide as He; [done|].
  intros [= <-].
  pose proof (move_target_range b d Hv He) as Hr.
  pose proof (moved_valid b _ Hv Hr) as Hv1.
  pose proof (opposite_not_on_edge b d Hv He) as He1.
  rewrite move_spec by done. rewrite decide_False by done.
  eexists. split; [done|]. rewrite opposite_shift. simpl.
  replace (_space_ind b + index_shift d b + - index_shift d b)
    with (_space_ind b) by lia.
  repeat split; [|lia].
  rewrite (swap_comm (swap _ _ _)). apply swap_swap.
Qed.

Lemma move_round_trip_witness :
  ∃ b2, move (opposite Up) (moved start_21_3 0) = Ok (Some b2) ∧
        tiles b2 = tiles start_21_3 ∧
        _space_ind b2 = _space_ind start_21_3 ∧
        depth b2 = depth start_21_3 + 2 ∧
        parent b2 = Some (moved start_21_3 0).
Proof.
  apply (move_round_trip start_21_3 (moved start_21_3 0) Up).
  - exact start_21_3_valid.
  - reflexivity.
Defined.

(** ** The heuristic *)

Lemma tile_distance_nonneg self goal c : 0 ≤ tile_distance self goal c.
Proof. unfold tile_distance. lia. Qed.

Lemma manhattan_sum_nonneg self goal : 0 ≤ manhattan_sum self goal.
Proof.
  unfold manhattan_sum, sum_Z.
  induction (non_blank (tiles self)) as [|c l IH]; [done|].
  rewrite fmap_cons. cbn [foldr].
  pose proof (tile_distance_nonneg self goal c). lia.
Qed.

Lemma sum_Z_cons x l : sum_Z (x :: l) = x + sum_Z l.
Proof. reflexivity. Qed.

Lemma non_blank_cons c (t : str) :
  non_blank (c :: t) = if decide (c = blank) then non_blank t
                       else c :: non_blank t.
Proof.
  unfold non_blank. case_decide.
  - by rewrite filter_cons_False by naive_solver.
  - by rewrite filter_cons_True.
Qed.

Lemma manhattan_loop_sum self goal (pre rest : str) acc :
  tiles self = pre ++ rest →
  NoDup (tiles self) →
  n self ≠ 0 →
  n goal = n self →
  (∀ c, c ∈ rest → c ≠ blank → c ∈ tiles goal) →
  manhattan_loop (n self) (tiles goal) (len pre) rest acc
  = Ok (acc + sum_Z (tile_distance self goal <$> non_blank rest)).
Proof.
  intros Ht Hnd Hn Hng. revert pre acc Ht.
  induction rest as [|c rest IH]; intros pre acc Ht Hin; simpl.
  { f_equal. lia. }
  assert (Hnext : len (pre ++ [c]) = len pre + 1).
  { unfold len. rewrite length_app. simpl. lia. }
  assert (Hrest : ∀ c', c' ∈ rest → c' ≠ blank → c' ∈ tiles goal).
  { intros c' ?. apply Hin. by right. }
  rewrite non_blank_cons. case_decide as Hc.
  - rewrite <- Hnext. apply IH; [|done]. by rewrite <- app_assoc.
  - destruct (find_index_elem_of c (tiles goal)) as [j Hj].
    { apply Hin; [by left | done]. }
    unfold divmod, index. rewrite Hj.
    destruct (Z.eqb_spec (n self) 0); [done|]. cbn [mbind result_bind].
    rewrite <- Hnext, (IH (pre ++ [c])); [|by rewrite <- app_assoc | done].
    assert (find_index c (tiles self) = Some (length pre)) as Hi.
    { apply find_index_NoDup; [done|]. rewrite Ht.
      by rewrite list_lookup_middle. }
    assert (tile_distance self goal c
            = Z.abs (Z.of_nat j `div` n self - len pre `div` n self)
              + Z.abs (Z.of_nat j `mod` n self - len pre `mod` n self))
      as Hd.
    { unfold tile_distance, locate. by rewrite Hi, Hj, Hng. }
    rewrite fmap_cons, sum_Z_cons, Hd. f_equal. symmetry. apply Z.add_assoc.
Qed.

Lemma manhattan_distance_sum self goal :
  NoDup (tiles self) → n self ≠ 0 → n goal = n self →
  (∀ c, c ∈ tiles self → c ≠ blank → c ∈ tiles goal) →
  _manhattan_distance self goal = Ok (manhattan_sum self goal).
Proof.
  intros Hnd Hn Hng Hin. unfold _manhattan_distance, manhattan_sum.
  change 0 with (len []) at 1.
  by rewrite manhattan_loop_sum.
Qed.

(** C6. For States over the same symbols and of the same size,
    [generate_heuristic] succeeds, and the State it leaves has in its
    [heuristic] field the sum, over the non-blank symbols, of the row
    distance plus the column distance between the symbol's place in the
    receiver and its place in the goal; the sum is not negative, and the
    other fields of the State are as they were. *)
Theorem generate_heuristic_manhattan (self goal : SlideBoard) :
  valid_board self →
  valid_board goal →
  (∀ c, c ∈ tiles self ↔ c ∈ tiles goal) →
  n self = n goal →
  ∃ stored,
    generate_heuristic self goal = Ok stored ∧
    heuristic stored = Some (manhattan_sum self goal) ∧
    0 ≤ manhattan_sum self goal ∧
    tiles stored = tiles self ∧ n stored = n self ∧
    _space_ind stored = _space_ind self ∧ depth stored = depth self ∧
    parent stored = parent self.
Proof.
  intros [Hn _ Hnd _ _] _ Hsym Hng.
  exists (set_heuristic self (Some (manhattan_sum self goal))).
  split.
  - unfold generate_heuristic.
    rewrite manhattan_distance_sum; [done|done|lia|done|].
    intros c Hc _. by apply Hsym.
  - split; [done|]. split; [apply manhattan_sum_nonneg|]. by simpl.
Qed.

Lemma generate_heuristic_manhattan_witness :
  valid_board start_21_3 ∧ valid_board goal_213_ ∧
  ∃ stored,
    generate_heuristic start_21_3 goal_213_ = Ok stored ∧
    heuristic stored = Some (manhattan_sum start_21_3 goal_213_) ∧
    0 ≤ manhattan_sum start_21_3 goal_213_ ∧
    tiles stored = tiles start_21_3 ∧ n stored = n start_21_3 ∧
    _space_ind stored = _space_ind start_21_3 ∧
    depth stored = depth start_21_3 ∧
    parent stored = parent start_21_3.
Proof.
  split; [exact start_21_3_valid|]. split; [exact goal_213_valid|].
  apply (generate_heuristic_manhattan start_21_3 goal_213_).
  - exact start_21_3_valid.
  - exact goal_213_valid.
  - intros c. unfold start_21_3, goal_213_, chars. simpl.
    rewrite !elem_of_cons. tauto.
  - reflexivity.
Defined.

(** ** Equality and hash *)

(** C7. Two States compare equal exactly when their tiles are equal,
    whatever their depth, parent and heuristic; and States with equal tiles
    have the same hash. *)
Theorem eq_hash_by_tiles (hash : str → Z) (a b : SlideBoard) :
  (SlideBoard_eq a (Some b) = true ↔ tiles a = tiles b) ∧
  (tiles a = tiles b → SlideBoard_hash hash a = SlideBoard_hash hash b) ∧
  (∀ k i h d p, SlideBoard_eq a (Some (mkSlideBoard (tiles b) k i h d p))
                = SlideBoard_eq a (Some b)).
Proof.
  unfold SlideBoard_eq, SlideBoard_hash. simpl.
  rewrite bool_decide_eq_true. repeat split; try done.
  by intros ->.
Qed.

(** ** Fringe statistics *)

Lemma Fringe_add_inv fr state goal fr' :
  Fringe_add fr state goal = Ok fr' →
  ∃ state' c,
    (if _uses_heuristic fr then generate_heuristic state goal
     else Ok state) = Ok state' ∧
    _add (store fr) state' = Ok c ∧
    fr' = mkFringe (_uses_heuristic fr) (_num_created fr + 1)
            (Z.max (_max_fringe fr) (container_len c)) c.
Proof.
  unfold Fringe_add.
  destruct (if _uses_heuristic fr then _ else _) as [state'|] eqn:Hs;
    [|done].
  cbn [mbind result_bind].
  destruct (_add (store fr) state') as [c|] eqn:Hc; [|done].
  cbn [mbind result_bind].
  intros H. exists state', c. split; [done|]. split; [done|].
  destruct (Z.ltb_spec (_max_fringe fr) (container_len c));
    injection H as <-; f_equal; lia.
Qed.

Lemma list_pop_inv l x l' :
  list_pop l = Ok (x, l') → l = l' ++ [x].
Proof.
  unfold list_pop. destruct l as [|e l0 _] using rev_ind; [done|].
  rewrite last_snoc. intros [= <- <-].
  rewrite length_app. simpl.
  replace (length l0 + 1 - 1)%nat with (length l0) by lia.
  by rewrite take_app_length.
Qed.

Lemma list_pop_snoc l x : list_pop (l ++ [x]) = Ok (x, l).
Proof.
  unfold list_pop. rewrite last_snoc, length_app. simpl.
  replace (length l + 1 - 1)%nat with (length l) by lia.
  by rewrite take_app_length.
Qed.

Lemma remove_inv c x c' :
  _remove c = Ok (x, c') →
  (length (entries c) = S (length (entries c')))%nat ∧ x ∈ entries c ∧
  entries c' ⊆ entries c.
Proof.
  destruct c as [d|st|l f]; simpl.
  - destruct d as [|y d]; [done|]. intros [= <- <-]. simpl.
    split; [done|]. split; [by left|]. intros z ?. by right.
  - destruct (list_pop st) as [[y st']|] eqn:Hp; [|done].
    intros [= <- <-]. apply list_pop_inv in Hp as ->. simpl.
    rewrite length_app. simpl. split; [lia|].
    split; [set_solver|]. intros z ?. set_solver.
  - destruct (list_pop l) as [[y l']|] eqn:Hp; [|done].
    intros [= <- <-]. apply list_pop_inv in Hp as ->. simpl.
    rewrite length_app. simpl. split; [lia|].
    split; [set_solver|]. intros z ?. set_solver.
Qed.

Lemma remove_nonempty c :
  entries c ≠ [] → ∃ x c', _remove c = Ok (x, c').
Proof.
  destruct c as [d|st|l f]; simpl.
  - destruct d as [|y d]; [done|]. eauto.
  - destruct st as [|e l0 _] using rev_ind; [done|].
    rewrite list_pop_snoc. eauto.
  - destruct l as [|e l0 _] using rev_ind; [done|].
    rewrite list_pop_snoc. eauto.
Qed.

Lemma Fringe_len_0 fr : Fringe_len fr = 0 ↔ entries (store fr) = [].
Proof.
  unfold Fringe_len, container_len.
  destruct (entries (store fr)); simpl; [done|]. split; [lia|done].
Qed.

Lemma Fringe_remove_inv fr o fr' :
  Fringe_remove fr = Ok (o, fr') →
  (o = None ∧ fr' = fr ∧ Fringe_len fr = 0) ∨
  (∃ x c, o = Some x ∧ _remove (store fr) = Ok (x, c) ∧
          fr' = mkFringe (_uses_heuristic fr) (_num_created fr)
                  (_max_fringe fr) c).
Proof.
  unfold Fringe_remove. destruct (Z.eqb_spec (Fringe_len fr) 0) as [H0|H0].
  - intros [= <- <-]. by left.
  - cbn [negb]. destruct (_remove (store fr)) as [[x c]|] eqn:Hr; [|done].
    intros [= <- <-]. right. eauto.
Qed.

Lemma Fringe_remove_Ok fr : ∃ o fr', Fringe_remove fr = Ok (o, fr').
Proof.
  unfold Fringe_remove. destruct (Z.eqb_spec (Fringe_len fr) 0) as [H0|H0].
  - eauto.
  - rewrite Fringe_len_0 in H0.
    destruct (remove_nonempty _ H0) as (x & c & ->). simpl. eauto.
Qed.

Lemma largest_sizes_ge fr ops : Fringe_len fr ≤ largest (sizes fr ops).
Proof. destruct ops; simpl; lia. Qed.

Lemma apply_op_stats fr o fr' :
  apply_op fr o = Ok fr' →
  _num_created fr' = _num_created fr + (if is_add o then 1 else 0) ∧
  _max_fringe fr' = (if is_add o then Z.max (_max_fringe fr) (Fringe_len fr')
                     else _max_fringe fr) ∧
  (is_add o = false → Fringe_len fr' ≤ Fringe_len fr).
Proof.
  destruct o as [state goal|]; simpl.
  - intros (state' & c & _ & _ & ->)%Fringe_add_inv. by simpl.
  - destruct (Fringe_remove fr) as [[o fr1]|] eqn:Hr; [|done].
    intros [= <-].
    apply Fringe_remove_inv in Hr as [(-> & -> & _)|(x & c & -> & Hr & ->)].
    + split; [lia|]. split; [done|]. lia.
    + simpl. split; [lia|]. split; [done|]. intros _.
      apply remove_inv in Hr as [Hl _].
      unfold Fringe_len, container_len. simpl. lia.
Qed.

(** From any fringe whose high-water mark covers its size, a trace adds its
    number of [add]s to the counter and raises the mark to the largest size
    gone through. *)
Lemma run_ops_stats fr0 ops fr :
  Fringe_len fr0 ≤ _max_fringe fr0 →
  run_ops fr0 ops = Ok fr →
  _num_created fr = _num_created fr0 + count_adds ops ∧
  _max_fringe fr = Z.max (_max_fringe fr0) (largest (sizes fr0 ops)).
Proof.
  revert fr0. induction ops as [|o ops IH]; intros fr0 Hm; simpl.
  - intros [= <-]. unfold count_adds. simpl.
    unfold Fringe_len, container_len in *. lia.
  - destruct (apply_op fr0 o) as [fr1|] eqn:Ho; [|done].
    cbn [mbind result_bind]. intros Hrun.
    apply apply_op_stats in Ho as (Hc & Hx & Hle).
    pose proof (largest_sizes_ge fr1 ops) as Hge.
    destruct (IH fr1) as [IHc IHm]; [|done|].
    { rewrite Hx. destruct (is_add o); [lia|]. specialize (Hle eq_refl). lia. }
    rewrite IHc, IHm, Hc, Hx. unfold count_adds. simpl.
    destruct (is_add o); simpl.
    + split; lia.
    + specialize (Hle eq_refl). split; lia.
Qed.

Lemma run_ops_app fr ops1 ops2 :
  run_ops fr (ops1 ++ ops2) = (fr' ← run_ops fr ops1; run_ops fr' ops2).
Proof.
  revert fr. induction ops1 as [|o ops1 IH]; intros fr; simpl; [done|].
  destruct (apply_op fr o); simpl; [apply IH | done].
Qed.

(** ** The loop body, case by case *)

Lemma bind_Ok {A B} (m : result A) (k : A → result B) b :
  m ≫= k = Ok b → ∃ a, m = Ok a ∧ k a = Ok b.
Proof. destruct m as [a|e]; [eauto | done]. Qed.

Ltac bind_inv H :=
  let a := fresh "a" in
  let Ha := fresh "Ha" in
  apply bind_Ok in H as (a & Ha & H).

Lemma SlideBoard_eq_true a b :
  SlideBoard_eq a (Some b) = true ↔ tiles a = tiles b.
Proof. unfold SlideBoard_eq. simpl. apply bool_decide_eq_true. Qed.

Lemma SlideBoard_eq_false a b :
  SlideBoard_eq a (Some b) = false ↔ tiles a ≠ tiles b.
Proof. unfold SlideBoard_eq. simpl. apply bool_decide_eq_false. Qed.

Lemma loop_body_inv goal_state expanded fringe st :
  loop_body goal_state expanded fringe = Ok st →
  body_case goal_state expanded fringe st.
Proof.
  unfold loop_body. intros H. bind_inv H. destruct a as [[node|] fringe1];
    [|done].
  case_bool_decide as Hin.
  { injection H as <-. by eapply body_skip. }
  destruct (SlideBoard_eq node (Some goal_state)) eqn:Heq.
  { injection H as <-. apply SlideBoard_eq_true in Heq.
    by eapply body_found. }
  apply SlideBoard_eq_false in Heq.
  do 8 bind_inv H. injection H as <-.
  by eapply body_expand.
Qed.

Lemma try_add_ops fringe expanded goal_state node fringe' :
  _try_add fringe expanded goal_state node = Ok fringe' →
  ∃ ops, run_ops fringe ops = Ok fringe'.
Proof.
  destruct node as [nd|]; simpl.
  - case_bool_decide.
    + intros [= <-]. by exists [].
    + intros Hadd. exists [CallAdd nd goal_state]. simpl. by rewrite Hadd.
  - intros [= <-]. by exists [].
Qed.

Lemma run_ops_trans fr1 ops1 fr2 ops2 fr3 :
  run_ops fr1 ops1 = Ok fr2 → run_ops fr2 ops2 = Ok fr3 →
  run_ops fr1 (ops1 ++ ops2) = Ok fr3.
Proof. intros H1 H2. by rewrite run_ops_app, H1. Qed.

Lemma Fringe_remove_ops fringe o fringe1 :
  Fringe_remove fringe = Ok (o, fringe1) →
  run_ops fringe [CallRemove] = Ok fringe1.
Proof. intros H. simpl. by rewrite H. Qed.

Lemma loop_body_ops goal_state expanded fringe expanded' fringe' :
  loop_body goal_state expanded fringe = Ok (Continue expanded' fringe') →
  ∃ ops, run_ops fringe ops = Ok fringe'.
Proof.
  intros H%loop_body_inv. inversion H as [node fr1 Hr Hin| |
    node fr1 up fr2 down fr3 left fr4 right fr5 E' Hr Hin Hne
      Hu H2 Hd H3 Hl H4 Hrt H5]; subst.
  - exists [CallRemove]. by eapply Fringe_remove_ops.
  - apply Fringe_remove_ops in Hr.
    apply try_add_ops in H2 as [o2 H2], H3 as [o3 H3], H4 as [o4 H4],
      H5 as [o5 H5].
    exists ([CallRemove] ++ o2 ++ o3 ++ o4 ++ o5).
    repeat (eapply run_ops_trans; [eassumption|]). done.
Qed.

Lemma loop_state_ops k goal_state expanded fringe expanded' fringe' :
  loop_state k goal_state expanded fringe = Some (expanded', fringe') →
  ∃ ops, run_ops fringe ops = Ok fringe'.
Proof.
  revert expanded fringe. induction k as [|k IH]; intros E fr; simpl.
  - intros [= <- <-]. by exists [].
  - destruct (Fringe_len fr =? 0); [done|].
    destruct (loop_body goal_state E fr) as [[E1 fr1|]|] eqn:Hb; try done.
    intros [ops2 H2]%IH. apply loop_body_ops in Hb as [ops1 H1].
    exists (ops1 ++ ops2). by eapply run_ops_trans.
Qed.

Lemma brand_new_stats fringe0 trace fr :
  brand_new fringe0 → run_ops fringe0 trace = Ok fr →
  _num_created fr = count_adds trace - 1 ∧
  _max_fringe fr = largest (sizes fringe0 trace).
Proof.
  intros (Hc & Hm & He) Hrun.
  assert (Fringe_len fringe0 = 0) as Hl by by apply Fringe_len_0.
  assert (Fringe_len fringe0 ≤ _max_fringe fringe0) as Hle by lia.
  destruct (run_ops_stats _ _ _ Hle Hrun) as [-> ->].
  pose proof (largest_sizes_ge fringe0 trace).
  split; lia.
Qed.

Lemma add_length c st c' :
  _add c st = Ok c' → length (entries c') = S (length (entries c)).
Proof.
  destruct c as [d|s|l f]; simpl.
  - intros [= <-]. simpl. rewrite length_app. simpl. lia.
  - intros [= <-]. simpl. rewrite length_app. simpl. lia.
  - intros H. bind_inv H. injection H as <-. simpl.
    unfold insort_left in Ha. do 2 bind_inv Ha. injection Ha as <-.
    unfold list_insert_at. rewrite length_app. simpl.
    rewrite <- (take_drop a1 l) at 3. rewrite length_app. lia.
Qed.

Lemma new_fringe_brand_new fringe0 : new_fringe fringe0 → brand_new fringe0.
Proof. by intros [| |f]. Qed.

(** C8. For every fringe a constructor builds ([Queue()], [Stack()],
    [PriorityQueue(f)]): the counter of created states starts at -1 and
    the high-water mark at 0; at the head of the driver's loop, after any
    number of passes, the fringe is the result of the [add] and [remove]
    calls made so far, the first of them the start's insertion; and after
    each of those calls (after the first [i] of them, for every [i]) the
    counter of created states is the number of [add] calls made minus one,
    so that the start's insertion leaves it at 0, and the high-water mark
    is the largest size the fringe has gone through. *)
Theorem fringe_statistics (fringe0 fringe1 fringe : Fringe)
    (start_state goal_state : SlideBoard) (k : nat) (expanded : gset str) :
  new_fringe fringe0 →
  Fringe_add fringe0 start_state goal_state = Ok fringe1 →
  loop_state k goal_state ∅ fringe1 = Some (expanded, fringe) →
  _num_created fringe0 = -1 ∧ _max_fringe fringe0 = 0 ∧
  Fringe_len fringe0 = 0 ∧
  _num_created fringe1 = 0 ∧ _max_fringe fringe1 = 1 ∧
  ∃ ops,
    let trace := CallAdd start_state goal_state :: ops in
    run_ops fringe0 trace = Ok fringe ∧
    _num_created fringe = count_adds trace - 1 ∧
    _max_fringe fringe = largest (sizes fringe0 trace) ∧
    ∀ i, ∃ fr,
      run_ops fringe0 (take i trace) = Ok fr ∧
      _num_created fr = count_adds (take i trace) - 1 ∧
      _max_fringe fr = largest (sizes fringe0 (take i trace)).
Proof.
  intros Hnew%new_fringe_brand_new Hadd [ops Hops]%loop_state_ops.
  pose proof Hnew as (Hc0 & Hm0 & He0).
  assert (Fringe_len fringe0 = 0) as Hl0 by by apply Fringe_len_0.
  split; [done|]. split; [done|]. split; [done|].
  assert (run_ops fringe0 [CallAdd start_state goal_state] = Ok fringe1)
    as Hrun1 by (simpl; by rewrite Hadd).
  destruct (brand_new_stats _ _ _ Hnew Hrun1) as [Hc1 Hm1].
  split; [by rewrite Hc1|]. split.
  { pose proof Hadd as (st' & c & _ & Hc & ->)%Fringe_add_inv.
    apply add_length in Hc. rewrite He0 in Hc. simpl in *.
    unfold container_len. rewrite Hc. lia. }
  exists ops. cbv zeta.
  assert (run_ops fringe0 (CallAdd start_state goal_state :: ops) = Ok fringe)
    as Hrun by (simpl; by rewrite Hadd).
  split; [done|].
  destruct (brand_new_stats _ _ _ Hnew Hrun) as [Hc Hm].
  split; [done|]. split; [done|].
  intros i.
  rewrite <- (take_drop i (CallAdd start_state goal_state :: ops)) in Hrun.
  rewrite run_ops_app in Hrun. apply bind_Ok in Hrun as (fr & Hfr & _).
  exists fr. split; [done|]. by apply brand_new_stats.
Qed.

Lemma fringe_statistics_witness :
  let fringe2 :=
    mkFringe false 3 2
      (Queue [moved start_21_3 3; moved (moved start_21_3 0) 1]) in
  _num_created Queue_new = -1 ∧ _max_fringe Queue_new = 0 ∧
  Fringe_len Queue_new = 0 ∧
  _num_created (mkFringe false 0 1 (Queue [start_21_3])) = 0 ∧
  _max_fringe (mkFringe false 0 1 (Queue [start_21_3])) = 1 ∧
  ∃ ops,
    let trace := CallAdd start_21_3 goal_213_ :: ops in
    run_ops Queue_new trace = Ok fringe2 ∧
    _num_created fringe2 = count_adds trace - 1 ∧
    _max_fringe fringe2 = largest (sizes Queue_new trace) ∧
    ∀ i, ∃ fr,
      run_ops Queue_new (take i trace) = Ok fr ∧
      _num_created fr = count_adds (take i trace) - 1 ∧
      _max_fringe fr = largest (sizes Queue_new (take i trace)).
Proof.
  apply (fringe_statistics Queue_new
           (mkFringe false 0 1 (Queue [start_21_3]))
           (mkFringe false 3 2
              (Queue [moved start_21_3 3; moved (moved start_21_3 0) 1]))
           start_21_3 goal_213_ 2
           ({[chars " 123"]} ∪ ({[chars "21 3"]} ∪ ∅))).
  - exact new_Queue.
  - reflexivity.
  - vm_compute. reflexivity.
Defined.

(** ** Binary search *)

Lemma bisect_loop_S {A} (key : A → result Z) a x fuel lo hi :
  bisect_loop key a x (S fuel) lo hi
  = if (lo <? hi)%nat then
      match a !! ((lo + hi) `div` 2)%nat with
      | None => Raise IndexError
      | Some e =>
          k ← key e;
          if k <? x
          then bisect_loop key a x fuel ((lo + hi) `div` 2 + 1)%nat hi
          else bisect_loop key a x fuel lo ((lo + hi) `div` 2)%nat
      end
    else Ok lo.
Proof. reflexivity. Qed.

Section BisectSpec.
Context {A : Type}.
Variable key : A → result Z.
Variable kz : A → Z.
Variable a : list A.
Variable x : Z.
Hypothesis key_total : ∀ e, e ∈ a → key e = Ok (kz e).
Hypothesis ascending :
  ∀ i j e e', (i ≤ j)%nat → a !! i = Some e → a !! j = Some e' →
              kz e ≤ kz e'.

Lemma bisect_loop_spec fuel lo hi :
  (lo ≤ hi ≤ length a)%nat →
  (hi - lo ≤ fuel)%nat →
  (∀ i e, (i < lo)%nat → a !! i = Some e → kz e < x) →
  (∀ i e, (hi ≤ i)%nat → a !! i = Some e → x ≤ kz e) →
  ∃ r, bisect_loop key a x fuel lo hi = Ok r ∧
       (r ≤ length a)%nat ∧
       (∀ i e, (i < r)%nat → a !! i = Some e → kz e < x) ∧
       (∀ i e, (r ≤ i)%nat → a !! i = Some e → x ≤ kz e).
Proof.
  revert lo hi. induction fuel as [|fuel IH]; intros lo hi Hr Hf Hlo Hhi.
  { exists lo. assert (lo = hi) as -> by lia. simpl. repeat split; auto.
    lia. }
  rewrite bisect_loop_S. destruct (Nat.ltb_spec lo hi) as [Hlt|Hge].
  2:{ exists lo. assert (lo = hi) as -> by lia. repeat split; auto. lia. }
  pose proof (Nat.div_mod_eq (lo + hi) 2) as Hdm.
  pose proof (Nat.mod_upper_bound (lo + hi) 2 ltac:(lia)) as Hmb.
  set (mid := ((lo + hi) `div` 2)%nat) in *.
  assert (lo ≤ mid < hi)%nat as Hmid by lia.
  destruct (lookup_lt_is_Some_2 a mid) as [e He]; [lia|].
  rewrite He, (key_total e) by (by eapply list_elem_of_lookup_2).
  cbn [mbind result_bind].
  destruct (Z.ltb_spec (kz e) x) as [Hk|Hk].
  - apply IH; [lia | lia | | done].
    intros i e' Hi He'. pose proof (ascending i mid e' e). 
    assert (kz e' ≤ kz e) by (apply H; [lia|done..]). lia.
  - apply IH; [lia | lia | done |].
    intros i e' Hi He'.
    assert (kz e ≤ kz e') by (by apply (ascending mid i); [lia|..]). lia.
Qed.

Lemma bisect_left_spec :
  ∃ r, bisect_left key a x = Ok r ∧
       (r ≤ length a)%nat ∧
       Forall (λ e, kz e < x) (take r a) ∧
       Forall (λ e, x ≤ kz e) (drop r a).
Proof.
  destruct (bisect_loop_spec (length a) 0 (length a)) as (r & Hr & Hle & H1 & H2).
  - lia.
  - lia.
  - intros. lia.
  - intros i e Hi He. apply lookup_lt_Some in He. lia.
  - exists r. split; [done|]. split; [done|]. split.
    + apply Forall_lookup. intros i e He.
      apply lookup_take_Some in He as [He Hi]. by eapply H1.
    + apply Forall_lookup. intros i e He. rewrite lookup_drop in He.
      eapply H2; [|done]. lia.
Qed.
End BisectSpec.

(** The fuel given by [bisect_left] is never used up: more of it changes
    nothing. *)
Lemma bisect_loop_fuel {A} (key : A → result Z) a x fuel fuel' lo hi :
  (hi - lo ≤ fuel)%nat → (hi - lo ≤ fuel')%nat →
  bisect_loop key a x fuel lo hi = bisect_loop key a x fuel' lo hi.
Proof.
  revert fuel' lo hi.
  induction fuel as [|fuel IH]; intros [|fuel'] lo hi H1 H2;
    rewrite ?bisect_loop_S; try done.
  - simpl. destruct (Nat.ltb_spec lo hi); [lia|done].
  - simpl. destruct (Nat.ltb_spec lo hi); [lia|done].
  - destruct (Nat.ltb_spec lo hi) as [Hlt|]; [|done].
    pose proof (Nat.div_mod_eq (lo + hi) 2) as Hdm.
    pose proof (Nat.mod_upper_bound (lo + hi) 2 ltac:(lia)) as Hmb.
    set (mid := ((lo + hi) `div` 2)%nat) in *.
    destruct (a !! mid) as [e|]; [|done]. destruct (key e) as [k|]; [|done].
    cbn [mbind result_bind].
    destruct (k <? x); apply IH; lia.
Qed.

(** ** The order kept by [insort_left] *)

Section Order.
Context {A : Type}.
Variable score : A → Z.

Lemma descending_insert_Permutation x l :
  descending_insert score x l ≡ₚ x :: l.
Proof.
  induction l as [|e l IH]; simpl; [done|].
  destruct (score x <? score e); [|done].
  rewrite IH. apply perm_swap.
Qed.

Lemma descending_snoc p x :
  descending score (p ++ [x]) = descending_insert score x (descending score p).
Proof. unfold descending. by rewrite foldl_app. Qed.

Lemma descending_Permutation p : descending score p ≡ₚ p.
Proof.
  induction p as [|x p IH] using rev_ind; [done|].
  rewrite descending_snoc, descending_insert_Permutation, IH.
  by rewrite Permutation_cons_append.
Qed.

Lemma descending_insert_sorted x l :
  StronglySorted (not_below score) l →
  StronglySorted (not_below score) (descending_insert score x l).
Proof.
  induction l as [|e l IH]; simpl; intros Hs.
  { repeat constructor. }
  apply StronglySorted_inv in Hs as [Hs He].
  destruct (Z.ltb_spec (score x) (score e)).
  - constructor; [by apply IH|].
    rewrite descending_insert_Permutation. constructor; [|done].
    unfold not_below. lia.
  - constructor; [by constructor|]. constructor; [done|].
    eapply Forall_impl; [done|]. unfold not_below. intros y ?. lia.
Qed.

Lemma descending_sorted p : StronglySorted (not_below score) (descending score p).
Proof.
  induction p as [|x p IH] using rev_ind; [constructor|].
  rewrite descending_snoc. by apply descending_insert_sorted.
Qed.

Lemma sorted_lookup l i j e e' :
  StronglySorted (not_below score) l → (i ≤ j)%nat →
  l !! i = Some e → l !! j = Some e' → score e' ≤ score e.
Proof.
  intros Hs. revert i j. induction Hs as [|y l Hs IH Hy]; intros i j Hij;
    [done|].
  destruct i as [|i], j as [|j]; simpl; try lia.
  - intros [= <-] [= <-]. done.
  - intros [= <-] He'. rewrite Forall_forall in Hy.
    apply Hy. by eapply list_elem_of_lookup_2.
  - apply IH. lia.
Qed.

Lemma descending_insert_app x l1 l2 :
  Forall (λ e, score x < score e) l1 →
  Forall (λ e, score e ≤ score x) l2 →
  descending_insert score x (l1 ++ l2) = l1 ++ x :: l2.
Proof.
  intros H1 H2. induction H1 as [|e l1 He H1 IH]; simpl.
  - destruct H2 as [|e l2 He H2]; simpl; [done|].
    destruct (Z.ltb_spec (score x) (score e)); [lia|done].
  - destruct (Z.ltb_spec (score x) (score e)); [|lia]. by rewrite IH.
Qed.

(** On a list in that order, [insort_left] with the negated score as key
    is [descending_insert]. *)
Lemma insort_left_descending (key : A → result Z) l x :
  (∀ e, e ∈ x :: l → key e = Ok (- score e)) →
  StronglySorted (not_below score) l →
  insort_left key l x = Ok (descending_insert score x l).
Proof.
  intros Hkey Hs. unfold insort_left.
  rewrite (Hkey x) by by left. cbn [mbind result_bind].
  destruct (bisect_left_spec key (λ e, - score e) l (- score x))
    as (r & -> & Hr & H1 & H2).
  - intros e He. apply Hkey. by right.
  - intros i j e e' Hij He He'.
    pose proof (sorted_lookup l i j e e' Hs Hij He He'). lia.
  - cbn [mbind result_bind]. f_equal. unfold list_insert_at.
    transitivity (descending_insert score x (take r l ++ drop r l));
      [|by rewrite take_drop].
    symmetry. apply descending_insert_app.
    + eapply Forall_impl; [done|]. simpl. intros; lia.
    + eapply Forall_impl; [done|]. simpl. intros; lia.
Qed.

(** *** Taking the first entry of least score *)

Lemma extract_min_snoc p x :
  extract_min score (p ++ [x])
  = match extract_min score p with
    | None => Some (x, [])
    | Some (m, p') =>
        if score x <? score m then Some (x, p) else Some (m, p' ++ [x])
    end.
Proof.
  induction p as [|y q IH]; simpl; [done|].
  rewrite IH. destruct (extract_min score q) as [[m q']|] eqn:Hq.
  - destruct (Z.ltb_spec (score x) (score m)),
      (Z.ltb_spec (score m) (score y)); simpl;
      repeat (match goal with
              | |- context [Z.ltb ?u ?v] => destruct (Z.ltb_spec u v)
              end; simpl; try lia; try done).
  - destruct q; [|by simpl in Hq; destruct (extract_min score q) as [[??]|];
                  [destruct (_ <? _)|]].
    simpl. by destruct (score x <? score y).
Qed.

Lemma extract_min_first p m p' :
  extract_min score p = Some (m, p') →
  ∃ p1 p2, p = p1 ++ m :: p2 ∧ p' = p1 ++ p2 ∧
           Forall (λ y, score m < score y) p1 ∧
           Forall (λ y, score m ≤ score y) p2.
Proof.
  revert m p'. induction p as [|x q IH]; intros m p'; simpl; [done|].
  destruct (extract_min score q) as [[m' q']|] eqn:Hq.
  - destruct (IH m' q' eq_refl) as (q1 & q2 & -> & -> & H1 & H2).
    destruct (Z.ltb_spec (score m') (score x)); intros [= <- <-].
    + exists (x :: q1), q2. repeat split; [|done]. by constructor.
    + exists [], (q1 ++ m' :: q2). repeat split; [constructor|].
      apply Forall_app. split.
      * eapply Forall_impl; [done|]. simpl. intros; lia.
      * constructor; [lia|]. eapply Forall_impl; [done|].
        simpl. intros; lia.
  - intros [= <- <-]. destruct q; [|by simpl in Hq;
      destruct (extract_min score q) as [[??]|]; [destruct (_ <? _)|]].
    exists [], []. by repeat split.
Qed.

Lemma extract_min_None p : extract_min score p = None ↔ p = [].
Proof.
  destruct p as [|x q]; simpl; [done|]. split; [|done].
  destruct (extract_min score q) as [[??]|]; [destruct (_ <? _)|]; done.
Qed.

(** Popping the right end of the kept list takes the first entry of least
    score. *)
Lemma descending_extract_min p m p' :
  extract_min score p = Some (m, p') →
  descending score p = descending score p' ++ [m].
Proof.
  revert m p'. induction p as [|x p IH] using rev_ind; intros m p'; [done|].
  rewrite extract_min_snoc, descending_snoc.
  destruct (extract_min score p) as [[m0 p0]|] eqn:Hp.
  - rewrite (IH m0 p0 eq_refl).
    destruct (Z.ltb_spec (score x) (score m0)); intros [= <- <-].
    + rewrite <- (IH m0 p0 eq_refl).
      rewrite <- (app_nil_r (descending score p)) at 1.
      rewrite descending_insert_app; [done| |constructor].
      apply extract_min_first in Hp as (p1 & p2 & -> & -> & H1 & H2).
      rewrite descending_Permutation.
      apply Forall_app. split.
      * eapply Forall_impl; [done|]. simpl. intros; lia.
      * constructor; [lia|]. eapply Forall_impl; [done|].
        simpl. intros; lia.
    + rewrite descending_snoc.
      generalize (descending score p0). intros l. clear -H.
      induction l as [|e l IHl]; simpl.
      * destruct (Z.ltb_spec (score x) (score m0)); [lia|done].
      * destruct (score x <? score e); [by rewrite IHl | done].
  - intros [= <- <-]. apply extract_min_None in Hp as ->. done.
Qed.
End Order.

(** ** The priority-queue fringe *)

Lemma generate_heuristic_inv st goal st' :
  generate_heuristic st goal = Ok st' →
  ∃ h, _manhattan_distance st goal = Ok h ∧ st' = set_heuristic st (Some h).
Proof.
  unfold generate_heuristic. intros H. bind_inv H. injection H as <-. eauto.
Qed.

Lemma generate_heuristic_scored st goal st' :
  generate_heuristic st goal = Ok st' → scored st'.
Proof. intros (h & _ & ->)%generate_heuristic_inv. by eexists. Qed.

Lemma pending_app score p ops1 ops2 :
  pending score p (ops1 ++ ops2)
  = (p' ← pending score p ops1; pending score p' ops2).
Proof.
  revert p. induction ops1 as [|o ops1 IH]; intros p; simpl; [done|].
  destruct (pending_step score p o); simpl; [apply IH | done].
Qed.

Section PriorityQueueFringe.
Variable f : SlideBoard → result pyint.
Variable score : SlideBoard → Z.
Hypothesis f_score : ∀ st, scored st → f st = Ok (Some (score st)).

Lemma PriorityQueue_f_score st :
  scored st → PriorityQueue_f f st = Ok (- score st).
Proof. intros H. unfold PriorityQueue_f. by rewrite f_score. Qed.

Lemma keeps_apply_op fr p o fr' :
  keeps f score fr p → apply_op fr o = Ok fr' →
  ∃ p', pending_step score p o = Ok p' ∧ keeps f score fr' p'.
Proof.
  intros (Hst & Hu & Hp) Ho. destruct o as [state goal|]; simpl in *.
  - apply Fringe_add_inv in Ho as (state' & c & Hg & Hadd & ->).
    rewrite Hu in Hg. rewrite Hg. cbn [mbind result_bind].
    pose proof (generate_heuristic_scored _ _ _ Hg) as Hsc.
    eexists. split; [done|]. rewrite Hst in Hadd. simpl in Hadd.
    rewrite (insort_left_descending score) in Hadd.
    + injection Hadd as <-. split; [|split]; simpl.
      * by rewrite descending_snoc.
      * done.
      * apply Forall_app. split; [done|]. by constructor.
    + intros e [->|He]%elem_of_cons; apply PriorityQueue_f_score; [done|].
      rewrite descending_Permutation in He.
      rewrite Forall_forall in Hp. by apply Hp.
    + apply descending_sorted.
  - destruct (Fringe_remove fr) as [[o fr1]|] eqn:Hr; [|done].
    injection Ho as <-.
    apply Fringe_remove_inv in Hr
      as [(-> & -> & H0)|(x & c & -> & Hr & ->)].
    + apply Fringe_len_0 in H0. rewrite Hst in H0. simpl in H0.
      assert (p = []) as ->.
      { apply Permutation_nil_r. by rewrite <- H0, descending_Permutation. }
      simpl. eexists. split; [done|]. by split.
    + rewrite Hst in Hr. simpl in Hr.
      destruct (list_pop _) as [[y l']|] eqn:Hpop; [|done].
      injection Hr as <- <-. apply list_pop_inv in Hpop.
      destruct (extract_min score p) as [[m p']|] eqn:Hm.
      * pose proof (descending_extract_min score _ _ _ Hm) as Hd.
        rewrite Hd in Hpop. apply app_inj_tail in Hpop as [<- <-].
        eexists. split; [done|]. split; [done|]. split; [done|].
        apply extract_min_first in Hm as (p1 & p2 & -> & -> & _).
        apply Forall_app in Hp as [H1 [_ H2]%Forall_cons].
        by apply Forall_app.
      * apply extract_min_None in Hm as ->. by destruct l'.
Qed.

Lemma keeps_run_ops ops fr p fr' :
  keeps f score fr p → run_ops fr ops = Ok fr' →
  ∃ p', pending score p ops = Ok p' ∧ keeps f score fr' p'.
Proof.
  revert fr p. induction ops as [|o ops IH]; intros fr p Hk; simpl.
  - intros [= <-]. eauto.
  - destruct (apply_op fr o) as [fr1|] eqn:Ho; [|done].
    cbn [mbind result_bind]. intros Hrun.
    destruct (keeps_apply_op _ _ _ _ Hk Ho) as (p1 & -> & Hk1).
    cbn [mbind result_bind]. by eapply IH.
Qed.

Lemma keeps_new : keeps f score (PriorityQueue_new f) [].
Proof. by repeat split. Qed.

(** The same order on the fringe of values: after any sequence of [add]
    and [remove] calls the stored entries are the pending ones, and
    [remove] takes the first of least score. *)
Lemma value_queue_order (ops : list op) (fr : Fringe) :
  run_ops (PriorityQueue_new f) ops = Ok fr →
  ∃ p, pending score [] ops = Ok p ∧
       entries (store fr) ≡ₚ p ∧
       match Fringe_remove fr with
       | Ok (Some x, fr') =>
           ∃ p1 p2, p = p1 ++ x :: p2 ∧
                    Forall (λ y, score x < score y) p1 ∧
                    Forall (λ y, score x ≤ score y) p2 ∧
                    pending score [] (ops ++ [CallRemove]) = Ok (p1 ++ p2) ∧
                    entries (store fr') ≡ₚ p1 ++ p2
       | Ok (None, _) => p = []
       | Raise _ => False
       end.
Proof.
  intros Hrun.
  destruct (keeps_run_ops _ _ _ _ keeps_new Hrun) as (p & Hp & Hk).
  exists p. split; [done|]. split.
  { destruct Hk as (-> & _). simpl. apply descending_Permutation. }
  destruct (Fringe_remove_Ok fr) as (o & fr' & Hr). rewrite Hr.
  assert (apply_op fr CallRemove = Ok fr') as Ho by (simpl; by rewrite Hr).
  destruct (keeps_apply_op _ _ _ _ Hk Ho) as (p' & Hstep & Hk').
  apply Fringe_remove_inv in Hr as [(-> & -> & H0)|(x & c & -> & Hr & ->)].
  - apply Fringe_len_0 in H0. destruct Hk as (Hst & _).
    rewrite Hst in H0. simpl in H0.
    apply Permutation_nil_r. by rewrite <- H0, descending_Permutation.
  - destruct Hk as (Hst & _). rewrite Hst in Hr. simpl in Hr.
    destruct (list_pop _) as [[y l']|] eqn:Hpop; [|done].
    injection Hr as <- <-. apply list_pop_inv in Hpop.
    simpl in Hstep.
    destruct (extract_min score p) as [[m p0]|] eqn:Hm.
    + injection Hstep as <-.
      pose proof (descending_extract_min score _ _ _ Hm) as Hd.
      rewrite Hd in Hpop. apply app_inj_tail in Hpop as [<- <-].
      apply extract_min_first in Hm as Hf.
      destruct Hf as (p1 & p2 & -> & -> & H1 & H2).
      exists p1, p2. repeat split; try done.
      * rewrite pending_app, Hp. simpl. by rewrite Hm.
      * simpl. apply descending_Permutation.
    + apply extract_min_None in Hm as ->. by destruct l'.
Qed.
End PriorityQueueFringe.

Lemma GBFS_f_score st : scored st → GBFS_f st = Ok (Some (GBFS_score st)).
Proof. intros [h Hh]. unfold GBFS_f, GBFS_score. by rewrite Hh. Qed.

Lemma AStar_f_score st : scored st → AStar_f st = Ok (Some (AStar_score st)).
Proof. intros [h Hh]. unfold AStar_f, AStar_score. by rewrite Hh. Qed.


(** ** The driver *)

Lemma search_loop_mono k k' goal_state expanded fringe r :
  search_loop k goal_state expanded fringe = Some r → (k ≤ k')%nat →
  search_loop k' goal_state expanded fringe = Some r.
Proof.
  revert k' expanded fringe.
  induction k as [|k IH]; intros [|k'] E fr; simpl; try done; try lia.
  destruct (Fringe_len fr =? 0); [done|].
  destruct (loop_body goal_state E fr) as [[E1 fr1|a]|e]; try done.
  intros H ?. apply IH; [done|lia].
Qed.

Lemma graph_search_mono k k' start_state goal_state fringe r :
  _graph_search k start_state goal_state fringe = Some r → (k ≤ k')%nat →
  _graph_search k' start_state goal_state fringe = Some r.
Proof.
  unfold _graph_search.
  destruct (Fringe_add fringe start_state goal_state); [|done].
  apply search_loop_mono.
Qed.

(** C4, as the code has it.  The 2×2 instance with start ["21 3"] and goal
    ["213 "]: BFS returns depth 1 and the path ["21 3"], ["213 "]; DFS, GBFS
    and AStar return depth 1 too; and two moves are legal from the start,
    up and right. *)
Theorem example_2x2 (fuel : nat) :
  (3 ≤ fuel)%nat →
  create (chars "21 3") 2 = Ok start_21_3 ∧
  create (chars "213 ") 2 = Ok goal_213_ ∧
  (∃ node, BFS fuel start_21_3 goal_213_ = Some (Ok (Some node, 1, 3, 2, 2)) ∧
           solution_path node = [chars "21 3"; chars "213 "]) ∧
  (∃ node, DFS fuel start_21_3 goal_213_ = Some (Ok (Some node, 1, 2, 1, 2)) ∧
           solution_path node = [chars "21 3"; chars "213 "]) ∧
  (∃ node, GBFS fuel start_21_3 goal_213_
             = Some (Ok (Some node, 1, 2, 1, 2)) ∧
           solution_path node = [chars "21 3"; chars "213 "]) ∧
  (∃ node, AStar fuel start_21_3 goal_213_
             = Some (Ok (Some node, 1, 2, 1, 2)) ∧
           solution_path node = [chars "21 3"; chars "213 "]) ∧
  legal_moves start_21_3 = [Up; Right].
Proof.
  intros Hfuel.
  split; [reflexivity|]. split; [reflexivity|].
  split; [|split; [|split; [|split; [|reflexivity]]]]; eexists;
    (split; [eapply graph_search_mono; [|exact Hfuel]; vm_compute;
             reflexivity | reflexivity]).
Qed.

Lemma example_2x2_witness :
  create (chars "21 3") 2 = Ok start_21_3 ∧
  create (chars "213 ") 2 = Ok goal_213_ ∧
  (∃ node, BFS 3 start_21_3 goal_213_ = Some (Ok (Some node, 1, 3, 2, 2)) ∧
           solution_path node = [chars "21 3"; chars "213 "]) ∧
  (∃ node, DFS 3 start_21_3 goal_213_ = Some (Ok (Some node, 1, 2, 1, 2)) ∧
           solution_path node = [chars "21 3"; chars "213 "]) ∧
  (∃ node, GBFS 3 start_21_3 goal_213_
             = Some (Ok (Some node, 1, 2, 1, 2)) ∧
           solution_path node = [chars "21 3"; chars "213 "]) ∧
  (∃ node, AStar 3 start_21_3 goal_213_
             = Some (Ok (Some node, 1, 2, 1, 2)) ∧
           solution_path node = [chars "21 3"; chars "213 "]) ∧
  legal_moves start_21_3 = [Up; Right].
Proof. apply (example_2x2 3). lia. Defined.

(** From ["21 3"] the blank moves up and right: not exactly one move is
    legal. *)
Lemma two_legal_moves_from_start :
  legal_moves start_21_3 = [Up; Right] ∧
  ¬ (∃ d, legal_moves start_21_3 = [d]).
Proof. split; [reflexivity|]. by intros [d Hd]. Qed.

(** *** A start that already is the goal *)

Lemma tile_distance_self st c : tile_distance st st c = 0.
Proof. unfold tile_distance. lia. Qed.

Lemma manhattan_sum_self st : manhattan_sum st st = 0.
Proof.
  unfold manhattan_sum.
  induction (non_blank (tiles st)) as [|c l IH]; [done|].
  by rewrite fmap_cons, sum_Z_cons, IH, tile_distance_self.
Qed.

Lemma manhattan_distance_same_tiles st goal :
  valid_board st → tiles goal = tiles st →
  _manhattan_distance st goal = Ok 0.
Proof.
  intros [Hn _ Hnd _ _] Ht.
  transitivity (_manhattan_distance st st).
  { unfold _manhattan_distance. by rewrite Ht. }
  rewrite manhattan_distance_sum; [|done|lia|done|done].
  by rewrite manhattan_sum_self.
Qed.

(** A fringe holding one entry whose tiles are the goal's: the first pass
    of the loop returns that entry. *)
Lemma search_loop_single fr x goal_state k :
  entries (store fr) = [x] → tiles x = tiles goal_state →
  search_loop (S k) goal_state ∅ fr
  = Some (Ok (Some x, depth x, _num_created fr, 0, _max_fringe fr)).
Proof.
  intros He Ht. simpl.
  assert ((Fringe_len fr =? 0) = false) as ->.
  { unfold Fringe_len, container_len. by rewrite He. }
  assert (Fringe_remove fr
          = Ok (Some x, mkFringe (_uses_heuristic fr) (_num_created fr)
                          (_max_fringe fr)
                          match store fr with
                          | Queue _ => Queue []
                          | Stack _ => Stack []
                          | PriorityQueue _ f => PriorityQueue [] f
                          end)) as Hr.
  { unfold Fringe_remove, Fringe_len, container_len. rewrite He. simpl.
    destruct (store fr) as [d|st|l f]; simpl in He; by subst. }
  unfold loop_body. rewrite Hr. cbn [mbind result_bind].
  rewrite bool_decide_eq_false_2 by set_solver.
  by rewrite (proj2 (SlideBoard_eq_true x goal_state) Ht).
Qed.

Lemma insort_left_nil {A} (key : A → result Z) x k :
  key x = Ok k → insort_left key [] x = Ok [x].
Proof. intros H. unfold insort_left. by rewrite H. Qed.

Lemma Fringe_add_Queue_new st goal_state :
  Fringe_add Queue_new st goal_state = Ok (mkFringe false 0 1 (Queue [st])).
Proof. reflexivity. Qed.

Lemma Fringe_add_Stack_new st goal_state :
  Fringe_add Stack_new st goal_state = Ok (mkFringe false 0 1 (Stack [st])).
Proof. reflexivity. Qed.

Lemma Fringe_add_PriorityQueue_new f st goal_state st' k :
  generate_heuristic st goal_state = Ok st' →
  PriorityQueue_f f st' = Ok k →
  Fringe_add (PriorityQueue_new f) st goal_state
  = Ok (mkFringe true 0 1 (PriorityQueue [st'] f)).
Proof.
  intros Hg Hk. unfold Fringe_add. simpl. rewrite Hg. simpl.
  by rewrite (insort_left_nil _ _ k).
Qed.

Lemma start_equal_goal_any_size name alg start goal_state k :
  (name, alg) ∈ _ALGORITHMS →
  valid_board start → depth start = 0 → parent start = None →
  tiles goal_state = tiles start →
  ∃ node, alg (S k) start goal_state = Some (Ok (Some node, 0, 0, 0, 1)) ∧
          (node = start ∨ node = set_heuristic start (Some 0)) ∧
          solution_path node = [tiles goal_state].
Proof.
  intros Halg Hv Hd Hp Ht.
  pose proof (manhattan_distance_same_tiles start goal_state Hv Ht) as Hm.
  assert (solution_path start = [tiles goal_state]) as Hpath.
  { unfold solution_path. destruct start; simpl in *. by subst. }
  assert (solution_path (set_heuristic start (Some 0)) = [tiles goal_state])
    as Hpath'.
  { unfold solution_path. destruct start; simpl in *. by subst. }
  unfold _ALGORITHMS in Halg.
  repeat (apply elem_of_cons in Halg as [[= _ ->]|Halg]);
    [..|by apply elem_of_nil in Halg].
  - exists start. split; [|by split; [left|]].
    unfold BFS, _graph_search. rewrite Fringe_add_Queue_new.
    rewrite (search_loop_single _ start) by (done || by symmetry).
    by rewrite Hd.
  - exists start. split; [|by split; [left|]].
    unfold DFS, _graph_search. rewrite Fringe_add_Stack_new.
    rewrite (search_loop_single _ start) by (done || by symmetry).
    by rewrite Hd.
  - exists (set_heuristic start (Some 0)). split; [|by split; [right|]].
    unfold GBFS, _graph_search.
    rewrite (Fringe_add_PriorityQueue_new _ _ _
               (set_heuristic start (Some 0)) (- 0));
      [|by unfold generate_heuristic; rewrite Hm|done].
    rewrite (search_loop_single _ (set_heuristic start (Some 0)))
      by (done || by symmetry).
    simpl. by rewrite Hd.
  - exists (set_heuristic start (Some 0)). split; [|by split; [right|]].
    unfold AStar, _graph_search.
    rewrite (Fringe_add_PriorityQueue_new _ _ _
               (set_heuristic start (Some 0)) (- (depth start + 0)));
      [|by unfold generate_heuristic; rewrite Hm|done].
    rewrite (search_loop_single _ (set_heuristic start (Some 0)))
      by (done || by symmetry).
    simpl. by rewrite Hd.
Qed.

(** C9. For every 2×2 start State whose tiles are the goal's, each of the
    four algorithms returns that State (with its heuristic, zero, cached by
    the informed ones) at depth 0, and its parent chain is the single
    configuration of the goal. *)
Theorem start_equal_goal (str_rep : str) (start goal_state : SlideBoard)
    (name : string) (alg : search_fn) (fuel : nat) :
  create str_rep 2 = Ok start →
  tiles goal_state = tiles start →
  (name, alg) ∈ _ALGORITHMS →
  (1 ≤ fuel)%nat →
  ∃ node, alg fuel start goal_state = Some (Ok (Some node, 0, 0, 0, 1)) ∧
          (node = start ∨ node = set_heuristic start (Some 0)) ∧
          solution_path node = [tiles goal_state].
Proof.
  intros Hc Ht Halg Hfuel. destruct fuel as [|k]; [lia|].
  pose proof (create_valid _ _ _ Hc) as Hv.
  apply create_Ok in Hc as [_ (i & _ & ->)].
  by eapply start_equal_goal_any_size.
Qed.

Lemma start_equal_goal_witness :
  ∃ node, GBFS 1 goal_213_ goal_213_ = Some (Ok (Some node, 0, 0, 0, 1)) ∧
          (node = goal_213_ ∨ node = set_heuristic goal_213_ (Some 0)) ∧
          solution_path node = [tiles goal_213_].
Proof.
  apply (start_equal_goal (chars "213 ") goal_213_ goal_213_ "GBFS" GBFS 1).
  - reflexivity.
  - reflexivity.
  - unfold _ALGORITHMS. do 2 right. left.
  - lia.
Defined.

(** ** The driver raises nothing and terminates *)

Lemma manhattan_loop_total k (t2 : str) ind (rest : str) acc :
  k ≠ 0 → (∀ c, c ∈ rest → c ≠ blank → c ∈ t2) →
  ∃ h, manhattan_loop k t2 ind rest acc = Ok h.
Proof.
  intros Hk. revert ind acc.
  induction rest as [|c rest IH]; intros ind acc Hin; simpl; [eauto|].
  assert (∀ c', c' ∈ rest → c' ≠ blank → c' ∈ t2) as Hrest.
  { intros c' ?. apply Hin. by right. }
  case_decide as Hc; [by apply IH|].
  destruct (find_index_elem_of c t2) as [j Hj].
  { apply Hin; [by left|done]. }
  unfold divmod, index. rewrite Hj.
  destruct (Z.eqb_spec k 0); [done|]. cbn [mbind result_bind].
  by apply IH.
Qed.

Lemma generate_heuristic_total st goal_state :
  n st ≠ 0 → symbols_known st goal_state →
  ∃ h, generate_heuristic st goal_state = Ok (set_heuristic st (Some h)).
Proof.
  intros Hn Hs. unfold generate_heuristic, _manhattan_distance.
  destruct (manhattan_loop_total (n st) (tiles goal_state) 0 (tiles st) 0)
    as [h ->]; [done|done|]. by exists h.
Qed.

Lemma bisect_loop_total {A} (key : A → result Z) a x fuel lo hi :
  (∀ e, e ∈ a → is_Ok (key e)) → (hi ≤ length a)%nat →
  is_Ok (bisect_loop key a x fuel lo hi).
Proof.
  intros Hkey. revert lo hi.
  induction fuel as [|fuel IH]; intros lo hi Hhi; [by eexists|].
  rewrite bisect_loop_S. destruct (Nat.ltb_spec lo hi) as [Hlt|]; [|by eexists].
  pose proof (Nat.div_mod_eq (lo + hi) 2) as Hdm.
  pose proof (Nat.mod_upper_bound (lo + hi) 2 ltac:(lia)) as Hmb.
  set (mid := ((lo + hi) `div` 2)%nat) in *.
  destruct (lookup_lt_is_Some_2 a mid) as [e He]; [lia|]. rewrite He.
  destruct (Hkey e) as [k ->]; [by eapply list_elem_of_lookup_2|].
  cbn [mbind result_bind]. destruct (k <? x); apply IH; lia.
Qed.

Lemma list_insert_at_Permutation {A} (l : list A) i x :
  list_insert_at l i x ≡ₚ x :: l.
Proof.
  unfold list_insert_at. rewrite <- Permutation_middle.
  by rewrite take_drop.
Qed.

Lemma insort_left_total {A} (key : A → result Z) l x :
  (∀ e, e ∈ x :: l → is_Ok (key e)) →
  ∃ l', insort_left key l x = Ok l' ∧ l' ≡ₚ x :: l.
Proof.
  intros Hkey. unfold insort_left.
  destruct (Hkey x) as [k ->]; [by left|]. cbn [mbind result_bind].
  destruct (bisect_loop_total key l k (length l) 0 (length l)) as [r Hr].
  { intros e ?. apply Hkey. by right. }
  { done. }
  unfold bisect_left. rewrite Hr. cbn [mbind result_bind].
  eexists. split; [done|]. apply list_insert_at_Permutation.
Qed.

Lemma good_set_heuristic start st h :
  good start st → good start (set_heuristic st h).
Proof. intros [[? ? ? ? ?] Hp]. by repeat split. Qed.

Lemma good_symbols_known start st goal_state :
  good start st → symbols_known start goal_state →
  symbols_known st goal_state.
Proof.
  intros [_ Hp] Hs c Hc. apply Hs. by rewrite <- Hp.
Qed.

Lemma add_container_total c st :
  container_ok c → (is_pq c = true → scored st) →
  ∃ c', _add c st = Ok c' ∧ entries c' ≡ₚ st :: entries c ∧
        container_ok c' ∧ is_pq c' = is_pq c.
Proof.
  intros Hc Hs. destruct c as [d|s|l f]; simpl in *.
  - eexists. split; [done|]. split; [|done].
    symmetry. apply Permutation_cons_append.
  - eexists. split; [done|]. split; [|done].
    symmetry. apply Permutation_cons_append.
  - destruct Hc as [Hl Hf].
    destruct (insort_left_total (PriorityQueue_f f) l st) as (l' & -> & Hl').
    { intros e [->|He]%elem_of_cons; apply Hf; [by apply Hs|].
      rewrite Forall_forall in Hl. by apply Hl. }
    cbn [mbind result_bind]. eexists. split; [done|]. simpl.
    split; [done|]. split; [|done]. split; [|done].
    rewrite Hl'. constructor; [by apply Hs | done].
Qed.

Lemma remove_container_ok c x c' :
  _remove c = Ok (x, c') → container_ok c →
  container_ok c' ∧ is_pq c' = is_pq c.
Proof.
  destruct c as [d|s|l f]; simpl.
  - destruct d; [done|]. by intros [= <- <-].
  - destruct (list_pop s) as [[y s']|]; [|done]. by intros [= <- <-].
  - destruct (list_pop l) as [[y l']|] eqn:Hp; [|done].
    intros [= <- <-] [Hl Hf]. apply list_pop_inv in Hp as ->.
    apply Forall_app in Hl as [Hl _]. by repeat split.
Qed.

Section Progress.
Variables start goal_state : SlideBoard.

Lemma Fringe_add_total fr st :
  fringe_ok start fr → informed_ok start goal_state fr → good start st →
  ∃ fr', Fringe_add fr st goal_state = Ok fr' ∧
         fringe_ok start fr' ∧ informed_ok start goal_state fr' ∧
         length (entries (store fr')) = S (length (entries (store fr))).
Proof.
  intros (Hg & Hc & Hpq) Hi Hgood. unfold Fringe_add.
  assert (∃ st', (if _uses_heuristic fr then generate_heuristic st goal_state
                  else Ok st) = Ok st' ∧ good start st' ∧
                 (_uses_heuristic fr = true → scored st'))
    as (st' & -> & Hgood' & Hsc).
  { destruct (_uses_heuristic fr) eqn:Hu.
    - destruct (generate_heuristic_total st goal_state) as [h ->].
      + destruct Hgood as [[? _ _ _ _] _]. lia.
      + eapply good_symbols_known; [done|]. by apply Hi.
      + eexists. split; [done|]. split; [by apply good_set_heuristic|].
        intros _. by eexists.
    - exists st. split; [done|]. by split. }
  cbn [mbind result_bind].
  destruct (add_container_total (store fr) st') as (c & -> & Hperm & Hc' & Hk);
    [done|by intros ?; apply Hsc, Hpq|].
  cbn [mbind result_bind].
  assert (∀ m, fringe_ok start (mkFringe (_uses_heuristic fr)
                                  (_num_created fr + 1) m c)) as Hok.
  { intros m. split; [|split]; simpl.
    - rewrite Hperm. by constructor.
    - done.
    - by rewrite Hk. }
  apply Permutation_length in Hperm. simpl in Hperm.
  destruct (_max_fringe fr <? container_len c); eexists;
    (split; [done|]); (split; [apply Hok|]); by split.
Qed.

Lemma Fringe_remove_total fr :
  fringe_ok start fr → informed_ok start goal_state fr →
  Fringe_len fr ≠ 0 →
  ∃ x fr', Fringe_remove fr = Ok (Some x, fr') ∧ good start x ∧
           fringe_ok start fr' ∧ informed_ok start goal_state fr' ∧
           length (entries (store fr)) = S (length (entries (store fr'))).
Proof.
  intros (Hg & Hc & Hpq) Hi Hlen. unfold Fringe_remove.
  destruct (Z.eqb_spec (Fringe_len fr) 0); [done|]. cbn [negb].
  rewrite Fringe_len_0 in Hlen.
  destruct (remove_nonempty _ Hlen) as (x & c & Hr). rewrite Hr.
  cbn [mbind result_bind].
  destruct (remove_container_ok _ _ _ Hr Hc) as [Hc' Hk].
  apply remove_inv in Hr as (Hl & Hx & Hsub).
  rewrite Forall_forall in Hg.
  exists x. eexists. split; [done|]. split; [by apply Hg|].
  split; [|by split].
  split; [|split]; simpl.
  - apply Forall_forall. intros y Hy. by apply Hg, Hsub.
  - done.
  - by rewrite Hk.
Qed.

Lemma move_total d b :
  good start b →
  ∃ o, move d b = Ok o ∧ ∀ b', o = Some b' → good start b'.
Proof.
  intros [Hv Hp]. rewrite move_spec by done. case_decide as He.
  - eexists. split; [done|]. done.
  - eexists. split; [done|]. intros b' [= <-]. split.
    + apply moved_valid; [done|]. by apply move_target_range.
    + by rewrite moved_tiles_Permutation.
Qed.

Lemma try_add_total fr expanded o :
  fringe_ok start fr → informed_ok start goal_state fr →
  (∀ b', o = Some b' → good start b') →
  ∃ fr', _try_add fr expanded goal_state o = Ok fr' ∧
         fringe_ok start fr' ∧ informed_ok start goal_state fr' ∧
         (length (entries (store fr')) ≤ S (length (entries (store fr))))%nat.
Proof.
  intros Hok Hi Ho. destruct o as [nd|]; simpl.
  - case_bool_decide.
    + exists fr. split; [done|]. split; [done|]. split; [done|]. lia.
    + destruct (Fringe_add_total fr nd Hok Hi (Ho nd eq_refl))
        as (fr' & -> & ? & ? & Hl). exists fr'.
      split; [done|]. split; [done|]. split; [done|]. lia.
  - exists fr. split; [done|]. split; [done|]. split; [done|]. lia.
Qed.

Lemma good_arrangement b : good start b → tiles b ∈ arrangements start.
Proof.
  intros [_ Hp]. unfold arrangements.
  rewrite elem_of_list_to_set. by apply permutations_Permutation.
Qed.

Lemma work_left_expand (expanded : gset str) (t : str) fr fr' :
  expanded ⊆ arrangements start → t ∈ arrangements start →
  t ∉ expanded →
  (length (entries (store fr')) ≤ 3 + length (entries (store fr)))%nat →
  (work_left start ({[t]} ∪ expanded) fr' < work_left start expanded fr)%nat.
Proof.
  intros Hsub Ht Hnew Hlen. unfold work_left.
  assert (size ({[t]} ∪ expanded) = S (size expanded)) as Hs.
  { rewrite size_union by (by apply disjoint_singleton_l).
    by rewrite size_singleton. }
  assert (size ({[t]} ∪ expanded) ≤ size (arrangements start))%nat as Hle.
  { apply subseteq_size, union_subseteq.
    split; [by apply singleton_subseteq_l | done]. }
  lia.
Qed.

Lemma loop_body_progress expanded fr :
  fringe_ok start fr → informed_ok start goal_state fr →
  Fringe_len fr ≠ 0 → expanded ⊆ arrangements start →
  (∃ expanded' fr',
     loop_body goal_state expanded fr = Ok (Continue expanded' fr') ∧
     fringe_ok start fr' ∧ informed_ok start goal_state fr' ∧
     expanded' ⊆ arrangements start ∧
     (work_left start expanded' fr' < work_left start expanded fr)%nat) ∨
  (∃ r, loop_body goal_state expanded fr = Ok (Return r) ∧
        outcome goal_state r ∧ r ≠ search_failed).
Proof.
  intros Hok Hi Hlen Hsub.
  destruct (Fringe_remove_total fr Hok Hi Hlen)
    as (x & fr1 & Hr & Hx & Hok1 & Hi1 & Hl1).
  unfold loop_body. rewrite Hr. cbn [mbind result_bind].
  case_bool_decide as Hin.
  { left. exists expanded, fr1. split; [done|]. split; [done|].
    split; [done|]. split; [done|]. unfold work_left. lia. }
  destruct (SlideBoard_eq x (Some goal_state)) eqn:Heq.
  { right. eexists. split; [done|]. split; [|done]. right.
    apply SlideBoard_eq_true in Heq. by repeat eexists. }
  left.
  destruct (move_total Up x Hx) as (o1 & Hm1 & Hg1).
  destruct (try_add_total fr1 ({[tiles x]} ∪ expanded) o1 Hok1 Hi1 Hg1)
    as (fr2 & Ha2 & Hok2 & Hi2 & Hl2).
  destruct (move_total Down x Hx) as (o2 & Hm2 & Hg2).
  destruct (try_add_total fr2 ({[tiles x]} ∪ expanded) o2 Hok2 Hi2 Hg2)
    as (fr3 & Ha3 & Hok3 & Hi3 & Hl3).
  destruct (move_total Left x Hx) as (o3 & Hm3 & Hg3).
  destruct (try_add_total fr3 ({[tiles x]} ∪ expanded) o3 Hok3 Hi3 Hg3)
    as (fr4 & Ha4 & Hok4 & Hi4 & Hl4).
  destruct (move_total Right x Hx) as (o4 & Hm4 & Hg4).
  destruct (try_add_total fr4 ({[tiles x]} ∪ expanded) o4 Hok4 Hi4 Hg4)
    as (fr5 & Ha5 & Hok5 & Hi5 & Hl5).
  simpl in Hm1, Hm2, Hm3, Hm4.
  rewrite Hm1. cbn [mbind result_bind]. rewrite Ha2. cbn [mbind result_bind].
  rewrite Hm2. cbn [mbind result_bind]. rewrite Ha3. cbn [mbind result_bind].
  rewrite Hm3. cbn [mbind result_bind]. rewrite Ha4. cbn [mbind result_bind].
  rewrite Hm4. cbn [mbind result_bind]. rewrite Ha5. cbn [mbind result_bind].
  pose proof (good_arrangement x Hx) as Hxa.
  eexists _, fr5. split; [done|]. split; [done|]. split; [done|].
  split; [apply union_subseteq; split;
           [by apply singleton_subseteq_l | done]|].
  apply work_left_expand; [done..|lia].
Qed.

Lemma search_loop_total fuel expanded fr :
  fringe_ok start fr → informed_ok start goal_state fr →
  expanded ⊆ arrangements start →
  (work_left start expanded fr < fuel)%nat →
  ∃ r, search_loop fuel goal_state expanded fr = Some (Ok r) ∧
       outcome goal_state r.
Proof.
  revert expanded fr.
  induction fuel as [|fuel IH]; intros E fr Hok Hi Hsub Hw; [lia|].
  simpl. destruct (Z.eqb_spec (Fringe_len fr) 0) as [H0|H0].
  { eexists. split; [done|]. by left. }
  destruct (loop_body_progress E fr Hok Hi H0 Hsub)
    as [(E' & fr' & -> & Hok' & Hi' & Hsub' & Hlt)|(r & -> & Hr & _)].
  - apply IH; [done..|lia].
  - by exists r.
Qed.
End Progress.

Lemma loop_state_empty k goal_state expanded fr expanded' fr' :
  loop_state k goal_state expanded fr = Some (expanded', fr') →
  Fringe_len fr' = 0 →
  search_loop (S k) goal_state expanded fr = Some (Ok search_failed).
Proof.
  revert expanded fr. induction k as [|k IH]; intros E fr.
  - intros [= <- <-] H0. simpl. by rewrite H0.
  - intros Hs H0. simpl in Hs. change (search_loop (S (S k)) goal_state E fr)
      with (if Fringe_len fr =? 0 then Some (Ok search_failed)
            else match loop_body goal_state E fr with
                 | Raise e => Some (Raise e)
                 | Ok (Return a) => Some (Ok a)
                 | Ok (Continue E1 fr1) =>
                     search_loop (S k) goal_state E1 fr1
                 end).
    destruct (Fringe_len fr =? 0); [done|].
    destruct (loop_body goal_state E fr) as [[E1 fr1|]|]; try done.
    by apply IH.
Qed.

Lemma driver_fringes_ok start fr :
  fr ∈ driver_fringes → fringe_ok start fr ∧ entries (store fr) = [].
Proof.
  unfold driver_fringes. intros H.
  repeat (apply elem_of_cons in H as [->|H]); [..|by apply elem_of_nil in H];
    (split; [|done]); (split; [by constructor|]); (split; [|done]); simpl;
    try done.
  - split; [constructor|]. intros st Hs. eexists.
    by apply (PriorityQueue_f_score GBFS_f GBFS_score GBFS_f_score).
  - split; [constructor|]. intros st Hs. eexists.
    by apply (PriorityQueue_f_score AStar_f AStar_score AStar_f_score).
Qed.

(** C5, as the code has it.  For a valid start and, when the fringe is an
    informed one, a goal that holds every non-blank symbol of the start:
    the driver raises nothing and, given enough fuel, returns; what it
    returns is a State with the goal's tiles and that State's depth, or the
    failure tuple [(None, -1, 0, 0, 0)]; and it is the failure tuple
    whenever the loop comes to an empty fringe. *)
Theorem driver_total (fringe0 : Fringe) (start goal_state : SlideBoard) :
  fringe0 ∈ driver_fringes →
  valid_board start →
  (_uses_heuristic fringe0 = true → symbols_known start goal_state) →
  ∃ fuel0 r,
    (∀ fuel, (fuel0 ≤ fuel)%nat →
             _graph_search fuel start goal_state fringe0 = Some (Ok r)) ∧
    outcome goal_state r ∧
    (∀ fringe1 k expanded fringe,
       Fringe_add fringe0 start goal_state = Ok fringe1 →
       loop_state k goal_state ∅ fringe1 = Some (expanded, fringe) →
       Fringe_len fringe = 0 →
       r = search_failed).
Proof.
  intros Hin Hv Hsym.
  destruct (driver_fringes_ok start fringe0 Hin) as [Hok He].
  assert (good start start) as Hg by by split.
  destruct (Fringe_add_total start goal_state fringe0 start Hok Hsym Hg)
    as (fr1 & Hadd & Hok1 & Hi1 & Hl1).
  set (fuel0 := S (work_left start ∅ fr1)).
  destruct (search_loop_total start goal_state fuel0 ∅ fr1 Hok1 Hi1)
    as (r & Hr & Hout); [set_solver | unfold fuel0; lia |].
  assert (∀ fuel, (fuel0 ≤ fuel)%nat →
            _graph_search fuel start goal_state fringe0 = Some (Ok r))
    as Hall.
  { intros fuel Hf. unfold _graph_search. rewrite Hadd.
    by eapply search_loop_mono. }
  exists fuel0, r. split; [done|]. split; [done|].
  intros fringe1 k E fr Hadd' Hst H0.
  rewrite Hadd in Hadd'. injection Hadd' as <-.
  pose proof (loop_state_empty _ _ _ _ _ _ Hst H0) as Hfail.
  pose proof (search_loop_mono _ (Nat.max fuel0 (S k)) _ _ _ _ Hr
                ltac:(lia)) as H1.
  pose proof (search_loop_mono _ (Nat.max fuel0 (S k)) _ _ _ _ Hfail
                ltac:(lia)) as H2.
  congruence.
Qed.

Lemma driver_total_witness :
  ∃ fuel0 r,
    (∀ fuel, (fuel0 ≤ fuel)%nat →
             _graph_search fuel start_21_3 goal_213_
               (PriorityQueue_new GBFS_f) = Some (Ok r)) ∧
    outcome goal_213_ r ∧
    (∀ fringe1 k expanded fringe,
       Fringe_add (PriorityQueue_new GBFS_f) start_21_3 goal_213_
         = Ok fringe1 →
       loop_state k goal_213_ ∅ fringe1 = Some (expanded, fringe) →
       Fringe_len fringe = 0 →
       r = search_failed).
Proof.
  apply (driver_total (PriorityQueue_new GBFS_f) start_21_3 goal_213_).
  - unfold driver_fringes. do 2 right. left.
  - exact start_21_3_valid.
  - intros _ c. unfold start_21_3, goal_213_, chars. simpl.
    rewrite !elem_of_cons. tauto.
Defined.

(** Two valid States over different symbols: the informed searches raise
    [ValueError] while generating the start's heuristic, before the loop is
    entered. *)
Lemma informed_search_raises :
  create (chars "ab c") 2 = Ok start_ab_c ∧
  create (chars "213 ") 2 = Ok goal_213_ ∧
  GBFS 1 start_ab_c goal_213_ = Some (Raise ValueError) ∧
  AStar 1 start_ab_c goal_213_ = Some (Raise ValueError).
Proof. repeat split. Qed.

(** The uninformed searches on the same pair exhaust the arrangements the
    start can reach and report failure. *)
Example uninformed_search_fails :
  BFS 40 start_ab_c goal_213_ = Some (Ok search_failed) ∧
  DFS 40 start_ab_c goal_213_ = Some (Ok search_failed).
Proof. split; vm_compute; reflexivity. Qed.

(** An unsolvable instance over one alphabet: every algorithm empties its
    fringe and reports failure. *)
Example unsolvable_2x2_fails :
  let start := mkSlideBoard (chars "123 ") 2 3 None 0 None in
  create (chars "123 ") 2 = Ok start ∧
  BFS 40 start goal_213_ = Some (Ok search_failed) ∧
  DFS 40 start goal_213_ = Some (Ok search_failed) ∧
  GBFS 40 start goal_213_ = Some (Ok search_failed) ∧
  AStar 40 start goal_213_ = Some (Ok search_failed).
Proof. repeat split; vm_compute; reflexivity. Qed.

(** ** What a successful search returns *)

Lemma space_move_inv b chk j b' :
  _space_move b chk j = Ok (Some b') →
  heuristic b' = None ∧ depth b' = depth b + 1 ∧ parent b' = Some b ∧
  n b' = n b ∧ _space_ind b' = j.
Proof.
  unfold _space_move. destruct chk; simpl; [|done].
  intros H. do 2 bind_inv H. by injection H as <-.
Qed.

Lemma move_inv d b b' :
  move d b = Ok (Some b') →
  heuristic b' = None ∧ depth b' = depth b + 1 ∧ parent b' = Some b.
Proof.
  destruct d; simpl; unfold space_up, space_down, space_left, space_right;
    intros H; try bind_inv H; apply space_move_inv in H; tauto.
Qed.

Lemma set_heuristic_moved d b b' h :
  move d b = Ok (Some b') → set_heuristic (set_heuristic b' h) None = b'.
Proof.
  intros (Hh & _)%move_inv. destruct b'; simpl in *. by subst.
Qed.

Lemma reached_set_heuristic start node h :
  reached start node → reached start (set_heuristic node h).
Proof.
  intros H. inversion H as [? Hs|p d child ? Hp Hm Hs]; subst.
  - by apply reached_start.
  - by eapply reached_move.
Qed.

Lemma insort_left_Permutation {A} (key : A → result Z) l x l' :
  insort_left key l x = Ok l' → l' ≡ₚ x :: l.
Proof.
  unfold insort_left. intros H. do 2 bind_inv H. injection H as <-.
  apply list_insert_at_Permutation.
Qed.

Lemma add_entries c st c' :
  _add c st = Ok c' → entries c' ≡ₚ st :: entries c.
Proof.
  destruct c as [d|s|l f]; simpl.
  - intros [= <-]. symmetry. apply Permutation_cons_append.
  - intros [= <-]. symmetry. apply Permutation_cons_append.
  - intros H. bind_inv H. injection H as <-. simpl.
    by eapply insort_left_Permutation.
Qed.

Section Reached.
Variables start goal_state : SlideBoard.

Lemma Fringe_add_reached fr st fr' :
  all_reached start fr → reached start st →
  Fringe_add fr st goal_state = Ok fr' → all_reached start fr'.
Proof.
  intros Hall Hst (st' & c & Hg & Hadd & ->)%Fringe_add_inv.
  unfold all_reached. simpl. rewrite (add_entries _ _ _ Hadd).
  constructor; [|done].
  destruct (_uses_heuristic fr).
  - apply generate_heuristic_inv in Hg as (h & _ & ->).
    by apply reached_set_heuristic.
  - by injection Hg as <-.
Qed.

Lemma Fringe_remove_reached fr x fr' :
  all_reached start fr → Fringe_remove fr = Ok (Some x, fr') →
  reached start x ∧ all_reached start fr'.
Proof.
  intros Hall [(? & _)|(y & c & [= <-] & Hr & ->)]%Fringe_remove_inv;
    [done|].
  apply remove_inv in Hr as (_ & Hx & Hsub).
  unfold all_reached in *. rewrite Forall_forall in Hall. split.
  - by apply Hall.
  - apply Forall_forall. intros z Hz. by apply Hall, Hsub.
Qed.

Lemma try_add_reached fr expanded node d o fr' :
  all_reached start fr → reached start node → move d node = Ok o →
  _try_add fr expanded goal_state o = Ok fr' → all_reached start fr'.
Proof.
  intros Hall Hn Hm. destruct o as [child|]; simpl.
  - case_bool_decide; [by intros [= <-]|].
    apply Fringe_add_reached; [done|].
    eapply reached_move; [done..|].
    destruct (move_inv _ _ _ Hm) as (Hh & _).
    destruct child; simpl in *. by subst.
  - by intros [= <-].
Qed.

Lemma search_loop_reached fuel expanded fr node d created count mark :
  all_reached start fr →
  search_loop fuel goal_state expanded fr
    = Some (Ok (Some node, d, created, count, mark)) →
  reached start node ∧ tiles node = tiles goal_state ∧ d = depth node.
Proof.
  revert expanded fr. induction fuel as [|fuel IH]; intros E fr Hall;
    [done|].
  simpl. destruct (Fringe_len fr =? 0); [done|].
  destruct (loop_body goal_state E fr) as [st|] eqn:Hb; [|done].
  apply loop_body_inv in Hb.
  inversion Hb as [x fr1 Hr Hin|x fr1 Hr Hin Heq|
    x fr1 up fr2 down fr3 left fr4 right fr5 E' Hr Hin Hne
      Hu H2 Hd H3 Hl H4 Hrt H5]; subst.
  - destruct (Fringe_remove_reached _ _ _ Hall Hr) as [_ Hall1].
    by apply IH.
  - destruct (Fringe_remove_reached _ _ _ Hall Hr) as [Hx _].
    by intros [= <- <- _ _ _].
  - destruct (Fringe_remove_reached _ _ _ Hall Hr) as [Hx Hall1].
    pose proof (try_add_reached fr1 _ x Up _ _ Hall1 Hx Hu H2) as Hall2.
    pose proof (try_add_reached fr2 _ x Down _ _ Hall2 Hx Hd H3) as Hall3.
    pose proof (try_add_reached fr3 _ x Left _ _ Hall3 Hx Hl H4) as Hall4.
    pose proof (try_add_reached fr4 _ x Right _ _ Hall4 Hx Hrt H5) as Hall5.
    by apply IH.
Qed.
End Reached.

Lemma reached_chain start node :
  reached start node →
  ∃ extra, parent_chain node
           = extra ++ match parent start with
                      | Some p => parent_chain p
                      | None => []
                      end ∧
           depth node = depth start + Z.of_nat (length extra) - 1 ∧
           (tiles <$> last extra) = Some (tiles start) ∧
           (tiles <$> head extra) = Some (tiles node).
Proof.
  induction 1 as [node Hs|p d child node Hp IH Hm Hs].
  - exists [node]. destruct node, start; simpl in *.
    injection Hs as -> -> -> -> ->.
    split; [done|]. split; [lia|]. by split.
  - destruct IH as (extra & Hc & Hd & Hl & Hh).
    destruct (move_inv _ _ _ Hm) as (_ & Hd' & Hp').
    exists (node :: extra).
    assert (parent node = Some p ∧ depth node = depth p + 1) as [Hpn Hdn].
    { destruct node, child; simpl in *.
      injection Hs as ? ? ? ? ? ?. by subst. }
    split; [|split; [|split]].
    + destruct node; simpl in *. subst. by rewrite Hc.
    + simpl. lia.
    + destruct extra; [done|]. done.
    + done.
Qed.

(** X1. On success the driver returns a State come to from the start by legal
    moves along its parent references: the path printed begins with the
    start's configuration and ends with the goal's, and the depth reported
    is the number of moves on it. *)
Theorem solution_is_path (str_rep : str) (side : Z)
    (start goal_state node : SlideBoard) (fringe0 : Fringe) (fuel : nat)
    (d created count mark : Z) :
  create str_rep side = Ok start →
  entries (store fringe0) = [] →
  _graph_search fuel start goal_state fringe0
    = Some (Ok (Some node, d, created, count, mark)) →
  reached start node ∧
  head (solution_path node) = Some (tiles start) ∧
  last (solution_path node) = Some (tiles goal_state) ∧
  d = Z.of_nat (length (solution_path node)) - 1.
Proof.
  intros Hc He. unfold _graph_search.
  destruct (Fringe_add fringe0 start goal_state) as [fr1|] eqn:Hadd; [|done].
  intros Hs.
  assert (all_reached start fr1) as Hall.
  { eapply Fringe_add_reached; [|by apply reached_start|done].
    unfold all_reached. by rewrite He. }
  destruct (search_loop_reached _ _ _ _ _ _ _ _ _ _ Hall Hs)
    as (Hr & Ht & ->).
  split; [done|].
  destruct (reached_chain _ _ Hr) as (extra & Hchain & Hd & Hl & Hh).
  apply create_Ok in Hc as [_ (i & _ & ->)]. simpl in *.
  rewrite app_nil_r in Hchain. unfold solution_path. rewrite Hchain.
  rewrite fmap_reverse, head_reverse, last_reverse, length_reverse,
    length_fmap, fmap_last.
  split; [done|]. split; [|lia].
  destruct extra; simpl in *; congruence.
Qed.

Lemma solution_is_path_witness :
  let node := set_heuristic (moved start_21_3 3) (Some 0) in
  let node :=
    mkSlideBoard (tiles node) (n node) (_space_ind node) (heuristic node)
      (depth node) (Some (set_heuristic start_21_3 (Some 1))) in
  reached start_21_3 node ∧
  head (solution_path node) = Some (tiles start_21_3) ∧
  last (solution_path node) = Some (tiles goal_213_) ∧
  1 = Z.of_nat (length (solution_path node)) - 1.
Proof.
  cbv zeta.
  apply (solution_is_path (chars "21 3") 2 start_21_3 goal_213_ _
           (PriorityQueue_new GBFS_f) 3 1 2 1 2).
  - reflexivity.
  - reflexivity.
  - vm_compute. reflexivity.
Defined.

Lemma search_loop_inv fuel goal_state expanded fr r :
  search_loop fuel goal_state expanded fr = Some (Ok r) →
  ∃ k expanded' fr',
    loop_state k goal_state expanded fr = Some (expanded', fr') ∧
    ((Fringe_len fr' = 0 ∧ r = search_failed) ∨
     loop_body goal_state expanded' fr' = Ok (Return r)).
Proof.
  revert expanded fr. induction fuel as [|fuel IH]; intros E fr; [done|].
  simpl. destruct (Z.eqb_spec (Fringe_len fr) 0) as [H0|H0].
  { intros [= <-]. exists 0%nat, E, fr. split; [done|]. by left. }
  destruct (loop_body goal_state E fr) as [[E1 fr1|a]|] eqn:Hb; [| |done].
  - intros (k & E' & fr' & Hs & Hr)%IH. exists (S k), E', fr'. simpl.
    destruct (Z.eqb_spec (Fringe_len fr) 0); [done|]. by rewrite Hb.
  - intros [= <-]. exists 0%nat, E, fr. split; [done|]. by right.
Qed.

Lemma try_add_calls_run (fr : Fringe) (E : gset str) goal_state o fr' :
  _try_add fr E goal_state o = Ok fr' →
  run_ops fr (try_add_calls E goal_state o) = Ok fr'.
Proof.
  destruct o as [c|]; simpl; [|by intros [= <-]].
  case_bool_decide; [by intros [= <-]|]. intros Hadd. simpl. by rewrite Hadd.
Qed.

Lemma body_calls_continue goal_state E fr E' fr' :
  loop_body goal_state E fr = Ok (Continue E' fr') →
  run_ops fr (body_calls goal_state E fr) = Ok fr'.
Proof.
  intros Hb%loop_body_inv. unfold body_calls.
  inversion Hb as [x fr1 Hr Hin| |
    x fr1 up fr2 down fr3 left fr4 right fr5 E0 Hr Hin Hne
      Hup H2 Hdn H3 Hlf H4 Hrt H5]; subst; rewrite Hr.
  - rewrite bool_decide_eq_true_2 by done. by eapply Fringe_remove_ops.
  - rewrite bool_decide_eq_false_2 by done.
    apply SlideBoard_eq_false in Hne. rewrite Hne, Hup, Hdn, Hlf, Hrt.
    cbn [flat_map]. rewrite app_nil_r.
    change (run_ops fr
              ([CallRemove] ++ try_add_calls E0 goal_state up
               ++ try_add_calls E0 goal_state down
               ++ try_add_calls E0 goal_state left
               ++ try_add_calls E0 goal_state right) = Ok fr').
    eapply run_ops_trans; [by eapply Fringe_remove_ops|].
    eapply run_ops_trans; [by apply try_add_calls_run|].
    eapply run_ops_trans; [by apply try_add_calls_run|].
    eapply run_ops_trans; [by apply try_add_calls_run|].
    by apply try_add_calls_run.
Qed.

Lemma body_calls_return goal_state E fr r :
  loop_body goal_state E fr = Ok (Return r) →
  ∃ node fr', Fringe_remove fr = Ok (Some node, fr') ∧
    body_calls goal_state E fr = [CallRemove] ∧
    r = (Some node, depth node, _num_created fr', Z.of_nat (size E),
         _max_fringe fr') ∧
    tiles node ∉ E.
Proof.
  intros Hb%loop_body_inv. unfold body_calls.
  inversion Hb as [|x fr1 Hr Hin Heq|]; subst. exists x, fr1.
  rewrite Hr. rewrite bool_decide_eq_false_2 by done.
  apply SlideBoard_eq_true in Heq. by rewrite Heq.
Qed.

Lemma search_loop_calls fuel goal_state E fr node d created count mark :
  search_loop fuel goal_state E fr
    = Some (Ok (Some node, d, created, count, mark)) →
  ∃ k E' fr' fr_end,
    loop_state k goal_state E fr = Some (E', fr') ∧
    loop_body goal_state E' fr'
      = Ok (Return (Some node, d, created, count, mark)) ∧
    run_ops fr (loop_calls fuel goal_state E fr) = Ok fr_end ∧
    created = _num_created fr_end ∧ mark = _max_fringe fr_end ∧
    count = Z.of_nat (size E') ∧ tiles node ∉ E'.
Proof.
  revert E fr. induction fuel as [|fuel IH]; intros E fr; [done|].
  simpl. destruct (Z.eqb_spec (Fringe_len fr) 0) as [H0|H0]; [done|].
  destruct (loop_body goal_state E fr) as [[E1 fr1|a]|] eqn:Hb; [| |done].
  - intros (k & E' & fr' & fr_end & Hst & Hret & Hrun & Hrest)%IH.
    exists (S k), E', fr', fr_end. simpl.
    destruct (Z.eqb_spec (Fringe_len fr) 0); [done|]. rewrite Hb.
    split; [done|]. split; [done|]. split; [|done].
    eapply run_ops_trans; [by eapply body_calls_continue|done].
  - intros [= ->].
    destruct (body_calls_return _ _ _ _ Hb)
      as (x & fr' & Hr & -> & [= -> -> -> -> ->] & Hin).
    exists 0%nat, E, fr, fr'. split; [done|]. split; [done|].
    split; [by eapply Fringe_remove_ops|]. done.
Qed.

(** X2. The statistics a successful search reports, for a fringe a
    constructor built.  With the log of the calls the driver made on the
    fringe (the start's [add], then, pass by pass, the [remove] and the
    [add] of each successor not yet expanded, up to the [remove] that took
    the returned State): the reported number of created States is the
    number of [add] calls in the log less one; the reported largest fringe
    size is the largest size the fringe went through along the log; and the
    reported number of expanded nodes is the size of the expanded set at
    the head of the pass that returned, which does not hold the returned
    State's configuration. *)
Theorem reported_statistics (fringe0 : Fringe)
    (start goal_state node : SlideBoard) (fuel : nat)
    (d created count mark : Z) :
  new_fringe fringe0 →
  _graph_search fuel start goal_state fringe0
    = Some (Ok (Some node, d, created, count, mark)) →
  ∃ fringe1 k (expanded : gset str) fringe,
    Fringe_add fringe0 start goal_state = Ok fringe1 ∧
    loop_state k goal_state ∅ fringe1 = Some (expanded, fringe) ∧
    loop_body goal_state expanded fringe
      = Ok (Return (Some node, d, created, count, mark)) ∧
    let trace :=
      CallAdd start goal_state :: loop_calls fuel goal_state ∅ fringe1 in
    is_Ok (run_ops fringe0 trace) ∧
    created = count_adds trace - 1 ∧
    mark = largest (sizes fringe0 trace) ∧
    count = Z.of_nat (size expanded) ∧
    tiles node ∉ expanded.
Proof.
  intros Hnew%new_fringe_brand_new. unfold _graph_search.
  destruct (Fringe_add fringe0 start goal_state) as [fr1|] eqn:Hadd; [|done].
  intros (k & E & fr & fr_end & Hst & Hret & Hrun & -> & -> & -> & Hin)
    %search_loop_calls.
  exists fr1, k, E, fr. split; [done|]. split; [done|]. split; [done|].
  cbv zeta.
  assert (run_ops fringe0
            (CallAdd start goal_state :: loop_calls fuel goal_state ∅ fr1)
          = Ok fr_end) as Hall by (simpl; by rewrite Hadd).
  destruct (brand_new_stats _ _ _ Hnew Hall) as [Hc Hm].
  split; [by eexists|]. by repeat split.
Qed.

Lemma reported_statistics_witness :
  ∃ fringe1 k (expanded : gset str) fringe,
    Fringe_add Queue_new start_21_3 goal_213_ = Ok fringe1 ∧
    loop_state k goal_213_ ∅ fringe1 = Some (expanded, fringe) ∧
    loop_body goal_213_ expanded fringe
      = Ok (Return (Some (moved start_21_3 3), 1, 3, 2, 2)) ∧
    let trace :=
      CallAdd start_21_3 goal_213_ :: loop_calls 3 goal_213_ ∅ fringe1 in
    is_Ok (run_ops Queue_new trace) ∧
    3 = count_adds trace - 1 ∧
    2 = largest (sizes Queue_new trace) ∧
    2 = Z.of_nat (size expanded) ∧
    tiles (moved start_21_3 3) ∉ expanded.
Proof.
  apply (reported_statistics Queue_new start_21_3 goal_213_
           (moved start_21_3 3) 3 1 3 2 2).
  - exact new_Queue.
  - vm_compute. reflexivity.
Defined.

(** The log of the breadth-first run on the 2×2 example: the start's
    [add]; a [remove] and the [add] of the two successors; a [remove] and
    the [add] of the one successor not expanded; the [remove] that takes
    the goal. *)
Example loop_calls_example :
  CallAdd start_21_3 goal_213_
  :: loop_calls 3 goal_213_ ∅ (mkFringe false 0 1 (Queue [start_21_3]))
  = [CallAdd start_21_3 goal_213_;
     CallRemove;
     CallAdd (moved start_21_3 0) goal_213_;
     CallAdd (moved start_21_3 3) goal_213_;
     CallRemove;
     CallAdd (moved (moved start_21_3 0) 1) goal_213_;
     CallRemove].
Proof. vm_compute. reflexivity. Qed.

(** X3. The moves skip the checks of [create]; they do not need them: a State
    built by a move from a valid State is valid, of the same size and over
    the same symbols. *)
Theorem moves_keep_invariants (b b' : SlideBoard) (d : direction) :
  valid_board b →
  move d b = Ok (Some b') →
  valid_board b' ∧ n b' = n b ∧ tiles b' ≡ₚ tiles b ∧
  heuristic b' = None.
Proof.
  intros Hv Hm. split; [by eapply move_valid|].
  destruct (move_inv _ _ _ Hm) as (Hh & _).
  rewrite move_spec in Hm by done. case_decide; [done|].
  injection Hm as <-. split; [done|]. split; [|done].
  apply moved_tiles_Permutation.
Qed.

Lemma moves_keep_invariants_witness :
  valid_board (moved start_21_3 3) ∧
  n (moved start_21_3 3) = n start_21_3 ∧
  tiles (moved start_21_3 3) ≡ₚ tiles start_21_3 ∧
  heuristic (moved start_21_3 3) = None.
Proof.
  apply (moves_keep_invariants start_21_3 (moved start_21_3 3) Right).
  - exact start_21_3_valid.
  - reflexivity.
Defined.

(** ** The priority queue over State objects *)

Lemma list_pop_ref_inv l x l' :
  list_pop_ref l = Ok (x, l') → l = l' ++ [x].
Proof.
  unfold list_pop_ref. destruct l as [|e l0 _] using rev_ind; [done|].
  rewrite last_snoc. intros [= <- <-].
  rewrite length_app. simpl.
  replace (length l0 + 1 - 1)%nat with (length l0) by lia.
  by rewrite take_app_length.
Qed.


Lemma Fringe_add_ref_inv h fr r goal h' fr' :
  Fringe_add_ref h fr r goal = Ok (h', fr') →
  ∃ c,
    (if ref_uses_heuristic fr then generate_heuristic_at h r goal
     else Ok h) = Ok h' ∧
    _add_ref h' (ref_store fr) r = Ok c ∧
    fr' = mkRefFringe (ref_uses_heuristic fr) (ref_num_created fr + 1)
            (Z.max (ref_max_fringe fr) (Z.of_nat (length (refs c)))) c.
Proof.
  unfold Fringe_add_ref.
  destruct (if ref_uses_heuristic fr then _ else _) as [h1|] eqn:Hh;
    [|done].
  cbn [mbind result_bind].
  destruct (_add_ref h1 (ref_store fr) r) as [c|] eqn:Hc; [|done].
  cbn [mbind result_bind]. intros H. exists c.
  destruct (Z.ltb_spec (ref_max_fringe fr) (Z.of_nat (length (refs c))));
    injection H as <- <-; (split; [done|]); (split; [done|]); f_equal; lia.
Qed.

Lemma generate_heuristic_at_inv h r goal h' :
  generate_heuristic_at h r goal = Ok h' →
  ∃ st st', h !! r = Some st ∧ generate_heuristic st goal = Ok st' ∧
            h' = <[r := st']> h ∧ h' !! r = Some st'.
Proof.
  unfold generate_heuristic_at, deref. intros H.
  destruct (h !! r) as [st|] eqn:Hr; [|done]. cbn [mbind result_bind] in H.
  destruct (generate_heuristic st goal) as [st'|] eqn:Hg; [|done].
  injection H as <-. exists st, st'. repeat split; try done.
  apply list_lookup_insert_eq. by eapply lookup_lt_Some.
Qed.

Lemma Fringe_remove_ref_inv fr o fr' :
  Fringe_remove_ref fr = Ok (o, fr') →
  (o = None ∧ fr' = fr ∧ refs (ref_store fr) = []) ∨
  (∃ x c, o = Some x ∧ _remove_ref (ref_store fr) = Ok (x, c) ∧
          fr' = mkRefFringe (ref_uses_heuristic fr) (ref_num_created fr)
                  (ref_max_fringe fr) c).
Proof.
  unfold Fringe_remove_ref, RefFringe_len.
  destruct (Z.eqb_spec (Z.of_nat (length (refs (ref_store fr)))) 0)
    as [H0|H0]; simpl.
  - intros [= <- <-]. left. split; [done|]. split; [done|].
    destruct (refs (ref_store fr)); [done|simpl in H0; lia].
  - destruct (_remove_ref (ref_store fr)) as [[x c]|] eqn:Hr; [|done].
    intros [= <- <-]. right. by exists x, c.
Qed.


Section ScoreAgreement.
Context {A : Type}.
Variables s1 s2 : A → Z.


End ScoreAgreement.

Lemma run_ref_ops_app s ops1 ops2 :
  run_ref_ops s (ops1 ++ ops2)
  = (s' ← run_ref_ops s ops1; run_ref_ops s' ops2).
Proof.
  revert s. induction ops1 as [|o ops1 IH]; intros s; simpl; [done|].
  destruct (apply_ref_op s o); simpl; [apply IH | done].
Qed.


Section PriorityQueueObjects.
Variable f : SlideBoard → result pyint.
Variable score : SlideBoard → Z.
Hypothesis f_score : ∀ st, scored st → f st = Ok (Some (score st)).






End PriorityQueueObjects.



(** ** Objects added once

    The driver adds every State object once.  Such a trace leaves the
    stored objects as they are. *)

Lemma add_ref_refs h c r c' :
  _add_ref h c r = Ok c' → refs c' ≡ₚ r :: refs c.
Proof.
  destruct c as [d|s|l f]; simpl.
  - intros [= <-]. symmetry. apply Permutation_cons_append.
  - intros [= <-]. symmetry. apply Permutation_cons_append.
  - intros H. bind_inv H. injection H as <-. simpl.
    by eapply insort_left_Permutation.
Qed.

Lemma remove_ref_refs c x c' :
  _remove_ref c = Ok (x, c') → refs c ≡ₚ x :: refs c'.
Proof.
  destruct c as [d|st|l f]; simpl.
  - destruct d as [|y d]; [done|]. by intros [= <- <-].
  - destruct (list_pop_ref st) as [[y st']|] eqn:Hp; [|done].
    intros [= <- <-]. apply list_pop_ref_inv in Hp as ->. simpl.
    symmetry. apply Permutation_cons_append.
  - destruct (list_pop_ref l) as [[y l']|] eqn:Hp; [|done].
    intros [= <- <-]. apply list_pop_ref_inv in Hp as ->. simpl.
    symmetry. apply Permutation_cons_append.
Qed.

Lemma add_unstored_untouched h fr r goal h' fr' :
  Fringe_add_ref h fr r goal = Ok (h', fr') →
  r ∉ refs (ref_store fr) →
  Forall (λ e, h' !! e = h !! e) (refs (ref_store fr)) ∧
  refs (ref_store fr') ≡ₚ r :: refs (ref_store fr).
Proof.
  intros (c & Hg & Hadd & ->)%Fringe_add_ref_inv Hr. simpl.
  split; [|by eapply add_ref_refs].
  apply Forall_forall. intros e He.
  destruct (ref_uses_heuristic fr); [|by injection Hg as <-].
  apply generate_heuristic_at_inv in Hg as (st & st' & _ & _ & -> & _).
  apply list_lookup_insert_ne. by intros <-.
Qed.

Lemma added_once_untouched s ops :
  NoDup (added ops) →
  (∀ r, r ∈ added ops → r ∉ refs (ref_store s.2)) →
  stored_untouched s ops.
Proof.
  revert s. induction ops as [|o ops IH]; intros [h fr]; simpl; [done|].
  intros Hnd Hout.
  destruct (apply_ref_op (h, fr) o) as [[h1 fr1]|] eqn:Ho; [|done].
  destruct o as [r goal|]; simpl in *.
  - apply NoDup_cons in Hnd as [Hr Hnd].
    destruct (add_unstored_untouched _ _ _ _ _ _ Ho) as [Hun Hp].
    { apply Hout. by left. }
    split; [done|]. apply IH; [done|]. simpl. intros e He.
    rewrite Hp. apply not_elem_of_cons. split.
    + by intros ->.
    + apply Hout. by right.
  - destruct (Fringe_remove_ref fr) as [[o fr2]|] eqn:Hr; [|done].
    injection Ho as <- <-. split; [by apply Forall_forall|].
    apply IH; [done|]. simpl. intros e He Hin. apply (Hout e He).
    apply Fringe_remove_ref_inv in Hr
      as [(_ & -> & _)|(x & c & _ & Hrm & ->)]; [done|].
    apply remove_ref_refs in Hrm. rewrite Hrm. by right.
Qed.

(** ** The fringe of values is the fringe of objects, read through the
    store

    [Fringe_add] and [Fringe_remove] on values do what the operations on
    references do, as long as an [add] leaves the stored objects as they
    are. *)








(** ** Equal States have equal successors *)

Lemma valid_space_ind_unique b1 b2 :
  valid_board b1 → valid_board b2 → tiles b1 = tiles b2 →
  _space_ind b1 = _space_ind b2.
Proof.
  intros [_ _ Hnd Hn1 Hb1] [_ _ _ Hn2 Hb2] Ht. rewrite <- Ht in Hb2.
  pose proof (NoDup_lookup _ _ _ _ Hnd Hb1 Hb2). lia.
Qed.

Lemma valid_side_unique b1 b2 :
  valid_board b1 → valid_board b2 → tiles b1 = tiles b2 → n b1 = n b2.
Proof.
  intros [Hn1 Hl1 _ _ _] [Hn2 Hl2 _ _ _] Ht. rewrite Ht in Hl1. nia.
Qed.

Lemma moved_same_tiles b1 b2 d :
  valid_board b1 → valid_board b2 → tiles b1 = tiles b2 →
  move d b2 = match move d b1 with
              | Ok (Some _) =>
                  Ok (Some (moved b2 (_space_ind b2 + index_shift d b2)))
              | other => other
              end ∧
  tiles (moved b2 (_space_ind b2 + index_shift d b2))
  = tiles (moved b1 (_space_ind b1 + index_shift d b1)).
Proof.
  intros Hv1 Hv2 Ht.
  pose proof (valid_space_ind_unique _ _ Hv1 Hv2 Ht) as Hs.
  pose proof (valid_side_unique _ _ Hv1 Hv2 Ht) as Hn.
  assert (index_shift d b1 = index_shift d b2) as Hi
    by (destruct d; simpl; congruence).
  assert (on_edge d b1 ↔ on_edge d b2) as He.
  { destruct d; simpl; unfold blank_row, blank_col; by rewrite Hs, Hn. }
  split.
  - rewrite !move_spec by done.
    destruct (decide (on_edge d b1)), (decide (on_edge d b2)); tauto.
  - simpl. by rewrite Ht, Hs, Hi.
Qed.

(** X4. Duplicate detection by tiles is sound: two valid States that
    compare equal have the same legal moves, and the States a move builds
    from them compare equal again. *)
Theorem equal_states_equal_successors (b1 b2 : SlideBoard) (d : direction) :
  valid_board b1 → valid_board b2 →
  SlideBoard_eq b1 (Some b2) = true →
  match move d b1, move d b2 with
  | Ok (Some c1), Ok (Some c2) =>
      SlideBoard_eq c1 (Some c2) = true ∧ _space_ind c1 = _space_ind c2
  | Ok None, Ok None => True
  | _, _ => False
  end.
Proof.
  intros Hv1 Hv2 Ht%SlideBoard_eq_true.
  destruct (moved_same_tiles b1 b2 d Hv1 Hv2 Ht) as [Hm Htm].
  pose proof (valid_space_ind_unique _ _ Hv1 Hv2 Ht) as Hs.
  rewrite Hm. rewrite move_spec by done.
  case_decide; [done|]. split.
  - by apply SlideBoard_eq_true.
  - simpl. rewrite Hs. f_equal. destruct d; simpl; try done;
      by rewrite (valid_side_unique _ _ Hv1 Hv2 Ht).
Qed.

Lemma equal_states_equal_successors_witness :
  match move Up start_21_3, move Up (set_heuristic (moved (moved start_21_3 0) 2) (Some 7)) with
  | Ok (Some c1), Ok (Some c2) =>
      SlideBoard_eq c1 (Some c2) = true ∧ _space_ind c1 = _space_ind c2
  | Ok None, Ok None => True
  | _, _ => False
  end.
Proof.
  apply (equal_states_equal_successors start_21_3
           (set_heuristic (moved (moved start_21_3 0) 2) (Some 7)) Up).
  - exact start_21_3_valid.
  - apply good_set_heuristic with (start := start_21_3).
    split; [|reflexivity].
    apply moved_valid; [|done].
    by apply moved_valid; [exact start_21_3_valid|].
  - reflexivity.
Defined.

(** ** Walks *)

Lemma moves_keep_invariants_aux b b' d :
  valid_board b → move d b = Ok (Some b') →
  n b' = n b ∧ tiles b' ≡ₚ tiles b.
Proof.
  intros Hv Hm. rewrite move_spec in Hm by done. case_decide; [done|].
  injection Hm as <-. split; [done|]. apply moved_tiles_Permutation.
Qed.

Lemma walk_trans k a i b m c :
  walk k a i b → walk k b m c → walk k a (i + m) c.
Proof.
  intros Hab Hbc. induction Hbc as [|m t t' Hbt IH Hadj].
  - by rewrite Nat.add_0_r.
  - rewrite Nat.add_succ_r. by eapply walk_S.
Qed.

Lemma adjacent_move b d c :
  valid_board b → move d b = Ok (Some c) → adjacent (n b) (tiles b) (tiles c).
Proof. intros Hv Hm. by exists b, d, c. Qed.

(** A neighbour of a State's configuration is the configuration of one of
    the State's successors. *)
Lemma adjacent_successor b t :
  valid_board b → adjacent (n b) (tiles b) t →
  ∃ d c, move d b = Ok (Some c) ∧ tiles c = t.
Proof.
  intros Hv (b0 & d & c0 & Hv0 & Hn & Ht & Hm & <-).
  destruct (moved_same_tiles b0 b d Hv0 Hv Ht) as [Hmb Htm].
  rewrite Hm in Hmb. exists d. eexists. split; [done|].
  rewrite Htm. rewrite move_spec in Hm by done.
  case_decide; [done|]. by injection Hm as <-.
Qed.

Lemma same_place_valid e c : same_place e c → valid_board c → valid_board e.
Proof.
  intros (Ht & Hn & Hs & _) [? ? ? ? ?].
  split; by rewrite ?Ht, ?Hn, ?Hs.
Qed.

Lemma same_place_refl c : same_place c c.
Proof. done. Qed.

Lemma same_place_set_heuristic c h : same_place (set_heuristic c h) c.
Proof. done. Qed.

Lemma entry_ok_child start x d c e :
  entry_ok start x → move d x = Ok (Some c) → same_place e c →
  entry_ok start e.
Proof.
  intros (Hv & Hn & j & Hw & Hd) Hm Hsp.
  pose proof (move_valid _ _ _ Hv Hm) as Hvc.
  destruct (moves_keep_invariants_aux x c d Hv Hm) as (Hnc & _).
  destruct (move_inv _ _ _ Hm) as (_ & Hdc & _).
  destruct Hsp as (Ht & Hne & Hs & Hde).
  split; [by apply (same_place_valid e c)|]. split; [congruence|].
  exists (S j). split.
  - rewrite Ht. eapply walk_S; [done|]. rewrite <- Hn.
    by eapply adjacent_move.
  - lia.
Qed.

(** ** The invariant of the driver's loop *)

Lemma remove_Permutation c x c' :
  _remove c = Ok (x, c') → entries c ≡ₚ x :: entries c'.
Proof.
  destruct c as [d|st|l f]; simpl.
  - destruct d as [|y d]; [done|]. by intros [= <- <-].
  - destruct (list_pop st) as [[y st']|] eqn:Hp; [|done].
    intros [= <- <-]. apply list_pop_inv in Hp as ->. simpl.
    symmetry. apply Permutation_cons_append.
  - destruct (list_pop l) as [[y l']|] eqn:Hp; [|done].
    intros [= <- <-]. apply list_pop_inv in Hp as ->. simpl.
    symmetry. apply Permutation_cons_append.
Qed.

Lemma Fringe_remove_Permutation fr x fr1 :
  Fringe_remove fr = Ok (Some x, fr1) →
  entries (store fr) ≡ₚ x :: entries (store fr1).
Proof.
  intros [(? & _)|(y & c & [= <-] & Hr & ->)]%Fringe_remove_inv; [done|].
  by apply remove_Permutation.
Qed.

Lemma Fringe_add_entries fr st goal_state fr' :
  Fringe_add fr st goal_state = Ok fr' →
  ∃ st', same_place st' st ∧
         (_uses_heuristic fr = true →
          generate_heuristic st goal_state = Ok st') ∧
         (_uses_heuristic fr = false → st' = st) ∧
         entries (store fr') ≡ₚ st' :: entries (store fr).
Proof.
  intros (st' & c & Hg & Hadd & ->)%Fringe_add_inv. exists st'.
  simpl. rewrite (add_entries _ _ _ Hadd).
  destruct (_uses_heuristic fr).
  - apply generate_heuristic_inv in Hg as Hh. destruct Hh as (h & _ & ->).
    by repeat split.
  - injection Hg as <-. by repeat split.
Qed.

Lemma try_add_entries (fr : Fringe) (E : gset str) goal_state o fr' :
  _try_add fr E goal_state o = Ok fr' →
  (∀ e, e ∈ entries (store fr) → e ∈ entries (store fr')) ∧
  (∀ e, e ∈ entries (store fr') →
        e ∈ entries (store fr) ∨ ∃ c, o = Some c ∧ same_place e c) ∧
  (∀ c, o = Some c →
        tiles c ∈ E ∨ ∃ e, e ∈ entries (store fr') ∧ same_place e c).
Proof.
  destruct o as [c|]; simpl.
  - case_bool_decide as Hin.
    + intros [= <-]. repeat split; try tauto. intros c' [= <-]. by left.
    + intros (st' & Hsp & _ & _ & Hp)%Fringe_add_entries.
      split; [|split].
      * intros e He. rewrite Hp. by right.
      * intros e He. rewrite Hp in He.
        apply elem_of_cons in He as [->|He]; [right; eauto | by left].
      * intros c' [= <-]. right. exists st'. split; [|done].
        rewrite Hp. by left.
  - intros [= <-]. repeat split; try tauto. done.
Qed.

Section SearchInvariant.
Variable tight : bool.
Variables start goal_state : SlideBoard.
Variable eta : str → Z.
Hypothesis eta_step :
  ∀ j t t', walk (n start) (tiles start) j t → adjacent (n start) t t' →
            eta t ≤ eta t' + 1.

Lemma within_same_depth e e' i :
  depth e' = depth e → within tight start e i → within tight start e' i.
Proof. unfold within. destruct tight; [lia|done]. Qed.

Lemma within_mono e i i' :
  (i ≤ i')%nat → within tight start e i → within tight start e i'.
Proof. unfold within. destruct tight; [lia|done]. Qed.

Lemma eta_walk j0 t0 m t :
  walk (n start) (tiles start) j0 t0 → walk (n start) t0 m t →
  eta t0 ≤ eta t + Z.of_nat m.
Proof.
  intros H0 Hw. induction Hw as [|m t t' Hw IH Hadj]; [lia|].
  pose proof (walk_trans _ _ _ _ _ _ H0 Hw) as Hst.
  pose proof (eta_step _ _ _ Hst Hadj). lia.
Qed.

(** Every configuration a walk leads to is expanded, or some entry of the
    fringe lies on the walk. *)
Lemma frontier E l j t :
  search_inv tight start goal_state E l →
  walk (n start) (tiles start) j t →
  t ∈ E ∨
  ∃ e i, e ∈ l ∧ (i ≤ j)%nat ∧ walk (n start) (tiles e) (j - i) t ∧
         within tight start e i.
Proof.
  intros Hinv Hw. induction Hw as [|j t t' Hw IH Hadj].
  - destruct (inv_start _ _ _ _ _ Hinv) as [?|(e & He & Ht & Hwi)];
      [by left|].
    right. exists e, 0%nat. split; [done|]. split; [done|].
    split; [|done]. rewrite Ht. constructor.
  - destruct IH as [Hin|(e & i & He & Hi & Hwe & Hwi)].
    + destruct (inv_closed _ _ _ _ _ Hinv _ _ _ Hin Hw Hadj)
        as [?|(e & He & Ht & Hwi)]; [by left|].
      right. exists e, (S j). split; [done|]. split; [done|].
      split; [|done]. rewrite Nat.sub_diag, Ht. constructor.
    + right. exists e, i. split; [done|]. split; [lia|]. split; [|done].
      replace (S j - i)%nat with (S (j - i)) by lia. by eapply walk_S.
Qed.

(** With the tight invariant, an entry that is least in depth plus estimate
    and not yet expanded is as shallow as any walk to its configuration. *)
Lemma popped_is_shallowest E l x j :
  tight = true →
  search_inv tight start goal_state E l →
  (∀ e, e ∈ l → depth x + eta (tiles x) ≤ depth e + eta (tiles e)) →
  tiles x ∉ E →
  walk (n start) (tiles start) j (tiles x) →
  depth x ≤ depth start + Z.of_nat j.
Proof.
  intros Ht Hinv Hmin Hx Hw.
  destruct (frontier E l j (tiles x) Hinv Hw)
    as [?|(e & i & He & Hi & Hwe & Hwi)]; [done|].
  pose proof (inv_entries _ _ _ _ _ Hinv) as Hok.
  rewrite Forall_forall in Hok.
  destruct (Hok e He) as (_ & _ & je & Hje & _).
  pose proof (eta_walk _ _ _ _ Hje Hwe) as Heta.
  pose proof (Hmin e He). unfold within in Hwi. rewrite Ht in Hwi. lia.
Qed.

Lemma inv_skip E l x l1 :
  search_inv tight start goal_state E l →
  l ≡ₚ x :: l1 → tiles x ∈ E →
  search_inv tight start goal_state E l1.
Proof.
  intros [Hok Hst Hcl Hg] Hp Hx.
  assert (∀ e, e ∈ l → e = x ∨ e ∈ l1) as Hsplit.
  { intros e. rewrite Hp. by intros ?%elem_of_cons. }
  split.
  - rewrite Hp in Hok. by apply Forall_cons in Hok as [_ ?].
  - destruct Hst as [?|(e & He & Ht & Hwi)]; [by left|].
    destruct (Hsplit e He) as [->|He1]; [left; congruence|].
    right. eauto.
  - intros u j t Hu Hw Hadj.
    destruct (Hcl u j t Hu Hw Hadj) as [?|(e & He & Ht & Hwi)]; [by left|].
    destruct (Hsplit e He) as [->|He1]; [left; congruence|].
    right. eauto.
  - done.
Qed.

(** An expansion: [x] leaves the fringe and is marked expanded; the fringe
    [l5] afterwards holds what was left, entries for successors of [x], and
    one for every successor not already expanded. *)
Lemma inv_expand E l x l1 l5 :
  search_inv tight start goal_state E l →
  l ≡ₚ x :: l1 → tiles x ∉ E → tiles x ≠ tiles goal_state →
  (tight = true →
   ∀ e, e ∈ l → depth x + eta (tiles x) ≤ depth e + eta (tiles e)) →
  (∀ e, e ∈ l1 → e ∈ l5) →
  (∀ e, e ∈ l5 →
        e ∈ l1 ∨ ∃ d c, move d x = Ok (Some c) ∧ same_place e c) →
  (∀ d c, move d x = Ok (Some c) →
          tiles c ∈ ({[tiles x]} ∪ E : gset str) ∨
          ∃ e, e ∈ l5 ∧ same_place e c) →
  search_inv tight start goal_state ({[tiles x]} ∪ E) l5.
Proof.
  intros Hinv Hp Hx Hng Hmin Hkeep Hnew Hall.
  pose proof Hinv as [Hok Hst Hcl Hg].
  assert (∀ e, e ∈ l → e = x ∨ e ∈ l1) as Hsplit.
  { intros e. rewrite Hp. by intros ?%elem_of_cons. }
  rewrite Forall_forall in Hok.
  assert (entry_ok start x) as Hxok.
  { apply Hok. rewrite Hp. by left. }
  split.
  - apply Forall_forall. intros e He.
    destruct (Hnew e He) as [He1|(d & c & Hm & Hsp)].
    + apply Hok. rewrite Hp. by right.
    + by eapply entry_ok_child.
  - destruct Hst as [?|(e & He & Ht & Hwi)];
      [left; apply elem_of_union; by right|].
    destruct (Hsplit e He) as [->|He1];
      [left; apply elem_of_union; left; by apply elem_of_singleton|].
    right. exists e. split; [by apply Hkeep|]. done.
  - intros u j t [->%elem_of_singleton|Hu]%elem_of_union Hw Hadj.
    + destruct Hxok as (Hv & Hn & _). rewrite <- Hn in Hadj.
      destruct (adjacent_successor x t Hv Hadj) as (d & c & Hm & <-).
      destruct (Hall d c Hm) as [?|(e & He & Hsp)]; [by left|].
      right. exists e. split; [done|]. split; [apply Hsp|].
      unfold within. destruct tight eqn:Htight; [|done].
      pose proof (popped_is_shallowest E l x j Htight) as Hshallow.
      rewrite Htight in Hshallow.
      specialize (Hshallow Hinv (Hmin eq_refl) Hx Hw).
      destruct (move_inv _ _ _ Hm) as (_ & Hdc & _).
      destruct Hsp as (_ & _ & _ & Hde). lia.
    + destruct (Hcl u j t Hu Hw Hadj) as [?|(e & He & Ht & Hwi)];
        [left; apply elem_of_union; by right|].
      destruct (Hsplit e He) as [->|He1];
        [left; apply elem_of_union; left; by apply elem_of_singleton|].
      right. exists e. split; [by apply Hkeep|]. done.
  - intros [?%elem_of_singleton|?]%elem_of_union; [congruence|done].
Qed.

(** One pass of the loop keeps the invariant. *)
Lemma loop_body_keeps_inv E fr E' fr' :
  search_inv tight start goal_state E (entries (store fr)) →
  (tight = true → pops_least eta fr) →
  loop_body goal_state E fr = Ok (Continue E' fr') →
  search_inv tight start goal_state E' (entries (store fr')).
Proof.
  intros Hinv Hmin Hb%loop_body_inv.
  inversion Hb as [x fr1 Hr Hin| |
    x fr1 up fr2 down fr3 left fr4 right fr5 E0 Hr Hin Hne
      Hu H2 Hd H3 Hl H4 Hrt H5]; subst.
  - apply Fringe_remove_Permutation in Hr. by eapply inv_skip.
  - pose proof (Fringe_remove_Permutation _ _ _ Hr) as Hp.
    apply try_add_entries in H2 as (K2 & N2 & A2), H3 as (K3 & N3 & A3),
      H4 as (K4 & N4 & A4), H5 as (K5 & N5 & A5).
    eapply (inv_expand E _ x (entries (store fr1))); try done.
    + intros Ht e He. by eapply Hmin.
    + auto.
    + intros e He.
      destruct (N5 e He) as [He4|(c & -> & ?)]; [|right; by exists Right, c].
      destruct (N4 e He4) as [He3|(c & -> & ?)]; [|right; by exists Left, c].
      destruct (N3 e He3) as [He2|(c & -> & ?)]; [|right; by exists Down, c].
      destruct (N2 e He2) as [He1|(c & -> & ?)]; [|right; by exists Up, c].
      by left.
    + intros d c Hm. destruct d; simpl in Hm.
      * rewrite Hu in Hm. injection Hm as ->.
        destruct (A2 c eq_refl) as [?|(e & He & ?)]; [by left|].
        right. exists e. auto.
      * rewrite Hd in Hm. injection Hm as ->.
        destruct (A3 c eq_refl) as [?|(e & He & ?)]; [by left|].
        right. exists e. auto.
      * rewrite Hl in Hm. injection Hm as ->.
        destruct (A4 c eq_refl) as [?|(e & He & ?)]; [by left|].
        right. exists e. auto.
      * rewrite Hrt in Hm. injection Hm as ->.
        destruct (A5 c eq_refl) as [?|(e & He & ?)]; [by left|].
        right. exists e. auto.
Qed.
End SearchInvariant.

(** ** The search decides reachability *)

Section Reachability.
Variables start goal_state : SlideBoard.

Lemma eta_zero_step :
  ∀ j t t', walk (n start) (tiles start) j t → adjacent (n start) t t' →
            (λ _ : str, 0) t ≤ (λ _ : str, 0) t' + 1.
Proof. intros. simpl. lia. Qed.

Lemma initial_inv tight fringe0 fringe1 :
  valid_board start → entries (store fringe0) = [] →
  Fringe_add fringe0 start goal_state = Ok fringe1 →
  search_inv tight start goal_state ∅ (entries (store fringe1)).
Proof.
  intros Hv He (st' & Hsp & _ & _ & Hp)%Fringe_add_entries.
  rewrite He in Hp. split.
  - rewrite Hp. constructor; [|done]. split; [|split].
    + by apply (same_place_valid st' start).
    + apply Hsp.
    + exists 0%nat. destruct Hsp as (-> & _ & _ & ->).
      split; [constructor|lia].
  - right. exists st'. split; [rewrite Hp; by left|].
    split; [apply Hsp|]. unfold within.
    destruct tight; [|done]. destruct Hsp as (_ & _ & _ & ->). lia.
  - intros u j t Hu. by apply not_elem_of_empty in Hu.
  - apply not_elem_of_empty.
Qed.

Lemma search_loop_decides fuel E fr r :
  search_inv false start goal_state E (entries (store fr)) →
  search_loop fuel goal_state E fr = Some (Ok r) →
  (r = search_failed →
   ∀ j, ¬ walk (n start) (tiles start) j (tiles goal_state)) ∧
  (∀ node d created count mark,
     r = (Some node, d, created, count, mark) →
     ∃ j, walk (n start) (tiles start) j (tiles goal_state) ∧
          d = depth start + Z.of_nat j).
Proof.
  revert E fr. induction fuel as [|fuel IH]; intros E fr Hinv; [done|].
  simpl. destruct (Z.eqb_spec (Fringe_len fr) 0) as [H0|H0].
  { intros [= <-]. split; [|done]. intros _ j Hw.
    apply Fringe_len_0 in H0. rewrite H0 in Hinv.
    destruct (frontier false start goal_state E [] j _ Hinv Hw)
      as [Hin|(e & i & He & _)].
    - by apply (inv_goal _ _ _ _ _ Hinv).
    - by apply elem_of_nil in He. }
  destruct (loop_body goal_state E fr) as [[E1 fr1|a]|] eqn:Hb; [| |done].
  - apply IH.
    eapply (loop_body_keeps_inv false start goal_state (λ _, 0));
      [apply eta_zero_step|done|done|done].
  - intros [= <-]. apply loop_body_inv in Hb.
    inversion Hb as [|x fr1 Hr Hin Heq|]; subst. split; [done|].
    intros node d created count mark [= <- <- _ _ _].
    pose proof (inv_entries _ _ _ _ _ Hinv) as Hok.
    rewrite Forall_forall in Hok.
    destruct (Hok x) as (_ & _ & j & Hw & Hd).
    { rewrite (Fringe_remove_Permutation _ _ _ Hr). by left. }
    exists j. by rewrite <- Heq.
Qed.
End Reachability.

(** X5. Each of the four algorithms decides whether the goal can be
    reached: for a valid start (and, for the informed ones, a goal that
    holds the start's symbols) the search returns, it returns the failure
    tuple exactly when no sequence of legal moves leads from the start's
    configuration to the goal's, and the depth of a success is the length
    of such a sequence. *)
Theorem search_decides_reachability (fringe0 : Fringe)
    (start goal_state : SlideBoard) :
  fringe0 ∈ driver_fringes →
  valid_board start →
  (_uses_heuristic fringe0 = true → symbols_known start goal_state) →
  ∃ fuel0 r,
    (∀ fuel, (fuel0 ≤ fuel)%nat →
             _graph_search fuel start goal_state fringe0 = Some (Ok r)) ∧
    (r = search_failed ↔
     ∀ j, ¬ walk (n start) (tiles start) j (tiles goal_state)) ∧
    (∀ node d created count mark,
       r = (Some node, d, created, count, mark) →
       ∃ j, walk (n start) (tiles start) j (tiles goal_state) ∧
            d = depth start + Z.of_nat j).
Proof.
  intros Hin Hv Hsym.
  destruct (driver_fringes_ok start fringe0 Hin) as [Hok He].
  assert (good start start) as Hg by by split.
  destruct (Fringe_add_total start goal_state fringe0 start Hok Hsym Hg)
    as (fr1 & Hadd & Hok1 & Hi1 & Hl1).
  set (fuel0 := S (work_left start ∅ fr1)).
  destruct (search_loop_total start goal_state fuel0 ∅ fr1 Hok1 Hi1)
    as (r & Hr & Hout); [done | unfold fuel0; lia |].
  pose proof (initial_inv start goal_state false _ _ Hv He Hadd) as Hinv.
  destruct (search_loop_decides start goal_state _ _ _ _ Hinv Hr)
    as [Hfail Hfound].
  exists fuel0, r. split; [|split; [split|]]; [|done| |done].
  - intros fuel Hf. unfold _graph_search. rewrite Hadd.
    by eapply search_loop_mono.
  - intros Hno. destruct Hout as [?|(node & c & e & m & -> & _)]; [done|].
    destruct (Hfound _ _ _ _ _ eq_refl) as (j & Hw & _). by destruct (Hno j).
Qed.

Lemma search_decides_reachability_witness :
  ∃ fuel0 r,
    (∀ fuel, (fuel0 ≤ fuel)%nat →
             _graph_search fuel start_21_3 goal_213_
               (PriorityQueue_new AStar_f) = Some (Ok r)) ∧
    (r = search_failed ↔
     ∀ j, ¬ walk (n start_21_3) (tiles start_21_3) j (tiles goal_213_)) ∧
    (∀ node d created count mark,
       r = (Some node, d, created, count, mark) →
       ∃ j, walk (n start_21_3) (tiles start_21_3) j (tiles goal_213_) ∧
            d = depth start_21_3 + Z.of_nat j).
Proof.
  apply (search_decides_reachability (PriorityQueue_new AStar_f)
           start_21_3 goal_213_).
  - unfold driver_fringes. do 3 right. left.
  - exact start_21_3_valid.
  - intros _ c. unfold start_21_3, goal_213_, chars. simpl.
    rewrite !elem_of_cons. tauto.
Defined.

(** ** The first goal a least-first fringe returns is a shallowest one *)

Section Shallowest.
Variables start goal_state : SlideBoard.
Variable eta : str → Z.
Variable discipline : Fringe → Prop.
Hypothesis eta_step :
  ∀ j t t', walk (n start) (tiles start) j t → adjacent (n start) t t' →
            eta t ≤ eta t' + 1.
Hypothesis discipline_least :
  ∀ fr, discipline fr → Forall (entry_ok start) (entries (store fr)) →
        pops_least eta fr.
Hypothesis discipline_pass :
  ∀ E fr E' fr',
    discipline fr → Forall (entry_ok start) (entries (store fr)) →
    loop_body goal_state E fr = Ok (Continue E' fr') → discipline fr'.

Lemma search_loop_shallowest fuel E fr node d created count mark :
  search_inv true start goal_state E (entries (store fr)) →
  discipline fr →
  search_loop fuel goal_state E fr
    = Some (Ok (Some node, d, created, count, mark)) →
  ∀ j, walk (n start) (tiles start) j (tiles goal_state) →
       d ≤ depth start + Z.of_nat j.
Proof.
  revert E fr. induction fuel as [|fuel IH]; intros E fr Hinv Hd; [done|].
  simpl. destruct (Fringe_len fr =? 0); [done|].
  pose proof (inv_entries _ _ _ _ _ Hinv) as Hok.
  pose proof (discipline_least fr Hd Hok) as Hleast.
  destruct (loop_body goal_state E fr) as [[E1 fr1|a]|] eqn:Hb; [| |done].
  - apply IH.
    + by eapply (loop_body_keeps_inv true start goal_state eta).
    + by eapply discipline_pass.
  - intros [= ->]. apply loop_body_inv in Hb.
    inversion Hb as [|x fr1 Hr Hin Heq|]; subst.
    intros j Hw. rewrite <- Heq in Hw.
    eapply (popped_is_shallowest true start goal_state eta eta_step E);
      [done|done| |done|done].
    intros e He. by eapply Hleast.
Qed.
End Shallowest.

(** ** Breadth-first search *)

Lemma sorted_snoc (q : list SlideBoard) c :
  StronglySorted no_deeper q → Forall (λ e, no_deeper e c) q →
  StronglySorted no_deeper (q ++ [c]).
Proof.
  induction 1 as [|x q Hs IH Hx]; intros Hc; simpl.
  - repeat constructor.
  - apply Forall_cons in Hc as [Hxc Hc]. constructor; [by apply IH|].
    apply Forall_app. split; [done|]. by constructor.
Qed.

Lemma queue_remove fr q x fr1 :
  store fr = Queue q → Fringe_remove fr = Ok (Some x, fr1) →
  ∃ rest, q = x :: rest ∧ store fr1 = Queue rest ∧
          _uses_heuristic fr1 = _uses_heuristic fr.
Proof.
  intros Hq [(? & _)|(y & c & [= <-] & Hr & ->)]%Fringe_remove_inv; [done|].
  rewrite Hq in Hr. simpl in Hr. destruct q as [|z rest]; [done|].
  injection Hr as <- <-. by exists rest.
Qed.

Lemma queue_try_add (fr : Fringe) (q : list SlideBoard) (E : gset str)
    goal_state o fr' :
  store fr = Queue q → _uses_heuristic fr = false →
  _try_add fr E goal_state o = Ok fr' →
  _uses_heuristic fr' = false ∧
  (store fr' = Queue q ∨ ∃ c, o = Some c ∧ store fr' = Queue (q ++ [c])).
Proof.
  intros Hq Hu. destruct o as [c|]; simpl.
  - case_bool_decide; [intros [= <-]; by split; [|left]|].
    intros (st' & c' & Hg & Hadd & ->)%Fringe_add_inv. simpl.
    rewrite Hu in Hg. injection Hg as <-.
    rewrite Hq in Hadd. simpl in Hadd. injection Hadd as <-.
    split; [done|]. right. by exists c.
  - intros [= <-]. by split; [|left].
Qed.

Lemma levels_try_add (x : SlideBoard) (d : direction) (fr : Fringe)
    (E : gset str) goal_state o fr' :
  levels_at (depth x) fr → move d x = Ok o →
  _try_add fr E goal_state o = Ok fr' → levels_at (depth x) fr'.
Proof.
  intros (q & Hq & Hu & Hs & Hf) Hm Ha.
  destruct (queue_try_add _ _ _ _ _ _ Hq Hu Ha) as [Hu' [Hq'|(c & -> & Hq')]].
  - by exists q.
  - destruct (move_inv _ _ _ Hm) as (_ & Hd & _).
    exists (q ++ [c]). split; [done|]. split; [done|]. split.
    + apply sorted_snoc; [done|]. eapply Forall_impl; [done|].
      unfold no_deeper. simpl. intros; lia.
    + apply Forall_app. split; [done|]. constructor; [lia|done].
Qed.

Lemma queue_levels_least start fr :
  queue_levels fr → Forall (entry_ok start) (entries (store fr)) →
  pops_least (λ _, 0) fr.
Proof.
  intros (q & h & Hq & Hu & Hs & Hf) _ x fr1 Hr e He.
  destruct (queue_remove _ _ _ _ Hq Hr) as (rest & -> & _).
  rewrite Hq in He. simpl in He.
  apply StronglySorted_inv in Hs as [_ Hx]. rewrite Forall_forall in Hx.
  apply elem_of_cons in He as [->|He]; [lia|].
  specialize (Hx e He). unfold no_deeper in Hx. lia.
Qed.

Lemma queue_levels_pass start goal_state E fr E' fr' :
  queue_levels fr → Forall (entry_ok start) (entries (store fr)) →
  loop_body goal_state E fr = Ok (Continue E' fr') → queue_levels fr'.
Proof.
  intros (q & h & Hq & Hu & Hs & Hf) _ Hb%loop_body_inv.
  inversion Hb as [x fr1 Hr Hin| |
    x fr1 up fr2 down fr3 left fr4 right fr5 E0 Hr Hin Hne
      Hup H2 Hd H3 Hl H4 Hrt H5]; subst.
  - destruct (queue_remove _ _ _ _ Hq Hr) as (rest & -> & Hq1 & Hu1).
    apply StronglySorted_inv in Hs as [Hs _].
    apply Forall_cons in Hf as [_ Hf].
    exists rest, h. split; [done|]. split; [congruence|]. by split.
  - destruct (queue_remove _ _ _ _ Hq Hr) as (rest & -> & Hq1 & Hu1).
    apply StronglySorted_inv in Hs as [Hs Hx].
    apply Forall_cons in Hf as [Hhx Hf].
    assert (levels_at (depth x) fr1) as L1.
    { exists rest. split; [done|]. split; [congruence|]. split; [done|].
      rewrite Forall_forall in Hx, Hf. apply Forall_forall. intros e He.
      specialize (Hx e He). specialize (Hf e He). unfold no_deeper in Hx.
      lia. }
    pose proof (levels_try_add x Up _ _ _ _ _ L1 Hup H2) as L2.
    pose proof (levels_try_add x Down _ _ _ _ _ L2 Hd H3) as L3.
    pose proof (levels_try_add x Left _ _ _ _ _ L3 Hl H4) as L4.
    pose proof (levels_try_add x Right _ _ _ _ _ L4 Hrt H5) as L5.
    destruct L5 as (q5 & ? & ? & ? & ?). by exists q5, (depth x).
Qed.

(** X6. Breadth-first search is optimal: the depth BFS returns is the
    length of a sequence of legal moves from the start's configuration to
    the goal's, and no such sequence is shorter. *)
Theorem BFS_returns_shortest (start goal_state node : SlideBoard)
    (fuel : nat) (d created count mark : Z) :
  valid_board start →
  BFS fuel start goal_state = Some (Ok (Some node, d, created, count, mark)) →
  (∃ j, walk (n start) (tiles start) j (tiles goal_state) ∧
        d = depth start + Z.of_nat j) ∧
  ∀ j, walk (n start) (tiles start) j (tiles goal_state) →
       d ≤ depth start + Z.of_nat j.
Proof.
  intros Hv. unfold BFS, _graph_search. rewrite Fringe_add_Queue_new.
  intros Hs. split.
  - pose proof (initial_inv start goal_state false Queue_new _ Hv eq_refl
                  (Fringe_add_Queue_new start goal_state)) as Hinv.
    destruct (search_loop_decides start goal_state _ _ _ _ Hinv Hs)
      as [_ Hfound]. by eapply Hfound.
  - pose proof (initial_inv start goal_state true Queue_new _ Hv eq_refl
                  (Fringe_add_Queue_new start goal_state)) as Hinv.
    eapply (search_loop_shallowest start goal_state (λ _, 0) queue_levels);
      [apply eta_zero_step | apply queue_levels_least
      | apply queue_levels_pass | exact Hinv | | exact Hs].
    exists [start], (depth start). split; [done|]. split; [done|]. split.
    + repeat constructor.
    + constructor; [lia|done].
Qed.

Lemma BFS_returns_shortest_witness :
  (∃ j, walk (n start_21_3) (tiles start_21_3) j (tiles goal_213_) ∧
        1 = depth start_21_3 + Z.of_nat j) ∧
  ∀ j, walk (n start_21_3) (tiles start_21_3) j (tiles goal_213_) →
       1 ≤ depth start_21_3 + Z.of_nat j.
Proof.
  apply (BFS_returns_shortest start_21_3 goal_213_ (moved start_21_3 3)
           3 1 3 2 2).
  - exact start_21_3_valid.
  - vm_compute. reflexivity.
Defined.

(** ** The Manhattan distance and moves *)

Lemma moved_coordinates b d :
  valid_board b → ¬ on_edge d b →
  let i := _space_ind b in
  let j := _space_ind b + index_shift d b in
  (j / n b = i / n b ∧
   (j mod n b = i mod n b + 1 ∨ j mod n b = i mod n b - 1)) ∨
  (j mod n b = i mod n b ∧
   (j / n b = i / n b + 1 ∨ j / n b = i / n b - 1)).
Proof.
  intros Hv He. pose proof (valid_space_lt b Hv) as Hlt.
  pose proof Hv as [Hn Hl _ Hnn _]. rewrite Hl in Hlt.
  pose proof (move_target_range b d Hv He) as Hr. rewrite Hl in Hr.
  cbv zeta. destruct d; simpl in *; unfold blank_row, blank_col in *.
  - right. replace (_space_ind b + - n b) with (_space_ind b + (-1) * n b)
      by lia. rewrite Z.div_add, Z.mod_add by lia. split; [done|]. right. lia.
  - right. replace (_space_ind b + n b) with (_space_ind b + 1 * n b)
      by lia. rewrite Z.div_add, Z.mod_add by lia. split; [done|]. left. lia.
  - left.
    pose proof (Z.mod_pos_bound (_space_ind b) (n b) Hn).
    pose proof (Z.div_mod (_space_ind b) (n b) ltac:(lia)) as Hdm.
    assert (_space_ind b + -1
            = n b * (_space_ind b / n b) + (_space_ind b mod n b - 1))
      as Heq by lia.
    split; [|right].
    + symmetry. eapply Z.div_unique_pos; [|exact Heq]. lia.
    + symmetry. eapply Z.mod_unique_pos; [|exact Heq]. lia.
  - left.
    pose proof (Z.mod_pos_bound (_space_ind b) (n b) Hn).
    pose proof (Z.div_mod (_space_ind b) (n b) ltac:(lia)) as Hdm.
    assert (_space_ind b + 1
            = n b * (_space_ind b / n b) + (_space_ind b mod n b + 1))
      as Heq by lia.
    split; [|left].
    + symmetry. eapply Z.div_unique_pos; [|exact Heq]. lia.
    + symmetry. eapply Z.mod_unique_pos; [|exact Heq]. lia.
Qed.

Lemma sum_Z_Permutation l l' : l ≡ₚ l' → sum_Z l = sum_Z l'.
Proof.
  induction 1; simpl; rewrite ?sum_Z_cons; lia.
Qed.

(** Changing the summand at one symbol of a duplicate-free list changes the
    sum by that much. *)
Lemma sum_Z_change (f f' : ascii → Z) (l : str) c :
  NoDup l → c ∈ l → (∀ c', c' ∈ l → c' ≠ c → f' c' = f c') →
  sum_Z (f' <$> l) = sum_Z (f <$> l) + (f' c - f c).
Proof.
  induction l as [|x l IH]; intros Hnd Hc Hsame.
  { by apply elem_of_nil in Hc. }
  apply NoDup_cons in Hnd as [Hx Hnd].
  rewrite !fmap_cons, !sum_Z_cons.
  apply elem_of_cons in Hc as [->|Hc].
  - assert (sum_Z (f' <$> l) = sum_Z (f <$> l)) as ->; [|lia].
    f_equal. apply list_fmap_ext. intros i c' Hi. apply Hsame.
    + right. by eapply list_elem_of_lookup_2.
    + intros ->. apply Hx. by eapply list_elem_of_lookup_2.
  - rewrite IH; [|done|done|].
    + rewrite (Hsame x); [lia|by left|]. intros ->. done.
    + intros c' Hc' ?. apply Hsame; [by right|done].
Qed.

Lemma manhattan_sum_moved b goal_state d :
  valid_board b → ¬ on_edge d b →
  Z.abs (manhattan_sum (moved b (_space_ind b + index_shift d b)) goal_state
         - manhattan_sum b goal_state) = 1.
Proof.
  intros Hv He.
  pose proof (move_target_range b d Hv He) as Hr.
  pose proof (moved_coordinates b d Hv He) as Hco. cbv zeta in Hco.
  pose proof (valid_space_lt b Hv) as Hlt.
  pose proof (moved_valid b _ Hv Hr) as Hv'.
  set (j := _space_ind b + index_shift d b) in *.
  assert (j ≠ _space_ind b) as Hne.
  { unfold j. pose proof Hv as [Hn _ _ _ _]. destruct d; simpl; lia. }
  pose proof Hv as [Hn Hl Hnd Hnn Hb].
  destruct (lookup_lt_is_Some_2 (tiles b) (Z.to_nat j)) as [cs Hcs].
  { unfold len in Hr. lia. }
  assert (cs ≠ blank) as Hcsb.
  { intros ->. pose proof (NoDup_lookup _ _ _ _ Hnd Hb Hcs). lia. }
  assert (tiles (moved b j) !! Z.to_nat (_space_ind b) = Some cs) as Hcs'.
  { simpl. by eapply lookup_swap_l. }
  unfold manhattan_sum.
  assert (non_blank (tiles (moved b j)) ≡ₚ non_blank (tiles b)) as Hp.
  { unfold non_blank. by rewrite moved_tiles_Permutation. }
  rewrite (sum_Z_Permutation _ (tile_distance (moved b j) goal_state
                                  <$> non_blank (tiles b)))
    by by rewrite Hp.
  rewrite (sum_Z_change (tile_distance b goal_state)
             (tile_distance (moved b j) goal_state) _ cs).
  - unfold tile_distance, locate.
    rewrite (find_index_NoDup cs (tiles b) (Z.to_nat j)) by done.
    rewrite (find_index_NoDup cs (tiles (moved b j))
               (Z.to_nat (_space_ind b)))
      by (done || apply Hv').
    simpl. rewrite !Z2Nat.id by lia. fold j. lia.
  - unfold non_blank. by apply NoDup_filter.
  - apply list_elem_of_filter. split; [done|].
    by eapply list_elem_of_lookup_2.
  - intros c [Hcb Hc]%list_elem_of_filter Hccs.
    apply list_elem_of_lookup in Hc as [p Hp'].
    assert (p ≠ Z.to_nat (_space_ind b)) by (intros ->; congruence).
    assert (p ≠ Z.to_nat j) by (intros ->; congruence).
    assert (tiles (moved b j) !! p = Some c) as Hp''.
    { simpl. unfold swap. rewrite Hb, Hcs.
      by rewrite !list_lookup_insert_ne by done. }
    unfold tile_distance, locate.
    rewrite (find_index_NoDup c (tiles b) p) by done.
    rewrite (find_index_NoDup c (tiles (moved b j)) p)
      by (done || apply Hv').
    done.
Qed.

Lemma manhattan_sum_estimate b goal_state :
  manhattan_sum b goal_state = estimate goal_state (n b) (tiles b).
Proof. reflexivity. Qed.

Lemma estimate_step goal_state k t t' :
  adjacent k t t' →
  Z.abs (estimate goal_state k t' - estimate goal_state k t) = 1.
Proof.
  intros (b & d & b' & Hv & <- & <- & Hm & <-).
  rewrite move_spec in Hm by done. case_decide as He; [done|].
  injection Hm as <-.
  rewrite <- manhattan_sum_estimate.
  change (n b) with (n (moved b (_space_ind b + index_shift d b))).
  rewrite <- manhattan_sum_estimate.
  by apply manhattan_sum_moved.
Qed.



Lemma generate_heuristic_estimate b goal_state :
  valid_board b → n goal_state = n b → symbols_known b goal_state →
  generate_heuristic b goal_state
  = Ok (set_heuristic b (Some (estimate goal_state (n b) (tiles b)))).
Proof.
  intros [Hn _ Hnd _ _] Hng Hs. unfold generate_heuristic.
  rewrite manhattan_distance_sum; [done|done|lia|done|done].
Qed.

Lemma symbols_known_Permutation b b' goal_state :
  tiles b' ≡ₚ tiles b → symbols_known b goal_state →
  symbols_known b' goal_state.
Proof. intros Hp Hs c Hc. apply Hs. by rewrite <- Hp. Qed.





(** ** A* *)

Lemma walk_Permutation k t0 j t : walk k t0 j t → t ≡ₚ t0.
Proof.
  induction 1 as [|j t t' Hw IH (b & d & b' & Hv & _ & <- & Hm & <-)];
    [done|].
  destruct (moves_keep_invariants_aux _ _ _ Hv Hm) as [_ Hp].
  by rewrite Hp.
Qed.

Lemma keeps_pops_least f score fr p x fr1 :
  keeps f score fr p → Fringe_remove fr = Ok (Some x, fr1) →
  ∀ e, e ∈ entries (store fr) → score x ≤ score e.
Proof.
  intros (Hst & _ & _) [(? & _)|(y & c & [= <-] & Hr & ->)]%Fringe_remove_inv;
    [done|].
  rewrite Hst in Hr. simpl in Hr.
  destruct (list_pop _) as [[z l']|] eqn:Hp; [|done].
  injection Hr as <- <-. apply list_pop_inv in Hp.
  pose proof (descending_sorted score p) as Hs. rewrite Hp in Hs.
  intros e He. rewrite Hst in He. simpl in He. rewrite Hp in He.
  apply elem_of_app in He as [He|He];
    [|apply list_elem_of_singleton in He as ->; lia].
  eapply (StronglySorted_app_1_elem_of _ l' [z] e z) in Hs;
    [exact Hs | done | by left].
Qed.

Lemma try_add_uses (fr : Fringe) (E : gset str) goal_state o fr' :
  _try_add fr E goal_state o = Ok fr' →
  _uses_heuristic fr' = _uses_heuristic fr.
Proof.
  destruct o as [c|]; simpl; [|by intros [= <-]].
  case_bool_decide; [by intros [= <-]|].
  by intros (st' & c' & _ & _ & ->)%Fringe_add_inv.
Qed.

Lemma try_add_new (fr : Fringe) (E : gset str) goal_state o fr' :
  _try_add fr E goal_state o = Ok fr' → _uses_heuristic fr = true →
  ∀ e, e ∈ entries (store fr') →
       e ∈ entries (store fr) ∨
       ∃ c, o = Some c ∧ generate_heuristic c goal_state = Ok e.
Proof.
  destruct o as [c|]; simpl; [|intros [= <-]; auto].
  case_bool_decide; [intros [= <-]; auto|].
  intros (st' & _ & Hg & _ & Hp)%Fringe_add_entries Hu e He.
  rewrite Hp in He. apply elem_of_cons in He as [->|He]; [|by left].
  right. exists c. split; [done|]. by apply Hg.
Qed.

Section AStarDiscipline.
Variables start goal_state : SlideBoard.
Hypothesis same_side : n goal_state = n start.
Hypothesis known : symbols_known start goal_state.

Lemma astar_least fr :
  astar_fringe goal_state fr → Forall (entry_ok start) (entries (store fr)) →
  pops_least (estimate goal_state (n start)) fr.
Proof.
  intros [[p Hk] Hh] Hok x fr1 Hr e He.
  pose proof (keeps_pops_least _ _ _ _ _ _ Hk Hr e He) as Hle.
  assert (x ∈ entries (store fr)) as Hx.
  { rewrite (Fringe_remove_Permutation _ _ _ Hr). by left. }
  rewrite Forall_forall in Hh, Hok.
  destruct (Hok x Hx) as (_ & Hnx & _). destruct (Hok e He) as (_ & Hne & _).
  unfold AStar_score in Hle. rewrite (Hh x Hx), (Hh e He) in Hle.
  simpl in Hle. by rewrite Hnx, Hne in Hle.
Qed.

Lemma child_estimate x d c e :
  entry_ok start x → move d x = Ok (Some c) →
  generate_heuristic c goal_state = Ok e →
  heuristic e = Some (estimate goal_state (n e) (tiles e)).
Proof.
  intros (Hv & Hn & j & Hw & _) Hm Hg.
  pose proof (move_valid _ _ _ Hv Hm) as Hvc.
  destruct (moves_keep_invariants_aux _ _ _ Hv Hm) as [Hnc Hp].
  rewrite generate_heuristic_estimate in Hg; [|done|congruence|].
  - by injection Hg as <-.
  - eapply symbols_known_Permutation; [|exact known].
    rewrite Hp. by eapply walk_Permutation.
Qed.

Lemma astar_pass E fr E' fr' :
  astar_fringe goal_state fr → Forall (entry_ok start) (entries (store fr)) →
  loop_body goal_state E fr = Ok (Continue E' fr') →
  astar_fringe goal_state fr'.
Proof.
  intros [[p Hk] Hh] Hok Hb. split.
  { destruct (loop_body_ops _ _ _ _ _ Hb) as [ops Hops].
    destruct (keeps_run_ops AStar_f AStar_score AStar_f_score _ _ _ _ Hk Hops)
      as (p' & _ & Hk'). by exists p'. }
  pose proof Hk as (_ & Hu & _).
  apply loop_body_inv in Hb.
  inversion Hb as [x fr1 Hr Hin| |
    x fr1 up fr2 down fr3 left fr4 right fr5 E0 Hr Hin Hne
      Hup H2 Hd H3 Hl H4 Hrt H5]; subst.
  - rewrite (Fringe_remove_Permutation _ _ _ Hr) in Hh.
    by apply Forall_cons in Hh as [_ ?].
  - pose proof (Fringe_remove_Permutation _ _ _ Hr) as Hp.
    assert (entry_ok start x) as Hx.
    { rewrite Forall_forall in Hok. apply Hok. rewrite Hp. by left. }
    assert (_uses_heuristic fr1 = true) as Hu1.
    { apply Fringe_remove_inv in Hr
        as [(? & _)|(y & c & _ & _ & ->)]; done. }
    pose proof (try_add_uses _ _ _ _ _ H2) as Hu2. rewrite Hu1 in Hu2.
    pose proof (try_add_uses _ _ _ _ _ H3) as Hu3. rewrite Hu2 in Hu3.
    pose proof (try_add_uses _ _ _ _ _ H4) as Hu4. rewrite Hu3 in Hu4.
    rewrite Hp in Hh. apply Forall_cons in Hh as [_ Hh1].
    rewrite Forall_forall in Hh1. apply Forall_forall. intros e He.
    destruct (try_add_new _ _ _ _ _ H5 Hu4 e He) as [He4|(c & -> & Hg)];
      [|by eapply (child_estimate x Right)].
    destruct (try_add_new _ _ _ _ _ H4 Hu3 e He4) as [He3|(c & -> & Hg)];
      [|by eapply (child_estimate x Left)].
    destruct (try_add_new _ _ _ _ _ H3 Hu2 e He3) as [He2|(c & -> & Hg)];
      [|by eapply (child_estimate x Down)].
    destruct (try_add_new _ _ _ _ _ H2 Hu1 e He2) as [He1|(c & -> & Hg)];
      [|by eapply (child_estimate x Up)].
    by apply Hh1.
Qed.

Lemma estimate_step_le :
  ∀ j t t', walk (n start) (tiles start) j t → adjacent (n start) t t' →
            estimate goal_state (n start) t
            ≤ estimate goal_state (n start) t' + 1.
Proof.
  intros j t t' _ Hadj.
  pose proof (estimate_step goal_state _ _ _ Hadj). lia.
Qed.
End AStarDiscipline.

(** X9. A* is optimal: for a valid start and a goal of the start's size
    that holds the start's symbols, the depth AStar returns is the length
    of a sequence of legal moves from the start's configuration to the
    goal's, and no such sequence is shorter. *)
Theorem AStar_returns_shortest (start goal_state node : SlideBoard)
    (fuel : nat) (d created count mark : Z) :
  valid_board start →
  n goal_state = n start →
  symbols_known start goal_state →
  AStar fuel start goal_state
    = Some (Ok (Some node, d, created, count, mark)) →
  (∃ j, walk (n start) (tiles start) j (tiles goal_state) ∧
        d = depth start + Z.of_nat j) ∧
  ∀ j, walk (n start) (tiles start) j (tiles goal_state) →
       d ≤ depth start + Z.of_nat j.
Proof.
  intros Hv Hn Hs. unfold AStar, _graph_search.
  destruct (Fringe_add _ start goal_state) as [fr1|] eqn:Hadd; [|done].
  intros Hsl. split.
  - pose proof (initial_inv start goal_state false (PriorityQueue_new AStar_f) _
                  Hv eq_refl Hadd)
      as Hinv.
    destruct (search_loop_decides start goal_state _ _ _ _ Hinv Hsl)
      as [_ Hfound]. by eapply Hfound.
  - pose proof (initial_inv start goal_state true (PriorityQueue_new AStar_f) _
                  Hv eq_refl Hadd)
      as Hinv.
    eapply (search_loop_shallowest start goal_state
              (estimate goal_state (n start)) (astar_fringe goal_state));
      [by apply estimate_step_le | by apply astar_least
      | by apply astar_pass | exact Hinv | | exact Hsl].
    split.
    + destruct (keeps_apply_op AStar_f AStar_score AStar_f_score
                  (PriorityQueue_new AStar_f) [] (CallAdd start goal_state)
                  fr1 (keeps_new _ _) Hadd) as (p & _ & Hk).
      by exists p.
    + apply Fringe_add_entries in Hadd as (st' & _ & Hg & _ & ->).
      constructor; [|done]. specialize (Hg eq_refl).
      rewrite generate_heuristic_estimate in Hg by done.
      by injection Hg as <-.
Qed.

Lemma AStar_returns_shortest_witness :
  (∃ j, walk (n start_21_3) (tiles start_21_3) j (tiles goal_213_) ∧
        1 = depth start_21_3 + Z.of_nat j) ∧
  ∀ j, walk (n start_21_3) (tiles start_21_3) j (tiles goal_213_) →
       1 ≤ depth start_21_3 + Z.of_nat j.
Proof.
  apply (AStar_returns_shortest start_21_3 goal_213_
           (mkSlideBoard (chars "213 ") 2 3 (Some 0) 1
              (Some (set_heuristic start_21_3 (Some 1))))
           3 1 2 1 2).
  - exact start_21_3_valid.
  - reflexivity.
  - intros c. unfold start_21_3, goal_213_, chars. simpl.
    rewrite !elem_of_cons. tauto.
  - vm_compute. reflexivity.
Defined.

(** ** The heuristic's errors *)

Lemma manhattan_loop_missing k (t2 : str) ind (rest : str) acc :
  k ≠ 0 → (∃ c, c ∈ rest ∧ c ≠ blank ∧ c ∉ t2) →
  manhattan_loop k t2 ind rest acc = Raise ValueError.
Proof.
  intros Hk. revert ind acc.
  induction rest as [|c0 rest IH]; intros ind acc (c & Hin & Hb & Hout).
  { by apply elem_of_nil in Hin. }
  simpl. apply elem_of_cons in Hin as [->|Hin].
  - rewrite decide_False by done. unfold divmod.
    destruct (Z.eqb_spec k 0); [done|]. cbn [mbind result_bind].
    unfold index. apply find_index_None in Hout. by rewrite Hout.
  - case_decide; [apply IH; eauto|]. unfold divmod.
    destruct (Z.eqb_spec k 0); [done|]. cbn [mbind result_bind].
    unfold index. destruct (find_index c0 t2) eqn:Hf; [|done].
    cbn [mbind result_bind]. apply IH; eauto.
Qed.

(** X10. For a State of non-zero size, [generate_heuristic] succeeds when
    every non-blank symbol of the State occurs in the goal, and raises
    [ValueError] otherwise. *)
Theorem generate_heuristic_raises (self goal_state : SlideBoard) :
  n self ≠ 0 →
  (symbols_known self goal_state →
   ∃ h, generate_heuristic self goal_state
        = Ok (set_heuristic self (Some h))) ∧
  (¬ symbols_known self goal_state →
   generate_heuristic self goal_state = Raise ValueError).
Proof.
  intros Hn. split; [by apply generate_heuristic_total|].
  intros Hs. unfold generate_heuristic, _manhattan_distance.
  rewrite manhattan_loop_missing; [done|done|].
  destruct (decide (Exists (λ c, c ≠ blank ∧ c ∉ tiles goal_state)
                      (tiles self))) as [He|He].
  - apply Exists_exists in He as (c & ? & ? & ?). eauto.
  - destruct Hs. intros c Hin Hb.
    destruct (decide (c ∈ tiles goal_state)) as [|Hout]; [done|].
    destruct He. apply Exists_exists. eauto.
Qed.

Lemma generate_heuristic_raises_witness :
  generate_heuristic start_ab_c goal_213_ = Raise ValueError.
Proof.
  apply (generate_heuristic_raises start_ab_c goal_213_).
  - simpl. lia.
  - intros Hs. specialize (Hs "a"%char).
    unfold start_ab_c, goal_213_, chars in Hs. simpl in Hs.
    rewrite !elem_of_cons in Hs.
    destruct Hs as [?|[?|[?|[?|Hs]]]];
      [by left | done | done | done | done | done | by apply elem_of_nil in Hs].
Defined.

(** ** The command line *)

Lemma GOALS_in_range size :
  _MIN_SIZE ≤ size ≤ _MAX_SIZE → ∃ goal, dict_get _GOALS size = Some goal.
Proof.
  unfold _MIN_SIZE, _MAX_SIZE. intros Hs.
  assert (size = 2 ∨ size = 3 ∨ size = 4 ∨ size = 5 ∨ size = 6 ∨ size = 7
          ∨ size = 8 ∨ size = 9) as H by lia.
  repeat (destruct H as [->|H]); [..|subst]; eexists; reflexivity.
Qed.

Lemma GOALS_get size goal :
  dict_get _GOALS size = Some goal →
  _MIN_SIZE ≤ size ≤ _MAX_SIZE ∧ ∃ b, create goal size = Ok b.
Proof.
  unfold _GOALS, _MIN_SIZE, _MAX_SIZE. simpl.
  repeat (case_decide; [subst; intros [= <-]; split; [lia|];
                        eexists; vm_compute; reflexivity|]).
  done.
Qed.

Lemma GOALS_valid size goal :
  dict_get _GOALS size = Some goal →
  0 < size ∧ NoDup goal ∧ len goal = size * size ∧ blank ∈ goal.
Proof.
  intros [Hr [b Hc]]%GOALS_get. unfold _MIN_SIZE in Hr.
  pose proof (create_valid _ _ _ Hc) as Hv.
  apply create_Ok in Hc as [Hm (i & Hi & ->)].
  destruct Hv as [? ? ? ? ?]. simpl in *. unfold malformed in Hm.
  split; [lia|]. split; [done|]. split; [lia|].
  destruct (decide (blank ∈ goal)); [done|tauto].
Qed.

Lemma ALGORITHMS_get name algorithm :
  dict_get _ALGORITHMS name = Some algorithm →
  ∃ fr, fr ∈ driver_fringes ∧
        algorithm = λ fuel s g, _graph_search fuel s g fr.
Proof.
  unfold _ALGORITHMS, driver_fringes. simpl.
  repeat (case_decide;
          [intros [= <-]; eexists; split; [|reflexivity];
           rewrite !elem_of_cons; tauto|]).
  done.
Qed.

(** The character check of [_parse_args]. *)
Lemma alphabet_check (arg2 goal : str) :
  negb (len_set arg2 =? len goal)
  || existsb (λ char, negb (contains goal char)) arg2 = false ↔
  len_set arg2 = len goal ∧ ∀ c, c ∈ arg2 → c ∈ goal.
Proof.
  rewrite orb_false_iff, negb_false_iff, Z.eqb_eq.
  apply and_iff_compat_l. split.
  - intros He c Hc. destruct (decide (c ∈ goal)) as [|Hout]; [done|].
    assert (existsb (λ char, negb (contains goal char)) arg2 = true) as Ht;
      [|congruence].
    apply existsb_exists. exists c. split; [by apply list_elem_of_In|].
    apply negb_true_iff. destruct (contains goal c) eqn:Hg; [|done].
    by apply contains_true in Hg.
  - intros Hall. destruct (existsb _ arg2) eqn:He; [|done].
    apply existsb_exists in He as (c & Hc%list_elem_of_In & Hn).
    apply negb_true_iff in Hn. apply Hall, contains_true in Hc. congruence.
Qed.

Lemma same_alphabet (arg2 goal : str) :
  NoDup goal →
  (len_set arg2 = len goal ∧ ∀ c, c ∈ arg2 → c ∈ goal) ↔
  ∀ c, c ∈ arg2 ↔ c ∈ goal.
Proof.
  intros Hnd. unfold len_set, len. rewrite Nat2Z.inj_iff. split.
  - intros [Hl Hall].
    assert (remove_dups arg2 ≡ₚ goal) as Hp.
    { apply submseteq_length_Permutation; [|by rewrite Hl].
      apply NoDup_submseteq; [apply NoDup_remove_dups|].
      intros c Hc. apply Hall. by apply elem_of_remove_dups. }
    intros c. by rewrite <- Hp, elem_of_remove_dups.
  - intros Hall.
    assert (remove_dups arg2 ≡ₚ goal) as Hp.
    { apply NoDup_Permutation; [apply NoDup_remove_dups|done|].
      intros c. by rewrite elem_of_remove_dups. }
    split; [by rewrite Hp|]. intros c. apply Hall.
Qed.

Section CommandLineFacts.
Variable int : str → option Z.

Lemma parse_args_inv argv :
  match _parse_args int argv with
  | inl RuntimeError => ∀ a0 a1 a2 a3, argv ≠ [a0; a1; a2; a3]
  | inl KeyError => False
  | inl (Builtin e) =>
      ∃ a0 a1 a2 a3, argv = [a0; a1; a2; a3] ∧
        ((e = ValueError ∧
          (int a1 = None ∨
           (∃ size, int a1 = Some size ∧
              (¬ _MIN_SIZE ≤ size ≤ _MAX_SIZE ∨
               ∃ goal, dict_get _GOALS size = Some goal ∧
                 (¬ (∀ c, c ∈ a2 ↔ c ∈ goal) ∨
                  (a2 ≡ₚ goal ∧
                   dict_get _ALGORITHMS (string_of_list_ascii a3)
                   = None)))))) ∨
         (e = BadBoard ∧
          ∃ size goal, int a1 = Some size ∧
            dict_get _GOALS size = Some goal ∧
            (∀ c, c ∈ a2 ↔ c ∈ goal) ∧ ¬ NoDup a2))
  | inr (size, start, name, algorithm) =>
      ∃ a0 a1 goal, argv = [a0; a1; tiles start; name] ∧
        int a1 = Some size ∧ _MIN_SIZE ≤ size ≤ _MAX_SIZE ∧
        dict_get _GOALS size = Some goal ∧ tiles start ≡ₚ goal ∧
        create (tiles start) size = Ok start ∧ valid_board start ∧
        dict_get _ALGORITHMS (string_of_list_ascii name) = Some algorithm
  end.
Proof.
  unfold _parse_args.
  destruct argv as [|a0 [|a1 [|a2 [|a3 [|a4 rest]]]]]; try done.
  destruct (int a1) as [size|] eqn:Hint.
  2:{ exists a0, a1, a2, a3. split; [done|]. left. auto. }
  destruct ((size <? _MIN_SIZE) || (_MAX_SIZE <? size)) eqn:Hrange.
  { exists a0, a1, a2, a3. split; [done|]. left. split; [done|]. right.
    exists size. split; [done|]. left.
    apply orb_true_iff in Hrange as [?%Z.ltb_lt|?%Z.ltb_lt]; lia. }
  apply orb_false_iff in Hrange as [H1%Z.ltb_ge H2%Z.ltb_ge].
  destruct (GOALS_in_range size ltac:(lia)) as [goal Hgoal]. rewrite Hgoal.
  destruct (GOALS_valid _ _ Hgoal) as (Hpos & Hnd & Hlen & Hblank).
  destruct (negb _ || existsb _ a2) eqn:Hcheck.
  { exists a0, a1, a2, a3. split; [done|]. left. split; [done|]. right.
    exists size. split; [done|]. right. exists goal. split; [done|]. left.
    intros Hall. apply (proj2 (same_alphabet a2 goal Hnd)) in Hall.
    apply alphabet_check in Hall.
    congruence. }
  apply alphabet_check in Hcheck.
  pose proof (proj1 (same_alphabet a2 goal Hnd) Hcheck) as Hsame.
  destruct (create a2 size) as [start|e] eqn:Hc.
  - pose proof (create_valid _ _ _ Hc) as Hv.
    pose proof Hc as [Hm (i & Hi & Hst)]%create_Ok.
    assert (tiles start = a2) as Ht by by subst.
    assert (a2 ≡ₚ goal) as Hp.
    { apply NoDup_Permutation; [|done|done].
      destruct Hv as [? ? ? ? ?]. by rewrite <- Ht. }
    destruct (dict_get _ALGORITHMS _) as [algorithm|] eqn:Halg.
    + exists a0, a1, goal. rewrite Ht.
      split; [done|]. split; [done|]. split; [lia|]. split; [done|].
      split; [done|]. split; [done|]. by split.
    + exists a0, a1, a2, a3. split; [done|]. left. split; [done|]. right.
      exists size. split; [done|]. right. exists goal. split; [done|].
      by right.
  - apply create_Raise_BadBoard in Hc as [-> Hm].
    exists a0, a1, a2, a3. split; [done|]. right. split; [done|].
    exists size, goal. split; [done|]. split; [done|]. split; [done|].
    intros Hnd2. pose proof (proj2 (len_set_NoDup a2) Hnd2) as Hl2.
    destruct Hcheck as [Hl _].
    destruct Hm as [?|[?|[Hb|?]]]; [lia|lia| |done].
    apply Hb, Hsame, Hblank.
Qed.

Lemma graph_search_returns fr start goal_state :
  fr ∈ driver_fringes → valid_board start →
  symbols_known start goal_state →
  ∃ fuel0 r, ∀ fuel, (fuel0 ≤ fuel)%nat →
    _graph_search fuel start goal_state fr = Some (Ok r).
Proof.
  intros Hin Hv Hsym.
  destruct (driver_fringes_ok start fr Hin) as [Hok He].
  assert (good start start) as Hg by by split.
  destruct (Fringe_add_total start goal_state fr start Hok (λ _, Hsym) Hg)
    as (fr1 & Hadd & Hok1 & Hi1 & Hl1).
  set (fuel0 := S (work_left start ∅ fr1)).
  destruct (search_loop_total start goal_state fuel0 ∅ fr1 Hok1 Hi1)
    as (r & Hr & Hout); [set_solver | unfold fuel0; lia |].
  exists fuel0, r. intros fuel Hf. unfold _graph_search. rewrite Hadd.
  by eapply search_loop_mono.
Qed.
End CommandLineFacts.

(** X11. [_parse_args] returns exactly when the command line has three
    arguments, [int] reads the first as a size from 2 to 9, the second is
    an arrangement of the goal string of that size, and the third names an
    algorithm of the table; it then returns that size, the State [create]
    builds from the second argument, which is a valid board, the name and
    the algorithm. *)
Theorem parse_args_accepts (int : str → option Z) (argv : list str)
    (size : Z) (start : SlideBoard) (name : str) (algorithm : search_fn) :
  _parse_args int argv = inr (size, start, name, algorithm) ↔
  ∃ arg0 arg1 goal,
    argv = [arg0; arg1; tiles start; name] ∧
    int arg1 = Some size ∧ 2 ≤ size ≤ 9 ∧
    dict_get _GOALS size = Some goal ∧ tiles start ≡ₚ goal ∧
    create (tiles start) size = Ok start ∧ valid_board start ∧
    dict_get _ALGORITHMS (string_of_list_ascii name) = Some algorithm.
Proof.
  split.
  - intros Hp. pose proof (parse_args_inv int argv) as H.
    by rewrite Hp in H.
  - intros (a0 & a1 & goal & -> & Hint & Hr & Hgoal & Hp & Hc & _ & Halg).
    unfold _parse_args. rewrite Hint.
    destruct (Z.ltb_spec size _MIN_SIZE); [unfold _MIN_SIZE in *; lia|].
    destruct (Z.ltb_spec _MAX_SIZE size); [unfold _MAX_SIZE in *; lia|].
    cbn [orb]. rewrite Hgoal.
    destruct (GOALS_valid _ _ Hgoal) as (_ & Hnd & _).
    assert (negb (len_set (tiles start) =? len goal)
            || existsb (λ char, negb (contains goal char)) (tiles start)
            = false) as ->.
    { apply alphabet_check, (same_alphabet _ _ Hnd). intros c.
      by rewrite Hp. }
    by rewrite Hc, Halg.
Qed.

(** X12. [_parse_args] raises [BadBoard] exactly when the command line has
    three arguments, [int] reads the first as a size with a goal string,
    the second argument uses exactly the symbols of that goal string, and
    some symbol occurs in it twice. *)
Theorem parse_args_BadBoard (int : str → option Z) (argv : list str) :
  _parse_args int argv = inl (Builtin BadBoard) ↔
  ∃ arg0 arg1 arg2 arg3 size goal,
    argv = [arg0; arg1; arg2; arg3] ∧ int arg1 = Some size ∧
    dict_get _GOALS size = Some goal ∧
    (∀ c, c ∈ arg2 ↔ c ∈ goal) ∧ ¬ NoDup arg2.
Proof.
  split.
  - intros Hp. pose proof (parse_args_inv int argv) as H.
    rewrite Hp in H.
    destruct H as (a0 & a1 & a2 & a3 & -> & [[? _]|[_ H]]); [done|].
    destruct H as (size & goal & ? & ? & ? & ?).
    by exists a0, a1, a2, a3, size, goal.
  - intros (a0 & a1 & a2 & a3 & size & goal & -> & Hint & Hgoal & Hall
            & Hdup).
    pose proof (parse_args_inv int [a0; a1; a2; a3]) as H.
    destruct (_parse_args int [a0; a1; a2; a3])
      as [[| |e]|[[[size' start] name] alg]].
    + by destruct (H a0 a1 a2 a3).
    + done.
    + destruct H as (? & b1 & b2 & ? & [= <- <- <- <-] & [[_ H]|[-> _]]);
        [|done].
      destruct H as [H|(size' & Hint' & H)]; [congruence|].
      rewrite Hint in Hint'. injection Hint' as <-.
      destruct (GOALS_get _ _ Hgoal) as [Hr _].
      destruct H as [?|(goal' & Hgoal' & H)]; [done|].
      rewrite Hgoal in Hgoal'. injection Hgoal' as <-.
      destruct H as [?|[Hp _]]; [done|].
      destruct (GOALS_valid _ _ Hgoal) as (_ & Hnd & _).
      destruct Hdup. by rewrite Hp.
    + destruct H as (? & ? & goal' & Heq & _ & _ & _ & _ & _ & Hv & _).
      injection Heq as _ _ -> _. destruct Hdup. apply Hv.
Qed.

(** X13. [main] lets no exception out and, given enough fuel, ends, on
    every command line and whatever [int] does: it reports invalid input
    exactly when [_parse_args] raises, and with that exception; it never
    reports that the goal State could not be created; and otherwise the
    search it runs returns, and the result handed on names the size, the
    second argument, the goal string of that size and the third
    argument. *)
Theorem main_total (int : str → option Z) (argv : list str) :
  ∃ fuel0 out,
    (∀ fuel, (fuel0 ≤ fuel)%nat → main int fuel argv = Some (inr out)) ∧
    out ≠ ProgramError ∧
    (∀ e, out = InvalidInput e ↔ _parse_args int argv = inl e) ∧
    (∀ printed size s g name d created count mark,
       out = Searched printed size s g name d created count mark →
       ∃ arg0 arg1, argv = [arg0; arg1; s; name] ∧
                    int arg1 = Some size ∧
                    dict_get _GOALS size = Some g).
Proof.
  unfold main. pose proof (parse_args_inv int argv) as H.
  destruct (_parse_args int argv)
    as [e|[[[size start] name] alg]] eqn:Hp.
  - assert (caught e = true) as ->.
    { destruct e as [| |e]; [done|done|].
      destruct H as (? & ? & ? & ? & _ & [[-> _]|[-> _]]); done. }
    exists 0%nat, (InvalidInput e). split; [done|]. split; [done|].
    split; [|done]. intros e'. split; congruence.
  - destruct H as (a0 & a1 & goal & -> & Hint & Hr & Hgoal & Hperm & Hc
                   & Hv & Halg).
    rewrite Hgoal. destruct (GOALS_get _ _ Hgoal) as [_ [gb Hgb]].
    rewrite Hgb. apply ALGORITHMS_get in Halg as (fr & Hfr & ->).
    assert (tiles gb = goal) as Hgt.
    { by apply create_Ok in Hgb as [_ (i & _ & ->)]. }
    destruct (graph_search_returns fr start gb Hfr Hv)
      as (fuel0 & [[[[node d] created] count] mark] & Hrun).
    { intros c Hin _. rewrite Hgt. by rewrite <- Hperm. }
    exists fuel0. eexists. split; [|split; [|split]].
    + intros fuel Hf. by rewrite (Hrun fuel Hf).
    + done.
    + intros e. split; done.
    + intros ? ? ? ? ? ? ? ? ? [= <- <- <- <- <- <- <- <- <-].
      exists a0, a1. by rewrite Hgt.
Qed.

(** A run of [main]: size 2, start [21 3], breadth-first search. *)
Example main_example :
  main one_digit 3 [chars "Tester.py"; chars "2"; chars "21 3"; chars "BFS"]
  = Some (inr (Searched [quote :: chars "21 3" ++ [quote];
                         quote :: chars "213 " ++ [quote]]
                 2 (chars "21 3") (chars "213 ") (chars "BFS") 1 3 2 2)).
Proof. vm_compute. reflexivity. Qed.

(** The character check lets a repeated symbol through, and [create] then
    raises [BadBoard], which [main] reports as invalid input. *)
Example main_repeated_symbol :
  main one_digit 0
    [chars "Tester.py"; chars "2"; chars "213 2"; chars "BFS"]
  = Some (inr (InvalidInput (Builtin BadBoard))).
Proof. vm_compute. reflexivity. Qed.

(** ** Bounds between the statistics *)

Lemma Fringe_len_Permutation fr fr' x :
  entries (store fr') ≡ₚ x :: entries (store fr) →
  Fringe_len fr' = Fringe_len fr + 1.
Proof.
  intros Hp. unfold Fringe_len, container_len. rewrite Hp. simpl. lia.
Qed.

Lemma Fringe_add_counts fr st goal_state fr' :
  Fringe_add fr st goal_state = Ok fr' →
  _num_created fr' = _num_created fr + 1 ∧
  Fringe_len fr' = Fringe_len fr + 1 ∧
  _max_fringe fr' = Z.max (_max_fringe fr) (Fringe_len fr').
Proof.
  intros Hadd.
  pose proof Hadd as (st' & _ & _ & _ & Hp)%Fringe_add_entries.
  apply Fringe_len_Permutation in Hp.
  apply Fringe_add_inv in Hadd as (? & c & _ & _ & ->). by simpl in *.
Qed.

Lemma try_add_counts (fr : Fringe) (E : gset str) goal_state o fr' :
  _try_add fr E goal_state o = Ok fr' →
  ∃ k, 0 ≤ k ≤ 1 ∧
       _num_created fr' = _num_created fr + k ∧
       Fringe_len fr' = Fringe_len fr + k ∧
       _max_fringe fr ≤ _max_fringe fr'
         ≤ Z.max (_max_fringe fr) (Fringe_len fr').
Proof.
  destruct o as [c|]; simpl.
  - case_bool_decide.
    + intros [= <-]. exists 0. lia.
    + intros (? & ? & ?)%Fringe_add_counts. exists 1. lia.
  - intros [= <-]. exists 0. lia.
Qed.

Lemma Fringe_remove_counts fr x fr1 :
  Fringe_remove fr = Ok (Some x, fr1) →
  _num_created fr1 = _num_created fr ∧ _max_fringe fr1 = _max_fringe fr ∧
  Fringe_len fr = Fringe_len fr1 + 1 ∧ x ∈ entries (store fr) ∧
  ∀ e, e ∈ entries (store fr1) → e ∈ entries (store fr).
Proof.
  intros Hr. pose proof (Fringe_remove_Permutation _ _ _ Hr) as Hp.
  pose proof (Fringe_len_Permutation _ _ _ Hp) as Hl.
  apply Fringe_remove_inv in Hr as [(? & _)|(y & c & _ & _ & ->)]; [done|].
  simpl in *. split; [done|]. split; [done|]. split; [done|].
  split; [rewrite Hp; by left|]. intros e He. rewrite Hp. by right.
Qed.

Section Counts.
Variables start goal_state : SlideBoard.

Lemma loop_body_counts E fr E' fr' :
  counts_ok start E fr →
  loop_body goal_state E fr = Ok (Continue E' fr') →
  counts_ok start E' fr'.
Proof.
  intros (Hc & Hl & Hm & Hd) Hb%loop_body_inv.
  rewrite Forall_forall in Hd.
  inversion Hb as [x fr1 Hr Hin| |
    x fr1 up fr2 down fr3 left fr4 right fr5 E0 Hr Hin Hne
      Hup H2 Hdn H3 Hlf H4 Hrt H5]; subst.
  - apply Fringe_remove_counts in Hr as (Hc1 & Hm1 & Hl1 & _ & Hsub).
    split; [lia|]. split; [lia|]. split; [lia|].
    apply Forall_forall. intros e He. by apply Hd, Hsub.
  - apply Fringe_remove_counts in Hr as (Hc1 & Hm1 & Hl1 & Hx & Hsub).
    assert (Z.of_nat (size E0) = Z.of_nat (size E) + 1) as Hs.
    { unfold E0. rewrite size_union by (by apply disjoint_singleton_l).
      rewrite size_singleton. lia. }
    destruct (try_add_counts _ _ _ _ _ H2) as (k2 & ? & ? & ? & ?).
    destruct (try_add_counts _ _ _ _ _ H3) as (k3 & ? & ? & ? & ?).
    destruct (try_add_counts _ _ _ _ _ H4) as (k4 & ? & ? & ? & ?).
    destruct (try_add_counts _ _ _ _ _ H5) as (k5 & ? & ? & ? & ?).
    assert (0 ≤ Fringe_len fr1) by (unfold Fringe_len, container_len; lia).
    split; [lia|]. split; [lia|]. split; [lia|].
    apply try_add_entries in H2 as (_ & N2 & _), H3 as (_ & N3 & _),
      H4 as (_ & N4 & _), H5 as (_ & N5 & _).
    assert (∀ d c e, move d x = Ok (Some c) → same_place e c →
              depth start ≤ depth e ≤ depth start + Z.of_nat (size E0))
      as Hchild.
    { intros d c e (_ & Hdc & _)%move_inv (_ & _ & _ & Hde).
      specialize (Hd x Hx). lia. }
    apply Forall_forall. intros e He.
    destruct (N5 e He) as [He4|(c & -> & Hsp)];
      [|by apply (Hchild Right c e)].
    destruct (N4 e He4) as [He3|(c & -> & Hsp)];
      [|by apply (Hchild Left c e)].
    destruct (N3 e He3) as [He2|(c & -> & Hsp)];
      [|by apply (Hchild Down c e)].
    destruct (N2 e He2) as [He1|(c & -> & Hsp)];
      [|by apply (Hchild Up c e)].
    specialize (Hd e (Hsub e He1)). lia.
Qed.

Lemma search_loop_counts fuel E fr node d created count mark :
  counts_ok start E fr →
  search_loop fuel goal_state E fr
    = Some (Ok (Some node, d, created, count, mark)) →
  depth start ≤ d ≤ depth start + count ∧
  count ≤ created ≤ 4 * count ∧
  1 ≤ mark ≤ created + 1.
Proof.
  revert E fr. induction fuel as [|fuel IH]; intros E fr Hok; [done|].
  simpl. destruct (Fringe_len fr =? 0); [done|].
  destruct (loop_body goal_state E fr) as [[E1 fr1|a]|] eqn:Hb; [| |done].
  - apply IH. by eapply loop_body_counts.
  - intros [= ->]. destruct Hok as (Hc & Hl & Hm & Hd).
    rewrite Forall_forall in Hd. apply loop_body_inv in Hb.
    inversion Hb as [|x fr1 Hr Hin Hg|]; subst.
    apply Fringe_remove_counts in Hr as (Hc1 & Hm1 & Hl1 & Hx & _).
    assert (0 ≤ Fringe_len fr1) by (unfold Fringe_len, container_len; lia).
    specialize (Hd _ Hx). lia.
Qed.
End Counts.

(** X14. When a search on a new fringe returns a State, the statistics
    it reports are tied to one another: the depth is at least the start's
    and exceeds it by at most the number of expanded configurations; the
    number of expanded configurations is at most the number of States
    created, which is at most four times as large; and the largest fringe
    size is at least 1 and at most one more than the number created. *)
Theorem statistics_bounds (fringe0 : Fringe)
    (start goal_state node : SlideBoard) (fuel : nat)
    (d created count mark : Z) :
  brand_new fringe0 →
  _graph_search fuel start goal_state fringe0
    = Some (Ok (Some node, d, created, count, mark)) →
  depth start ≤ d ≤ depth start + count ∧
  count ≤ created ≤ 4 * count ∧
  1 ≤ mark ≤ created + 1.
Proof.
  intros (Hc & Hm & He). unfold _graph_search.
  destruct (Fringe_add fringe0 start goal_state) as [fr1|] eqn:Hadd;
    [|done].
  apply (search_loop_counts start goal_state fuel ∅ fr1).
  pose proof (Fringe_add_counts _ _ _ _ Hadd) as (Hc1 & Hl1 & Hm1).
  apply Fringe_add_entries in Hadd as (st' & (_ & _ & _ & Hd) & _ & _ & Hp).
  assert (Fringe_len fringe0 = 0) as Hl0 by by apply Fringe_len_0.
  unfold counts_ok. rewrite size_empty. split; [lia|]. split; [lia|]. split; [lia|].
  rewrite Hp, He. constructor; [lia|done].
Qed.

Lemma statistics_bounds_witness :
  depth start_21_3 ≤ 1 ≤ depth start_21_3 + 2 ∧ 2 ≤ 3 ≤ 4 * 2 ∧
  1 ≤ 2 ≤ 3 + 1.
Proof.
  apply (statistics_bounds Queue_new start_21_3 goal_213_
           (mkSlideBoard (chars "213 ") 2 3 None 1 (Some start_21_3))
           3 1 3 2 2).
  - done.
  - vm_compute. reflexivity.
Defined.
